(** * OmniSage access-control core: RBAC, approvals, policy cache, audit

    A shallow embedding of the TypeScript sources

      - [rbac/role-hierarchy.ts]      (module [RoleHierarchy])
      - [rbac/policy-cache.ts]        (module [PolicyCache])
      - [rbac/permission-engine.ts]   (module [PermissionEngine])
      - [rbac/approval-workflow.ts]   (module [ApprovalWorkflow])
      - [audit/audit-logger.ts]       (module [AuditLogger])
      - [audit/pii-redactor.ts]       (modules [Regex], [PIIRedactor])

    Conventions.  Strings are [string]s, wall-clock instants ([Date],
    [Date.now()]) are milliseconds in [Z] and every read of the clock is an
    explicit argument.  Functions that [throw] return a [result].  Mutable
    objects (the [Map] of the cache, the logger's buffer) are threaded
    through as explicit state. *)

From Stdlib Require Import ZArith List String Ascii Bool Lia Permutation Sorted.
From Stdlib Require Import SpecFloat.
Import ListNotations.

Local Set Warnings "-register-all".
Local Open Scope string_scope.
Local Open Scope Z_scope.

(** ** JavaScript helpers *)

Module JS.

(** [a || b] on an optional string: [undefined] and [''] are falsy. *)
Definition or_str (a : option string) (b : string) : string :=
  match a with
  | Some s => if String.eqb s "" then b else s
  | None => b
  end.

(** [s.startsWith(p)] *)
Definition startsWith (s p : string) : bool := String.prefix p s.

(** [xs.join(sep)] *)
Fixpoint join (sep : string) (xs : list string) : string :=
  match xs with
  | [] => ""
  | [x] => x
  | x :: rest => (x ++ sep ++ join sep rest)%string
  end.

(** [xs.includes(x)] on an array of strings *)
Definition includes (xs : list string) (x : string) : bool :=
  existsb (String.eqb x) xs.

(** Outcome of a call that may [throw new Error(msg)]. *)
Inductive result (A : Type) : Type :=
| Ok (a : A)
| Throw (msg : string).
Arguments Ok {A} a.
Arguments Throw {A} msg.

End JS.

(** ** rbac/role-hierarchy.ts *)

Module RoleHierarchy.

(** [type Role = OrgRole | WorkspaceRole], a union of six string literals. *)
Inductive Role : Type :=
| OrgOwner | OrgAdmin | OrgMember
| WsAdmin | WsMember | WsViewer.

(** The string literal a [Role] stands for. *)
Definition role_str (r : Role) : string :=
  match r with
  | OrgOwner => "org:owner"
  | OrgAdmin => "org:admin"
  | OrgMember => "org:member"
  | WsAdmin => "ws:admin"
  | WsMember => "ws:member"
  | WsViewer => "ws:viewer"
  end.

Definition Role_eqb (a b : Role) : bool :=
  match a, b with
  | OrgOwner, OrgOwner | OrgAdmin, OrgAdmin | OrgMember, OrgMember
  | WsAdmin, WsAdmin | WsMember, WsMember | WsViewer, WsViewer => true
  | _, _ => false
  end.

Record UserRole : Type := mkUserRole {
  ur_userId : string;
  ur_role : Role;
  ur_scope : string;
  ur_grantedAt : Z;
  ur_grantedBy : string
}.

(** [ORG_HIERARCHY[role] || 0] *)
Definition ORG_HIERARCHY (r : Role) : Z :=
  match r with
  | OrgOwner => 3
  | OrgAdmin => 2
  | OrgMember => 1
  | _ => 0
  end.

(** [WS_HIERARCHY[role] || 0] *)
Definition WS_HIERARCHY (r : Role) : Z :=
  match r with
  | WsAdmin => 3
  | WsMember => 2
  | WsViewer => 1
  | _ => 0
  end.

Definition getRoleLevel (role : Role) : Z :=
  if JS.startsWith (role_str role) "org:" then ORG_HIERARCHY role
  else if JS.startsWith (role_str role) "ws:" then WS_HIERARCHY role
  else 0.

Definition roleIncludes (roleA roleB : Role) : bool :=
  if negb (Bool.eqb (JS.startsWith (role_str roleA) "org:")
                    (JS.startsWith (role_str roleB) "org:"))
  then false
  else getRoleLevel roleA >=? getRoleLevel roleB.

Definition getImpliedRoles (role : Role) : list Role :=
  let level := getRoleLevel role in
  if JS.startsWith (role_str role) "org:" then
    filter (fun r => ORG_HIERARCHY r <=? level) [OrgOwner; OrgAdmin; OrgMember]
  else if JS.startsWith (role_str role) "ws:" then
    filter (fun r => WS_HIERARCHY r <=? level) [WsAdmin; WsMember; WsViewer]
  else [role].

(** The callback of the [reduce] in [getHighestRole]. *)
Definition higher (highest : option Role) (current : UserRole) : option Role :=
  match highest with
  | None => Some (ur_role current)
  | Some h =>
      if getRoleLevel (ur_role current) >? getRoleLevel h
      then Some (ur_role current) else Some h
  end.

Definition getHighestRole (roles : list UserRole) (scope : string) : option Role :=
  let applicableRoles :=
    filter (fun r => String.eqb (ur_scope r) scope || String.eqb (ur_scope r) "*") roles in
  match applicableRoles with
  | [] => None
  | _ => fold_left higher applicableRoles None
  end.

Definition hasRoleOrHigher (userRoles : list UserRole) (requiredRole : Role)
           (scope : string) : bool :=
  match getHighestRole userRoles scope with
  | None => false
  | Some highestRole => roleIncludes highestRole requiredRole
  end.

(** [Set.prototype.add]: a [Set<Role>] is its insertion-ordered list of
    distinct members. *)
Definition set_add (s : list Role) (r : Role) : list Role :=
  if existsb (Role_eqb r) s then s else s ++ [r].

Definition set_add_all (s : list Role) (rs : list Role) : list Role :=
  fold_left set_add rs s.

Definition getEffectiveRoles (userRoles : list UserRole)
           (workspaceId orgId : string) : list Role :=
  let roles : list Role := [] in
  let orgRole := getHighestRole userRoles orgId in
  let roles :=
    match orgRole with
    | Some orgRole =>
        let roles := set_add_all roles (getImpliedRoles orgRole) in
        if Role_eqb orgRole OrgOwner || Role_eqb orgRole OrgAdmin then
          set_add (set_add (set_add roles WsAdmin) WsMember) WsViewer
        else roles
    | None => roles
    end in
  fold_left
    (fun roles r => set_add_all roles (getImpliedRoles (ur_role r)))
    (filter (fun r => String.eqb (ur_scope r) workspaceId) userRoles)
    roles.

End RoleHierarchy.

(** ** rbac/index.ts *)

Module Rbac.

(** [ResourceType] and [ActionType] are string-literal unions; the grant
    tables also store the wildcard ['*'] in those fields, so both are kept
    as strings and compared with [===]. *)
Record Permission : Type := mkPermission {
  resource : string;
  action : string;
  scope : string
}.

Record PolicyRule : Type := mkPolicyRule {
  id : string;
  name : string;
  description : string;
  roles : list string;
  permissions : list Permission;
  approvalRequired : bool;
  alertRecipients : option (list string)
}.

Record AccessDecision : Type := mkAccessDecision {
  granted : bool;
  decisionApprovalRequired : bool;
  reason : string;
  policyId : option string
}.

End Rbac.

(** ** rbac/policy-cache.ts *)

Module PolicyCache.
Import Rbac.

Record CacheEntry : Type := mkCacheEntry {
  value : AccessDecision;
  expiresAt : Z
}.

(** A JavaScript [Map<string, CacheEntry>]: entries in insertion order. *)
Definition JsMap : Type := list (string * CacheEntry).

Fixpoint map_get (key : string) (m : JsMap) : option CacheEntry :=
  match m with
  | [] => None
  | (k, e) :: rest => if String.eqb k key then Some e else map_get key rest
  end.

(** [Map.prototype.set]: an existing key keeps its position. *)
Fixpoint map_set (key : string) (e : CacheEntry) (m : JsMap) : JsMap :=
  match m with
  | [] => [(key, e)]
  | (k, e') :: rest =>
      if String.eqb k key then (k, e) :: rest else (k, e') :: map_set key e rest
  end.

Definition map_delete (key : string) (m : JsMap) : JsMap :=
  filter (fun kv => negb (String.eqb (fst kv) key)) m.

Record t : Type := mkCache {
  cache : JsMap;
  ttlMs : Z;
  maxSize : Z;
  hits : Z;
  misses : Z
}.

(** [new PolicyCache(ttlMs = 60000, maxSize = 10000)] *)
Definition new (ttlMs : option Z) (maxSize : option Z) : t :=
  {| cache := [];
     ttlMs := match ttlMs with Some x => x | None => 60000 end;
     maxSize := match maxSize with Some x => x | None => 10000 end;
     hits := 0;
     misses := 0 |}.

Definition size (c : t) : Z := Z.of_nat (List.length (cache c)).

Definition get (now : Z) (key : string) (c : t) : option AccessDecision * t :=
  match map_get key (cache c) with
  | None =>
      (None, {| cache := cache c; ttlMs := ttlMs c; maxSize := maxSize c;
                hits := hits c; misses := misses c + 1 |})
  | Some entry =>
      if now >? expiresAt entry then
        (None, {| cache := map_delete key (cache c); ttlMs := ttlMs c;
                  maxSize := maxSize c; hits := hits c; misses := misses c + 1 |})
      else
        (Some (value entry),
         {| cache := cache c; ttlMs := ttlMs c; maxSize := maxSize c;
            hits := hits c + 1; misses := misses c |})
  end.

(** *** [Math.ceil(this.maxSize * 0.1)]

    The product is a binary64 product.  The literal [0.1] is the double
    [0x1999999999999A * 2^-56]; an integer-valued [maxSize] is the double
    with that integer as (unnormalised) significand and exponent 0, exact
    as long as the integer is representable. *)

Definition prec : Z := 53.
Definition emax : Z := 1024.

Definition double_0_1 : spec_float := S754_finite false 7205759403792794 (-56).

Definition double_of_int (n : Z) : spec_float :=
  match n with
  | Z0 => S754_zero false
  | Zpos p => S754_finite false p 0
  | Zneg p => S754_finite true p 0
  end.

(** Ceiling of [m * 2^e] for a positive significand [m]. *)
Definition ceil_pos (m : positive) (e : Z) : Z :=
  if 0 <=? e then Zpos m * 2 ^ e
  else - ((- Zpos m) / 2 ^ (- e)).

(** Number of iterations of
    [for (let i = 0; i < entriesToEvict && i < len; i++)]
    where [entriesToEvict = Math.ceil(x)]. *)
Definition loop_bound (x : spec_float) (len : nat) : nat :=
  match x with
  | S754_finite false m e => Nat.min (Z.to_nat (ceil_pos m e)) len
  | S754_infinity false => len
  | _ => 0%nat
  end.

(** Stable sort of the entries by [a[1].expiresAt - b[1].expiresAt]. *)
Fixpoint insert_by_expiry (x : string * CacheEntry) (l : JsMap) : JsMap :=
  match l with
  | [] => [x]
  | y :: rest =>
      if expiresAt (snd x) <=? expiresAt (snd y) then x :: y :: rest
      else y :: insert_by_expiry x rest
  end.

Definition sort_by_expiry (l : JsMap) : JsMap :=
  fold_right insert_by_expiry [] l.

Definition evictOldest (c : t) : t :=
  let entriesToEvict := SFmul prec emax (double_of_int (maxSize c)) double_0_1 in
  let sorted := sort_by_expiry (cache c) in
  let doomed := firstn (loop_bound entriesToEvict (List.length sorted)) sorted in
  {| cache := fold_left (fun m kv => map_delete (fst kv) m) doomed (cache c);
     ttlMs := ttlMs c; maxSize := maxSize c; hits := hits c; misses := misses c |}.

Definition set (now : Z) (key : string) (v : AccessDecision) (c : t) : t :=
  let c := if size c >=? maxSize c then evictOldest c else c in
  {| cache := map_set key {| value := v; expiresAt := now + ttlMs c |} (cache c);
     ttlMs := ttlMs c; maxSize := maxSize c; hits := hits c; misses := misses c |}.

Definition clear (c : t) : t :=
  {| cache := []; ttlMs := ttlMs c; maxSize := maxSize c; hits := 0; misses := 0 |}.

(** A run of [set] calls, each with its own reading of [Date.now()]. *)
Definition set_all (ops : list (Z * string * AccessDecision)) (c : t) : t :=
  fold_left (fun c op => set (fst (fst op)) (snd (fst op)) (snd op) c) ops c.

(** [clearExpired]: the loop visits the entries the map holds when it starts
    and deletes the key of each one that has expired. *)
Definition clearExpired (now : Z) (c : t) : t :=
  {| cache :=
       fold_left
         (fun m kv => if now >? expiresAt (snd kv) then map_delete (fst kv) m else m)
         (cache c) (cache c);
     ttlMs := ttlMs c; maxSize := maxSize c; hits := hits c; misses := misses c |}.

End PolicyCache.

(** ** rbac/permission-engine.ts *)

Module PermissionEngine.
Import Rbac RoleHierarchy.

Definition perm (r a s : string) : Permission :=
  {| resource := r; action := a; scope := s |}.

(** [DEFAULT_PERMISSIONS[role] || []] *)
Definition DEFAULT_PERMISSIONS (role : Role) : list Permission :=
  match role with
  | OrgOwner => [ perm "*" "*" "*" ]
  | OrgAdmin =>
      [ perm "workspace" "create" "*";
        perm "workspace" "read" "*";
        perm "workspace" "update" "*";
        perm "user" "create" "*";
        perm "user" "read" "*";
        perm "user" "update" "*";
        perm "audit" "read" "*" ]
  | OrgMember => [ perm "workspace" "read" "*" ]
  | WsAdmin =>
      [ perm "agent" "create" "workspace";
        perm "agent" "read" "workspace";
        perm "agent" "update" "workspace";
        perm "agent" "delete" "workspace";
        perm "memory" "read" "workspace";
        perm "memory" "update" "workspace";
        perm "integration" "create" "workspace";
        perm "integration" "read" "workspace";
        perm "integration" "update" "workspace";
        perm "tool" "execute" "workspace" ]
  | WsMember =>
      [ perm "agent" "read" "workspace";
        perm "agent" "execute" "workspace";
        perm "memory" "read" "workspace";
        perm "tool" "execute" "workspace" ]
  | WsViewer =>
      [ perm "agent" "read" "workspace";
        perm "memory" "read" "workspace" ]
  end.

Record PermissionContext : Type := mkContext {
  userId : string;
  orgId : string;
  workspaceId : option string;
  userRoles : list UserRole;
  policies : option (list PolicyRule)
}.

(** The engine's only field is its private [policyCache]. *)
Record Engine : Type := mkEngine { policyCache : PolicyCache.t }.

(** [new PermissionEngine(cacheTtlMs = 60000)] *)
Definition new (cacheTtlMs : option Z) : Engine :=
  {| policyCache :=
       PolicyCache.new (Some match cacheTtlMs with Some x => x | None => 60000 end)
                       None |}.

(** Body of the inner loop of [checkDefaultPermissions]: does this
    permission make the function [return true]? *)
Definition defaultPermMatches (resource action scope : string) (p : Permission) : bool :=
  if String.eqb (Rbac.resource p) "*" && String.eqb (Rbac.action p) "*" then true
  else
    let resourceMatch :=
      String.eqb (Rbac.resource p) resource || String.eqb (Rbac.resource p) "*" in
    let actionMatch :=
      String.eqb (Rbac.action p) action || String.eqb (Rbac.action p) "*" in
    let scopeMatch :=
      String.eqb (Rbac.scope p) "*" || String.eqb (Rbac.scope p) scope
      || String.eqb (Rbac.scope p) "workspace" in
    resourceMatch && actionMatch && scopeMatch.

Definition checkDefaultPermissions (roles : list Role)
           (resource action scope : string) : bool :=
  existsb
    (fun role => existsb (defaultPermMatches resource action scope)
                         (DEFAULT_PERMISSIONS role))
    roles.

Definition policyPermMatches (resource action scope : string) (p : Permission) : bool :=
  let resourceMatch :=
    String.eqb (Rbac.resource p) resource || String.eqb (Rbac.resource p) "*" in
  let actionMatch :=
    String.eqb (Rbac.action p) action || String.eqb (Rbac.action p) "*" in
  let scopeMatch :=
    String.eqb (Rbac.scope p) "*" || String.eqb (Rbac.scope p) scope in
  resourceMatch && actionMatch && scopeMatch.

(** The [for (const policy of policies)] loop of [checkPolicies]: the
    decision of the first policy that applies, if any. *)
Fixpoint scanPolicies (policies : list PolicyRule) (userRoles : list Role)
         (resource action scope : string) : option AccessDecision :=
  match policies with
  | [] => None
  | policy :: rest =>
      let roleMatches :=
        existsb (fun policyRole => JS.includes (map role_str userRoles) policyRole)
                (Rbac.roles policy) in
      if negb roleMatches then scanPolicies rest userRoles resource action scope
      else if existsb (policyPermMatches resource action scope) (permissions policy)
      then
        Some {| granted := true;
                decisionApprovalRequired := approvalRequired policy;
                reason := if approvalRequired policy
                          then "Granted with approval required"
                          else ("Granted by policy: " ++ name policy)%string;
                policyId := Some (id policy) |}
      else scanPolicies rest userRoles resource action scope
  end.

(** [nowGet] and [nowSet] are the readings of [Date.now()] inside
    [policyCache.get] and [policyCache.set]. *)
Definition checkPolicies (nowGet nowSet : Z) (e : Engine)
           (policies : list PolicyRule) (userRoles : list Role)
           (resource action scope : string) : AccessDecision * Engine :=
  let cacheKey :=
    (JS.join "," (map role_str userRoles) ++ "-" ++ resource ++ "-" ++ action
     ++ "-" ++ scope)%string in
  match PolicyCache.get nowGet cacheKey (policyCache e) with
  | (Some cached, c) => (cached, {| policyCache := c |})
  | (None, c) =>
      match scanPolicies policies userRoles resource action scope with
      | Some decision =>
          (decision, {| policyCache := PolicyCache.set nowSet cacheKey decision c |})
      | None =>
          let decision :=
            {| granted := false;
               decisionApprovalRequired := false;
               reason := "No matching policy found";
               policyId := None |} in
          (decision, {| policyCache := PolicyCache.set nowSet cacheKey decision c |})
      end
  end.

(** [checkPermission].  The calls to [logAccessDecision] append one event
    to the audit buffer of [audit-integration.ts]; they neither fail nor
    touch the decision or the cache and are left out of the state. *)
Definition checkPermission (nowGet nowSet : Z) (e : Engine)
           (context : PermissionContext) (resource action : string)
           (targetScope : option string) : AccessDecision * Engine :=
  let scope := JS.or_str targetScope (JS.or_str (workspaceId context) (orgId context)) in
  let effectiveRoles :=
    getEffectiveRoles (userRoles context) (JS.or_str (workspaceId context) "")
                      (orgId context) in
  if checkDefaultPermissions effectiveRoles resource action scope then
    ({| granted := true;
        decisionApprovalRequired := false;
        reason := "Granted by role permissions";
        policyId := None |}, e)
  else
    match policies context with
    | Some (p :: ps) =>
        checkPolicies nowGet nowSet e (p :: ps) effectiveRoles resource action scope
    | _ =>
        ({| granted := false;
            decisionApprovalRequired := false;
            reason := "No matching permissions found";
            policyId := None |}, e)
    end.

Definition clearCache (e : Engine) : Engine :=
  {| policyCache := PolicyCache.clear (policyCache e) |}.

(** One call on the engine's public interface. *)
Inductive Call : Type :=
| CheckPermission (nowGet nowSet : Z) (context : PermissionContext)
                  (resource action : string) (targetScope : option string)
| ClearCache.

(** The decisions returned by a sequence of calls, and the final engine. *)
Fixpoint run (calls : list Call) (e : Engine) : list AccessDecision * Engine :=
  match calls with
  | [] => ([], e)
  | CheckPermission nowGet nowSet context resource action targetScope :: rest =>
      let '(d, e') := checkPermission nowGet nowSet e context resource action targetScope in
      let '(ds, e'') := run rest e' in
      (d :: ds, e'')
  | ClearCache :: rest => run rest (clearCache e)
  end.

End PermissionEngine.

(** ** rbac/approval-workflow.ts *)

Module ApprovalWorkflow.
Import JS.

Inductive ApprovalState : Type :=
| pending | approved | denied | expired | cancelled.

Definition state_str (s : ApprovalState) : string :=
  match s with
  | pending => "pending"
  | approved => "approved"
  | denied => "denied"
  | expired => "expired"
  | cancelled => "cancelled"
  end.

Inductive ApprovalType : Type :=
| single | majority | unanimous | sequential.

Inductive Verdict : Type := approve | deny.

Definition Verdict_eqb (a b : Verdict) : bool :=
  match a, b with
  | approve, approve | deny, deny => true
  | _, _ => false
  end.

Record ApprovalAction : Type := mkAction {
  approverId : string;
  action : Verdict;
  timestamp : Z;
  comment : option string
}.

(** The free-form [context] payload is carried along untouched by every
    function below and is not represented. *)
Record ApprovalRequest : Type := mkRequest {
  id : string;
  userId : string;
  orgId : string;
  workspaceId : option string;
  resource : string;
  reqAction : string;
  scope : string;
  type : ApprovalType;
  approvers : list string;
  requiredApprovals : Z;
  state : ApprovalState;
  createdAt : Z;
  expiresAt : Z;
  approvals : list ApprovalAction;
  reason : option string;
  alertSent : option bool;
  completedAt : option Z
}.

Record ApprovalWorkflowConfig : Type := mkConfig {
  cfgType : ApprovalType;
  cfgApprovers : list string;
  expirationMinutes : Z;
  cfgRequiredApprovals : option Z;
  alertRecipients : option (list string)
}.

(** [{ ...request, state: s }] *)
Definition with_state (r : ApprovalRequest) (s : ApprovalState) : ApprovalRequest :=
  {| id := id r; userId := userId r; orgId := orgId r; workspaceId := workspaceId r;
     resource := resource r; reqAction := reqAction r; scope := scope r;
     type := type r; approvers := approvers r;
     requiredApprovals := requiredApprovals r;
     state := s; createdAt := createdAt r; expiresAt := expiresAt r;
     approvals := approvals r; reason := reason r; alertSent := alertSent r;
     completedAt := completedAt r |}.

(** [{ ...request, state: s, completedAt: new Date() }] *)
Definition complete (r : ApprovalRequest) (s : ApprovalState) (now : Z) : ApprovalRequest :=
  {| id := id r; userId := userId r; orgId := orgId r; workspaceId := workspaceId r;
     resource := resource r; reqAction := reqAction r; scope := scope r;
     type := type r; approvers := approvers r;
     requiredApprovals := requiredApprovals r;
     state := s; createdAt := createdAt r; expiresAt := expiresAt r;
     approvals := approvals r; reason := reason r; alertSent := alertSent r;
     completedAt := Some now |}.

(** [{ ...request, approvals: newApprovals }] *)
Definition with_approvals (r : ApprovalRequest) (l : list ApprovalAction) : ApprovalRequest :=
  {| id := id r; userId := userId r; orgId := orgId r; workspaceId := workspaceId r;
     resource := resource r; reqAction := reqAction r; scope := scope r;
     type := type r; approvers := approvers r;
     requiredApprovals := requiredApprovals r;
     state := state r; createdAt := createdAt r; expiresAt := expiresAt r;
     approvals := l; reason := reason r; alertSent := alertSent r;
     completedAt := completedAt r |}.

(** [create]; [newId] is the value of [generateId()], [now] of [new Date()]. *)
Definition create (newId : string) (now : Z)
           (userId orgId resource action scope : string)
           (config : ApprovalWorkflowConfig) (workspaceId : option string)
  : ApprovalRequest :=
  {| id := newId; userId := userId; orgId := orgId; workspaceId := workspaceId;
     resource := resource; reqAction := action; scope := scope;
     type := cfgType config; approvers := cfgApprovers config;
     requiredApprovals :=
       match cfgRequiredApprovals config with
       | Some n => if n =? 0 then 1 else n
       | None => 1
       end;
     state := pending; createdAt := now;
     expiresAt := now + expirationMinutes config * 60 * 1000;
     approvals := []; reason := None; alertSent := None; completedAt := None |}.

(** The ordering check of the [sequential] case:
    does some [i < approvals.length] have
    [approvals[i].approverId !== request.approvers[i]]? *)
Definition outOfOrder (approvals : list ApprovalAction) (approvers : list string) : bool :=
  existsb
    (fun i =>
       match nth_error approvals i, nth_error approvers i with
       | Some a, Some p => negb (String.eqb (approverId a) p)
       | _, _ => true
       end)
    (seq 0 (List.length approvals)).

Definition updateState (now : Z) (request : ApprovalRequest) : ApprovalRequest :=
  let approves := filter (fun a => Verdict_eqb (action a) approve) (approvals request) in
  let denials := filter (fun a => Verdict_eqb (action a) deny) (approvals request) in
  let nApprovals := Z.of_nat (List.length approves) in
  let nDenials := Z.of_nat (List.length denials) in
  let nApprovers := Z.of_nat (List.length (approvers request)) in
  match type request with
  | single =>
      if nApprovals >=? 1 then complete request approved now
      else if nDenials >=? 1 then complete request denied now
      else request
  | majority =>
      let required := requiredApprovals request in
      if nApprovals >=? required then complete request approved now
      else
        let remaining :=
          nApprovers - Z.of_nat (List.length (approvals request)) in
        if nApprovals + remaining <? required then complete request denied now
        else request
  | unanimous =>
      if nDenials >=? 1 then complete request denied now
      else if nApprovals =? nApprovers then complete request approved now
      else request
  | sequential =>
      if nDenials >=? 1 then complete request denied now
      else if outOfOrder approves (approvers request) then complete request denied now
      else if nApprovals =? nApprovers then complete request approved now
      else request
  end.

(** [processAction].  [now] is the [new Date()] of the expiry check,
    [stamp] the one stored in the new action and [done] the one
    [updateState] may store in [completedAt]. *)
Definition processAction (now stamp done : Z) (request : ApprovalRequest)
           (approver : string) (act : Verdict) (note : option string)
  : result ApprovalRequest :=
  match state request with
  | pending =>
      if now >? expiresAt request then Ok (with_state request expired)
      else if negb (includes (approvers request) approver) then
        Throw "User is not authorized to approve this request"
      else if existsb (fun a => String.eqb (approverId a) approver) (approvals request) then
        Throw "User has already acted on this request"
      else
        let newApprovals :=
          (approvals request
           ++ [ {| approverId := approver; action := act;
                   timestamp := stamp; comment := note |} ])%list in
        Ok (updateState done (with_approvals request newApprovals))
  | s =>
      Throw ("Approval request is " ++ state_str s ++ ", cannot process action")
  end.

Definition cancel (now : Z) (request : ApprovalRequest) : result ApprovalRequest :=
  match state request with
  | pending => Ok (complete request cancelled now)
  | s => Throw ("Cannot cancel request in state: " ++ state_str s)
  end.

(** [checkExpiration]; the second [new Date()] is [done]. *)
Definition checkExpiration (now done : Z) (request : ApprovalRequest) : ApprovalRequest :=
  match state request with
  | pending =>
      if now >? expiresAt request then complete request expired done else request
  | _ => request
  end.

(** [ApprovalStore.get] on the store's [Map], kept as the list of its
    entries. *)
Fixpoint store_get (now done : Z) (key : string) (requests : list (string * ApprovalRequest))
  : option ApprovalRequest :=
  match requests with
  | [] => None
  | (k, r) :: rest =>
      if String.eqb k key then Some (checkExpiration now done r)
      else store_get now done key rest
  end.

Definition ApprovalState_eqb (a b : ApprovalState) : bool :=
  match a, b with
  | pending, pending | approved, approved | denied, denied
  | expired, expired | cancelled, cancelled => true
  | _, _ => false
  end.

Definition getNextApprover (request : ApprovalRequest) : option string :=
  match type request with
  | sequential =>
      let approves := filter (fun a => Verdict_eqb (action a) approve) (approvals request) in
      if (List.length (approvers request) <=? List.length approves)%nat then None
      else nth_error (approvers request) (List.length approves)
  | _ => None
  end.

(** [getPendingApprovers]; in [next ? [next] : []] an empty id is falsy. *)
Definition getPendingApprovers (request : ApprovalRequest) : list string :=
  let actedUserIds := map approverId (approvals request) in
  match type request with
  | sequential =>
      match getNextApprover request with
      | Some next => if String.eqb next "" then [] else [next]
      | None => []
      end
  | _ => filter (fun id => negb (includes actedUserIds id)) (approvers request)
  end.

(** *** [ApprovalStore]: a [Map] from request id to request *)

Definition Store : Type := list (string * ApprovalRequest).

Fixpoint store_set (key : string) (r : ApprovalRequest) (m : Store) : Store :=
  match m with
  | [] => [(key, r)]
  | (k, r') :: rest =>
      if String.eqb k key then (k, r) :: rest else (k, r') :: store_set key r rest
  end.

Definition save (request : ApprovalRequest) (m : Store) : Store :=
  store_set (id request) request m.

Definition store_delete (key : string) (m : Store) : Store :=
  filter (fun kv => negb (String.eqb (fst kv) key)) m.

(** [.map(r => ApprovalWorkflow.checkExpiration(r))]: the call on the
    [i]-th element reads the clock as [clock i]. *)
Fixpoint checkAll (clock : nat -> Z * Z) (i : nat) (rs : list ApprovalRequest)
  : list ApprovalRequest :=
  match rs with
  | [] => []
  | r :: rest =>
      checkExpiration (fst (clock i)) (snd (clock i)) r :: checkAll clock (S i) rest
  end.

Definition findByUser (clock : nat -> Z * Z) (user : string)
           (wanted : option ApprovalState) (m : Store) : list ApprovalRequest :=
  checkAll clock 0
    (filter
       (fun r =>
          String.eqb (userId r) user
          && match wanted with
             | None => true
             | Some s => ApprovalState_eqb (state r) s
             end)
       (map snd m)).

Definition findPendingForApprover (clock : nat -> Z * Z) (approver : string) (m : Store)
  : list ApprovalRequest :=
  checkAll clock 0
    (filter
       (fun r => ApprovalState_eqb (state r) pending && includes (approvers r) approver)
       (map snd m)).

End ApprovalWorkflow.

(** ** Regular expressions

    The fragment of JavaScript regular expressions that the redactor uses,
    with the backtracking semantics of ECMAScript: alternatives are tried
    left to right, quantifiers are greedy, and an optional iteration that
    matches the empty string is rejected.  Strings are taken to be ASCII:
    characters above 127 are neither word characters nor white space and
    have no case. *)

Module Regex.

Inductive ClassItem : Type :=
| CChar (c : ascii)
| CRange (lo hi : ascii)
| CDigit                                  (* \d *)
| CSpace                                  (* \s *)
| CWord.                                  (* \w *)

Inductive Re : Type :=
| Eps
| Lit (c : ascii)
| Class (items : list ClassItem)          (* [...] *)
| WordB                                   (* \b *)
| Seq (a b : Re)
| Alt (a b : Re)
| Rep (r : Re) (min : nat) (max : option nat).   (* r{min,max}, greedy *)

Record RegExp : Type := mkRegExp {
  source : Re;
  ignoreCase : bool;                      (* flag i *)
  global : bool                           (* flag g *)
}.

Definition code (c : ascii) : nat := nat_of_ascii c.

Definition between (lo hi c : ascii) : bool :=
  (code lo <=? code c)%nat && (code c <=? code hi)%nat.

Definition is_digit (c : ascii) : bool := between "0" "9" c.
Definition is_upper (c : ascii) : bool := between "A" "Z" c.
Definition is_lower (c : ascii) : bool := between "a" "z" c.

Definition is_word (c : ascii) : bool :=
  is_lower c || is_upper c || is_digit c || Ascii.eqb c "_".

(** White space below 128: TAB, LF, VT, FF, CR and SPACE. *)
Definition is_space (c : ascii) : bool :=
  (code c =? 9)%nat || (code c =? 10)%nat || (code c =? 11)%nat
  || (code c =? 12)%nat || (code c =? 13)%nat || (code c =? 32)%nat.

Definition to_upper (c : ascii) : ascii :=
  if is_lower c then ascii_of_nat (code c - 32) else c.

Definition to_lower (c : ascii) : ascii :=
  if is_upper c then ascii_of_nat (code c + 32) else c.

Definition item_mem (it : ClassItem) (c : ascii) : bool :=
  match it with
  | CChar x => Ascii.eqb x c
  | CRange lo hi => between lo hi c
  | CDigit => is_digit c
  | CSpace => is_space c
  | CWord => is_word c
  end.

(** Membership in a class; with flag [i] a character matches when some
    member of the class has the same canonical (upper-case) form. *)
Definition class_mem (ic : bool) (items : list ClassItem) (c : ascii) : bool :=
  existsb
    (fun it =>
       item_mem it c
       || (ic && (item_mem it (to_upper c) || item_mem it (to_lower c))))
    items.

Definition same_char (ic : bool) (x c : ascii) : bool :=
  if ic then Ascii.eqb (to_upper x) (to_upper c) else Ascii.eqb x c.

Definition word_at (c : option ascii) : bool :=
  match c with
  | Some x => is_word x
  | None => false
  end.

(** A position in the subject: the character before it, if any, and the
    characters from it on. *)
Definition Pos : Type := (option ascii * list ascii)%type.

Definition Cont : Type := option ascii -> list ascii -> option Pos.

Definition pred_max (max : option nat) : option nat :=
  match max with
  | Some n => Some (Nat.pred n)
  | None => None
  end.

Definition exhausted (max : option nat) : bool :=
  match max with
  | Some O => true
  | _ => false
  end.

(** Optional iterations of a quantified atom. *)
Fixpoint rep_more (fuel : nat)
         (step : option ascii -> list ascii -> Cont -> option Pos)
         (max : option nat) (prev : option ascii) (s : list ascii) (k : Cont)
  : option Pos :=
  match fuel with
  | O => k prev s
  | S fuel' =>
      if exhausted max then k prev s
      else
        match step prev s
                   (fun p' s' =>
                      if (List.length s' =? List.length s)%nat then None
                      else rep_more fuel' step (pred_max max) p' s' k) with
        | Some r => Some r
        | None => k prev s
        end
  end.

(** Mandatory iterations, then the optional ones. *)
Fixpoint rep_min (n : nat)
         (step : option ascii -> list ascii -> Cont -> option Pos)
         (max : option nat) (prev : option ascii) (s : list ascii) (k : Cont)
  : option Pos :=
  match n with
  | O => rep_more (S (List.length s)) step max prev s k
  | S n' => step prev s (fun p' s' => rep_min n' step (pred_max max) p' s' k)
  end.

(** [exec ic r prev s k]: match [r] at the position [(prev, s)] and
    continue with [k]; the first success in backtracking order. *)
Fixpoint exec (ic : bool) (r : Re) (prev : option ascii) (s : list ascii)
         (k : Cont) : option Pos :=
  match r with
  | Eps => k prev s
  | Lit c =>
      match s with
      | x :: s' => if same_char ic x c then k (Some x) s' else None
      | [] => None
      end
  | Class items =>
      match s with
      | x :: s' => if class_mem ic items x then k (Some x) s' else None
      | [] => None
      end
  | WordB =>
      if xorb (word_at prev) (word_at (hd_error s)) then k prev s else None
  | Seq a b => exec ic a prev s (fun p' s' => exec ic b p' s' k)
  | Alt a b =>
      match exec ic a prev s k with
      | Some r => Some r
      | None => exec ic b prev s k
      end
  | Rep r' min max => rep_min min (exec ic r') max prev s k
  end.

(** A match of the whole pattern starting at this position: the position
    where it ends. *)
Definition match_here (re : RegExp) (prev : option ascii) (s : list ascii) : option Pos :=
  exec (ignoreCase re) (source re) prev s (fun p rest => Some (p, rest)).

(** [re.test(s)] for a pattern without flag [g]: is there a match at some
    position? *)
Fixpoint test_from (re : RegExp) (prev : option ascii) (s : list ascii) : bool :=
  match match_here re prev s with
  | Some _ => true
  | None =>
      match s with
      | [] => false
      | c :: s' => test_from re (Some c) s'
      end
  end.

Definition test (re : RegExp) (s : string) : bool :=
  test_from re None (list_ascii_of_string s).

(** [s.replace(re, replacement)] for a replacement without [$].  With flag
    [g] every match, found left to right, is replaced; after an empty match
    the scan moves one character on. *)
Fixpoint replace_from (fuel : nat) (re : RegExp) (replacement : list ascii)
         (prev : option ascii) (s : list ascii) : list ascii :=
  match fuel with
  | O => s
  | S fuel' =>
      match match_here re prev s with
      | Some (p', rest) =>
          if (List.length rest =? List.length s)%nat then
            match s with
            | [] => replacement
            | c :: s' => replacement ++ c :: replace_from fuel' re replacement (Some c) s'
            end
          else replacement ++ replace_from fuel' re replacement p' rest
      | None =>
          match s with
          | [] => []
          | c :: s' => c :: replace_from fuel' re replacement (Some c) s'
          end
      end
  end%list.

(** Without flag [g] only the first match is replaced. *)
Fixpoint replace_first (re : RegExp) (replacement : list ascii)
         (prev : option ascii) (s : list ascii) : list ascii :=
  match match_here re prev s with
  | Some (_, rest) => replacement ++ rest
  | None =>
      match s with
      | [] => []
      | c :: s' => c :: replace_first re replacement (Some c) s'
      end
  end%list.

Definition replace (s : string) (re : RegExp) (replacement : string) : string :=
  let l := list_ascii_of_string s in
  let r := list_ascii_of_string replacement in
  string_of_list_ascii
    (if global re then replace_from (S (List.length l)) re r None l
     else replace_first re r None l).

(** *** Building patterns *)

Fixpoint lit (s : string) : Re :=
  match s with
  | EmptyString => Eps
  | String c EmptyString => Lit c
  | String c rest => Seq (Lit c) (lit rest)
  end.

Fixpoint cat (rs : list Re) : Re :=
  match rs with
  | [] => Eps
  | [r] => r
  | r :: rest => Seq r (cat rest)
  end.

Fixpoint alt (rs : list Re) : Re :=
  match rs with
  | [] => Eps
  | [r] => r
  | r :: rest => Alt r (alt rest)
  end.

Definition opt (r : Re) : Re := Rep r 0 (Some 1%nat).          (* r? *)
Definition exactly (n : nat) (r : Re) : Re := Rep r n (Some n). (* r{n} *)
Definition at_least (n : nat) (r : Re) : Re := Rep r n None.    (* r{n,} *)
Definition plus (r : Re) : Re := Rep r 1 None.                  (* r+ *)
Definition digit : Re := Class [CDigit].                        (* \d *)

End Regex.

(** ** rbac/policy-cache.ts: invalidation by pattern *)

Module PolicyCacheInvalidation.
Import PolicyCache.

(** [pattern.test(key)] on the pattern object the caller passes.  The call
    reads and writes the [lastIndex] of that object: [test i key] is the
    answer of the call when [lastIndex] (as [ToLength] reads it) is [i],
    together with the [lastIndex] the call leaves. *)
Definition PatternTest : Type := nat -> string -> bool * nat.

(** A pattern without flag [g] or [y]: [test] starts at index 0 whatever
    [lastIndex] is, and does not write it. *)
Definition stateless (test : string -> bool) : PatternTest :=
  fun lastIndex key => (test key, lastIndex).

(** The first match that starts at this position or later: the position
    where it ends. *)
Fixpoint search (re : Regex.RegExp) (prev : option ascii) (s : list ascii)
  : option Regex.Pos :=
  match Regex.match_here re prev s with
  | Some p => Some p
  | None =>
      match s with
      | [] => None
      | c :: s' => search re (Some c) s'
      end
  end.

(** [re.test(key)] for a pattern of the fragment of [Regex].  With flag [g]
    the search starts at [lastIndex]; a match sets [lastIndex] to the index
    where it ends, and no match, or a [lastIndex] beyond the end of the
    key, sets it to 0. *)
Definition regexp_test (re : Regex.RegExp) : PatternTest :=
  fun lastIndex key =>
    let l := list_ascii_of_string key in
    if Regex.global re then
      if (List.length l <? lastIndex)%nat then (false, 0%nat)
      else
        let prev :=
          match lastIndex with
          | O => None
          | S i => nth_error l i
          end in
        match search re prev (skipn lastIndex l) with
        | Some (_, rest) => (true, (List.length l - List.length rest)%nat)
        | None => (false, 0%nat)
        end
    else (Regex.test re key, lastIndex).

(** [invalidate(pattern)]; [lastIndex] is that of the pattern object when
    the call starts.  The loop visits the keys in the order of the map; the
    result is the count returned, the cache, and the [lastIndex] the
    pattern object is left with. *)
Definition invalidate (test : PatternTest) (lastIndex : nat) (c : t) : Z * t * nat :=
  let loop :=
    fold_left
      (fun (st : JsMap * Z * nat) kv =>
         let answer := test (snd st) (fst kv) in
         if fst answer
         then (map_delete (fst kv) (fst (fst st)), snd (fst st) + 1, snd answer)
         else (fst (fst st), snd (fst st), snd answer))
      (cache c) (cache c, 0, lastIndex) in
  (snd (fst loop),
   {| cache := fst (fst loop); ttlMs := ttlMs c; maxSize := maxSize c;
      hits := hits c; misses := misses c |},
   snd loop).

(** The characters that are syntax in the source of a pattern (["092"] is
    the backslash). *)
Definition syntax_chars : list ascii :=
  [ "092"; "^"; "$"; "."; "|"; "?"; "*"; "+"; "("; ")"; "["; "]"; "{"; "}" ]%char.

(** A text free of syntax characters: as the source of a pattern it stands
    for itself. *)
Definition is_literal (s : string) : bool :=
  forallb (fun c => negb (existsb (Ascii.eqb c) syntax_chars)) (list_ascii_of_string s).

(** [new RegExp(source).test(key)] for a literal [source]. *)
Definition test_literal (source key : string) : bool :=
  Regex.test (Regex.mkRegExp (Regex.lit source) false false) key.

(** [new RegExp('^' + source).test(key)] for a literal [source]: without
    flag [m] the assertion [^] holds at index 0 only, so a match can only
    start there. *)
Definition test_literal_at_start (source key : string) : bool :=
  match Regex.match_here (Regex.mkRegExp (Regex.lit source) false false) None
                         (list_ascii_of_string key) with
  | Some _ => true
  | None => false
  end.

(** [invalidateUser(userId)] builds [new RegExp(`^${userId}-`)], a new
    pattern object without flags; it is embedded for a [userId] free of
    syntax characters ([None] otherwise). *)
Definition invalidateUser (userId : string) (c : t) : option (Z * t) :=
  if is_literal userId
  then Some (fst (invalidate (stateless (test_literal_at_start (userId ++ "-"))) 0 c))
  else None.

(** [invalidateResource(resource)] builds [new RegExp(`-${resource}-`)]; it
    is embedded for a [resource] free of syntax characters. *)
Definition invalidateResource (resource : string) (c : t) : option (Z * t) :=
  if is_literal resource
  then Some (fst (invalidate (stateless (test_literal ("-" ++ resource ++ "-"))) 0 c))
  else None.

End PolicyCacheInvalidation.

(** ** audit/pii-redactor.ts *)

Module PIIRedactor.
Import Regex.

Record RedactionPattern : Type := mkPattern {
  name : string;
  regex : RegExp;
  replacement : string
}.

Definition g (r : Re) : RegExp := {| source := r; ignoreCase := false; global := true |}.
Definition gi (r : Re) : RegExp := {| source := r; ignoreCase := true; global := true |}.
Definition i (r : Re) : RegExp := {| source := r; ignoreCase := true; global := false |}.

(** [[-\s]] and [[-.\s]] *)
Definition dash_space : Re := Class [CChar "-"; CSpace].
Definition dash_dot_space : Re := Class [CChar "-"; CChar "."; CSpace].

(** [/\b(?:sk|pk|key|api|token)_[a-zA-Z0-9_]{16,}\b/gi] *)
Definition API_KEY_re : RegExp :=
  gi (cat [ WordB;
            alt [lit "sk"; lit "pk"; lit "key"; lit "api"; lit "token"];
            Lit "_";
            at_least 16 (Class [CRange "a" "z"; CRange "A" "Z"; CRange "0" "9"; CChar "_"]);
            WordB ]).

(** [/\b\d{3}-\d{2}-\d{4}\b/g] *)
Definition SSN_re : RegExp :=
  g (cat [ WordB; exactly 3 digit; Lit "-"; exactly 2 digit; Lit "-";
           exactly 4 digit; WordB ]).

(** [/\b\d{9}\b/g] *)
Definition SSN_NO_DASHES_re : RegExp :=
  g (cat [ WordB; exactly 9 digit; WordB ]).

(** [/\b(?:\d{4}[-\s]?){3}\d{4}\b/g] *)
Definition CREDIT_CARD_re : RegExp :=
  g (cat [ WordB;
           exactly 3 (Seq (exactly 4 digit) (opt dash_space));
           exactly 4 digit;
           WordB ]).

(** [/\b[A-Za-z0-9._%+-]+@[A-Za-z0-9.-]+\.[A-Z|a-z]{2,}\b/g] *)
Definition EMAIL_re : RegExp :=
  g (cat [ WordB;
           plus (Class [CRange "A" "Z"; CRange "a" "z"; CRange "0" "9";
                        CChar "."; CChar "_"; CChar "%"; CChar "+"; CChar "-"]);
           Lit "@";
           plus (Class [CRange "A" "Z"; CRange "a" "z"; CRange "0" "9";
                        CChar "."; CChar "-"]);
           Lit ".";
           at_least 2 (Class [CRange "A" "Z"; CChar "|"; CRange "a" "z"]);
           WordB ]).

(** [/(?:\+?1[-.\s]?)?\(?\d{3}\)?[-.\s]?\d{3}[-.\s]?\d{4}\b/g] *)
Definition PHONE_re : RegExp :=
  g (cat [ opt (cat [opt (Lit "+"); Lit "1"; opt dash_dot_space]);
           opt (Lit "(");
           exactly 3 digit;
           opt (Lit ")");
           opt dash_dot_space;
           exactly 3 digit;
           opt dash_dot_space;
           exactly 4 digit;
           WordB ]).

Definition DEFAULT_REDACTION_PATTERNS : list RedactionPattern :=
  [ {| name := "API_KEY"; regex := API_KEY_re; replacement := "[API_KEY_REDACTED]" |};
    {| name := "SSN"; regex := SSN_re; replacement := "***-**-****" |};
    {| name := "SSN_NO_DASHES"; regex := SSN_NO_DASHES_re; replacement := "*********" |};
    {| name := "CREDIT_CARD"; regex := CREDIT_CARD_re;
       replacement := "****-****-****-****" |};
    {| name := "EMAIL"; regex := EMAIL_re; replacement := "[EMAIL_REDACTED]" |};
    {| name := "PHONE"; regex := PHONE_re; replacement := "[PHONE_REDACTED]" |} ].

(** The redactor object: its only field is the mutable [patterns] array. *)
Record t : Type := mkRedactor { patterns : list RedactionPattern }.

(** [new PIIRedactor(customPatterns?)] *)
Definition new (customPatterns : option (list RedactionPattern)) : t :=
  {| patterns := match customPatterns with
                 | Some ps => ps
                 | None => DEFAULT_REDACTION_PATTERNS
                 end |}.

Definition defaultRedactor : t := new None.

Definition redactString (this : t) (value : string) : string :=
  fold_left (fun redacted pattern => replace redacted (regex pattern) (replacement pattern))
            (patterns this) value.

(** The patterns of [isSensitiveKey], in order:
    [/password/i], [/secret/i], [/token/i], [/api[_-]?key/i], [/auth/i],
    [/credential/i], [/private[_-]?key/i]. *)
Definition sensitivePatterns : list RegExp :=
  [ i (lit "password");
    i (lit "secret");
    i (lit "token");
    i (cat [lit "api"; opt (Class [CChar "_"; CChar "-"]); lit "key"]);
    i (lit "auth");
    i (lit "credential");
    i (cat [lit "private"; opt (Class [CChar "_"; CChar "-"]); lit "key"]) ].

Definition isSensitiveKey (key : string) : bool :=
  existsb (fun pattern => test pattern key) sensitivePatterns.

(** The values [redactObject] is applied to.  An object is the list of its
    own enumerable properties as [Object.entries] returns them. *)
Inductive JValue : Type :=
| JNull
| JUndefined
| JString (s : string)
| JNumber (x : spec_float)
| JBoolean (b : bool)
| JArray (items : list JValue)
| JObject (fields : list (string * JValue)).

(** [redacted[key] = v] on a plain object.  Assigning to ["__proto__"]
    runs the inherited setter and creates no property. *)
Fixpoint obj_set (key : string) (v : JValue) (fields : list (string * JValue))
  : list (string * JValue) :=
  match fields with
  | [] => [(key, v)]
  | (k, v') :: rest =>
      if String.eqb k key then (k, v) :: rest else (k, v') :: obj_set key v rest
  end.

Definition assign (fields : list (string * JValue)) (key : string) (v : JValue)
  : list (string * JValue) :=
  if String.eqb key "__proto__" then fields else obj_set key v fields.

Fixpoint redactObject (this : t) (obj : JValue) : JValue :=
  match obj with
  | JNull => JNull
  | JUndefined => JUndefined
  | JString s => JString (redactString this s)
  | JNumber x => JNumber x
  | JBoolean b => JBoolean b
  | JArray items => JArray (map (redactObject this) items)
  | JObject fields =>
      JObject
        (fold_left
           (fun redacted kv =>
              if isSensitiveKey (fst kv) then assign redacted (fst kv) (JString "[REDACTED]")
              else assign redacted (fst kv) (redactObject this (snd kv)))
           fields [])
  end.

(** [obj[key]] on a value returned by [redactObject]. *)
Fixpoint lookup (key : string) (fields : list (string * JValue)) : option JValue :=
  match fields with
  | [] => None
  | (k, v) :: rest => if String.eqb k key then Some v else lookup key rest
  end.

End PIIRedactor.

(** ** audit/audit-logger.ts *)

Module AuditLogger.
Import JS.

(** The fields of [AuditEvent] the logger reads or writes; [approval],
    [metadata] and [dataClassification] are carried along untouched and
    are not represented. *)
Record AuditEvent : Type := mkEvent {
  id : string;
  timestamp : Z;
  orgId : string;
  workspaceId : string;
  userId : option string;
  agentId : string;
  sessionId : string;
  action : string;
  tool : option string;
  parameters : option PIIRedactor.JValue;
  result : string;
  errorMessage : option string
}.

Record Config : Type := mkConfig {
  logDir : string;
  flushIntervalMs : Z;
  maxBufferSize : Z;
  redactor : PIIRedactor.t;
  enablePIIRedaction : bool
}.

(** The logger and the file system it writes to: [disk] lists, oldest
    first, the lines handed to the write stream together with the file
    they went to. *)
Record t : Type := mkLogger {
  config : Config;
  buffer : list AuditEvent;
  flushing : bool;
  currentLogFile : option string;
  disk : list (string * AuditEvent)
}.

(** What the file system does during one [flush]. *)
Inductive Io : Type :=
| IoOk                       (* every write and the fsync succeed *)
| WriteError (k : nat)       (* the write of [events[k]] rejects *)
| SyncError.                 (* the writes succeed, the fsync rejects *)

(** [path.join(logDir, `audit-${date}.jsonl`)], [date] being
    [new Date().toISOString().split('T')[0]]. *)
Definition getLogFilePath (date : string) (l : t) : string :=
  (logDir (config l) ++ "/audit-" ++ date ++ ".jsonl")%string.

(** [flush], on a logger whose write stream is usable (no earlier flush
    has failed on it).  While [flush] is suspended at an [await], calls of
    [log] may run and push the events [arrivals] onto the buffer; a [flush]
    they start returns at once, [flushing] being set. *)
Definition flush (io : Io) (date : string) (arrivals : list AuditEvent) (l : t)
  : JS.result unit * t :=
  if flushing l || (Z.of_nat (List.length (buffer l)) =? 0) then (Ok tt, l)
  else
    let events := buffer l in
    let logFile := getLogFilePath date l in
    let lines (es : list AuditEvent) := map (fun e => (logFile, e)) es in
    match io with
    | IoOk =>
        (Ok tt,
         {| config := config l; buffer := arrivals; flushing := false;
            currentLogFile := Some logFile;
            disk := (disk l ++ lines events)%list |})
    | WriteError k =>
        if (k <? List.length events)%nat then
          (Throw "write failed",
           {| config := config l; buffer := arrivals; flushing := false;
              currentLogFile := Some logFile;
              disk := (disk l ++ lines (firstn k events))%list |})
        else
          (Ok tt,
           {| config := config l; buffer := arrivals; flushing := false;
              currentLogFile := Some logFile;
              disk := (disk l ++ lines events)%list |})
    | SyncError =>
        (Throw "fsync failed",
         {| config := config l; buffer := arrivals; flushing := false;
            currentLogFile := Some logFile;
            disk := (disk l ++ lines events)%list |})
    end.

End AuditLogger.

(** ** audit/query-engine.ts *)

Module QueryEngine.
Import AuditLogger.

Record AuditQuery : Type := mkQuery {
  q_orgId : string;
  q_workspaceId : option string;
  q_userId : option string;
  q_agentId : option string;
  q_action : option string;
  q_startTime : option Z;
  q_endTime : option Z;
  q_result : option string;
  q_limit : option Z;
  q_offset : option Z
}.

(** [filter && field !== filter]: an absent or empty filter rejects
    nothing. *)
Definition rejects (filter : option string) (field : option string) : bool :=
  match filter with
  | Some f =>
      if String.eqb f "" then false
      else match field with
           | Some v => negb (String.eqb v f)
           | None => true
           end
  | None => false
  end.

Definition matchesQuery (event : AuditEvent) (query : AuditQuery) : bool :=
  if rejects (Some (q_orgId query)) (Some (orgId event)) then false
  else if rejects (q_workspaceId query) (Some (workspaceId event)) then false
  else if rejects (q_userId query) (userId event) then false
  else if rejects (q_agentId query) (Some (agentId event)) then false
  else if rejects (q_action query) (Some (action event)) then false
  else if rejects (q_result query) (Some (result event)) then false
  else if match q_startTime query with
          | Some t => timestamp event <? t
          | None => false
          end then false
  else if match q_endTime query with
          | Some t => timestamp event >? t
          | None => false
          end then false
  else true.

(** [n || d] on an optional number. *)
Definition or_num (n : option Z) (d : Z) : Z :=
  match n with
  | Some x => if x =? 0 then d else x
  | None => d
  end.

(** The state of the loops of [query]: still running, or left through
    [return events]. *)
Inductive Scan : Type :=
| Running (skipped collected : Z) (events : list AuditEvent)
| Returned (events : list AuditEvent).

(** The inner loop of [query] over the events of one file. *)
Fixpoint scanFile (query : AuditQuery) (limit offset : Z) (fileEvents : list AuditEvent)
         (skipped collected : Z) (events : list AuditEvent) : Scan :=
  match fileEvents with
  | [] => Running skipped collected events
  | event :: rest =>
      if matchesQuery event query then
        if skipped <? offset then
          scanFile query limit offset rest (skipped + 1) collected events
        else
          let events := (events ++ [event])%list in
          let collected := collected + 1 in
          if collected >=? limit then Returned events
          else scanFile query limit offset rest skipped collected events
      else scanFile query limit offset rest skipped collected events
  end.

(** The outer loop over the files. *)
Fixpoint scanFiles (query : AuditQuery) (limit offset : Z)
         (files : list (list AuditEvent))
         (skipped collected : Z) (events : list AuditEvent) : list AuditEvent :=
  match files with
  | [] => events
  | fileEvents :: rest =>
      match scanFile query limit offset fileEvents skipped collected events with
      | Returned events => events
      | Running skipped collected events =>
          scanFiles query limit offset rest skipped collected events
      end
  end.

(** [query].  [files] holds, in the order of [getLogFiles], what
    [readLogFile] returns for each file. *)
Definition query (files : list (list AuditEvent)) (q : AuditQuery) : list AuditEvent :=
  scanFiles q (or_num (q_limit q) 1000) (or_num (q_offset q) 0) files 0 0 [].

Definition count (files : list (list AuditEvent)) (q : AuditQuery) : Z :=
  fold_left
    (fun count fileEvents =>
       fold_left (fun count event => if matchesQuery event q then count + 1 else count)
                 fileEvents count)
    files 0.

End QueryEngine.

(** ** Predicates used in the statements *)

(** The invariant of [AccessDecision]. *)
Definition decision_ok (d : Rbac.AccessDecision) : Prop :=
  Rbac.granted d = false -> Rbac.decisionApprovalRequired d = false.

(** Every cached decision satisfies the invariant. *)
Definition cache_ok (m : PolicyCache.JsMap) : Prop :=
  Forall (fun kv => decision_ok (PolicyCache.value (snd kv))) m.

(** The context [context] with its [policies] replaced. *)
Definition with_policies (context : PermissionEngine.PermissionContext)
           (ps : option (list Rbac.PolicyRule)) : PermissionEngine.PermissionContext :=
  {| PermissionEngine.userId := PermissionEngine.userId context;
     PermissionEngine.orgId := PermissionEngine.orgId context;
     PermissionEngine.workspaceId := PermissionEngine.workspaceId context;
     PermissionEngine.userRoles := PermissionEngine.userRoles context;
     PermissionEngine.policies := ps |}.

(** Sequencing of two calls that may throw. *)
Definition and_then {A B : Type} (m : JS.result A) (f : A -> JS.result B) : JS.result B :=
  match m with
  | JS.Ok a => f a
  | JS.Throw msg => JS.Throw msg
  end.

(** The state of the request a call returned, if it returned one. *)
Definition state_of (m : JS.result ApprovalWorkflow.ApprovalRequest)
  : option ApprovalWorkflow.ApprovalState :=
  match m with
  | JS.Ok r => Some (ApprovalWorkflow.state r)
  | JS.Throw _ => None
  end.

(** [who] has an entry in the [approvals] of [r]. *)
Definition has_acted (r : ApprovalWorkflow.ApprovalRequest) (who : string) : Prop :=
  exists a, In a (ApprovalWorkflow.approvals r) /\ ApprovalWorkflow.approverId a = who.

(** A request just made by [create] for approvers [a], [b], [c], expiring
    [minutes] after [now]. *)
Definition fresh_request (kind : ApprovalWorkflow.ApprovalType) (a b c : string)
           (required : option Z) (minutes now : Z) : ApprovalWorkflow.ApprovalRequest :=
  ApprovalWorkflow.create "approval_1" now "user1" "org1" "tool" "execute" "ws1"
    {| ApprovalWorkflow.cfgType := kind;
       ApprovalWorkflow.cfgApprovers := [a; b; c];
       ApprovalWorkflow.expirationMinutes := minutes;
       ApprovalWorkflow.cfgRequiredApprovals := required;
       ApprovalWorkflow.alertRecipients := None |}
    (Some "ws1").

(** The keys of a [Map] are pairwise distinct. *)
Definition distinct_keys (m : PolicyCache.JsMap) : Prop := NoDup (map fst m).

(** Ascending order of expiry. *)
Definition by_expiry (a b : string * PolicyCache.CacheEntry) : Prop :=
  PolicyCache.expiresAt (snd a) <= PolicyCache.expiresAt (snd b).

(** A decision to put into the cache in examples. *)
Definition some_decision : Rbac.AccessDecision :=
  {| Rbac.granted := true; Rbac.decisionApprovalRequired := false;
     Rbac.reason := "Test"; Rbac.policyId := None |}.

(** An event and a logger for the examples. *)
Definition sample_event (n : string) : AuditLogger.AuditEvent :=
  {| AuditLogger.id := n; AuditLogger.timestamp := 0;
     AuditLogger.orgId := "org1"; AuditLogger.workspaceId := "ws1";
     AuditLogger.userId := Some "user1"; AuditLogger.agentId := "agent1";
     AuditLogger.sessionId := "session1"; AuditLogger.action := "tool_call";
     AuditLogger.tool := None; AuditLogger.parameters := None;
     AuditLogger.result := "success"; AuditLogger.errorMessage := None |}.

Definition sample_logger (events : list AuditLogger.AuditEvent) : AuditLogger.t :=
  {| AuditLogger.config :=
       {| AuditLogger.logDir := "/var/log/omnisage";
          AuditLogger.flushIntervalMs := 5000;
          AuditLogger.maxBufferSize := 100;
          AuditLogger.redactor := PIIRedactor.defaultRedactor;
          AuditLogger.enablePIIRedaction := true |};
     AuditLogger.buffer := events;
     AuditLogger.flushing := false;
     AuditLogger.currentLogFile := None;
     AuditLogger.disk := [] |}.

(** The values [redactObject] returns as they are. *)
Definition non_string_scalar (v : PIIRedactor.JValue) : Prop :=
  match v with
  | PIIRedactor.JNull | PIIRedactor.JUndefined
  | PIIRedactor.JNumber _ | PIIRedactor.JBoolean _ => True
  | _ => False
  end.

(** The body of the loop over [Object.entries(obj)] in [redactObject]. *)
Definition redact_field (this : PIIRedactor.t)
           (redacted : list (string * PIIRedactor.JValue))
           (kv : string * PIIRedactor.JValue) : list (string * PIIRedactor.JValue) :=
  if PIIRedactor.isSensitiveKey (fst kv)
  then PIIRedactor.assign redacted (fst kv) (PIIRedactor.JString "[REDACTED]")
  else PIIRedactor.assign redacted (fst kv) (PIIRedactor.redactObject this (snd kv)).

(** [/password/i] *)
Definition password_re : Regex.RegExp := PIIRedactor.i (Regex.lit "password").

(** Reading the text [s] at a position of the subject: the position after
    it, if the subject continues with [s]. *)
Fixpoint read_text (s : string) (prev : option ascii) (l : list ascii)
  : option Regex.Pos :=
  match s with
  | EmptyString => Some (prev, l)
  | String c s' =>
      match l with
      | x :: l' => if Ascii.eqb x c then read_text s' (Some x) l' else None
      | [] => None
      end
  end.

(** The actions [steps], each an approver with the time at which the action
    is processed, applied in turn with the verdict [v]. *)
Fixpoint act_all (v : ApprovalWorkflow.Verdict) (steps : list (string * Z))
         (r : ApprovalWorkflow.ApprovalRequest)
  : JS.result ApprovalWorkflow.ApprovalRequest :=
  match steps with
  | [] => JS.Ok r
  | (x, t) :: rest =>
      and_then (ApprovalWorkflow.processAction t t t r x v None) (act_all v rest)
  end.

(** The action that [processAction] records for an approval by [x] at
    time [t]. *)
Definition approval_of (x : string) (t : Z) : ApprovalWorkflow.ApprovalAction :=
  {| ApprovalWorkflow.approverId := x;
     ApprovalWorkflow.action := ApprovalWorkflow.approve;
     ApprovalWorkflow.timestamp := t;
     ApprovalWorkflow.comment := None |}.

(** An entry filed under a key that starts with ['-'] (the key of a caller
    without effective roles) holds a denial. *)
Definition roleless_denied (kv : string * PolicyCache.CacheEntry) : Prop :=
  String.prefix "-" (fst kv) = true
  -> Rbac.granted (PolicyCache.value (snd kv)) = false.

(** The events of the log files, in the order of the files and of their
    lines, that match the query. *)
Definition matching (q : QueryEngine.AuditQuery) (files : list (list AuditLogger.AuditEvent))
  : list AuditLogger.AuditEvent :=
  filter (fun e => QueryEngine.matchesQuery e q) (List.concat files).

(** What the loops of [query] are to return from the state [skipped],
    [collected], [events] when the matching events still to come are [ms]. *)
Definition page (limit offset skipped collected : Z)
           (events ms : list AuditLogger.AuditEvent) : list AuditLogger.AuditEvent :=
  (events ++ firstn (Z.to_nat (Z.max 1 limit - collected))
                    (skipn (Z.to_nat (offset - skipped)) ms))%list.

(** The property that [redactObject] writes for the entry [kv] of an
    object. *)
Definition redacted_entry (this : PIIRedactor.t) (kv : string * PIIRedactor.JValue)
  : string * PIIRedactor.JValue :=
  (fst kv,
   if PIIRedactor.isSensitiveKey (fst kv) then PIIRedactor.JString "[REDACTED]"
   else PIIRedactor.redactObject this (snd kv)).

(** The key is not ["__proto__"]. *)
Definition ordinary_key (kv : string * PIIRedactor.JValue) : bool :=
  negb (String.eqb (fst kv) "__proto__").

(** The answers of [pattern.test] on the keys in turn, each call starting
    from the [lastIndex] that the call before it left. *)
Fixpoint verdicts (test : PolicyCacheInvalidation.PatternTest) (lastIndex : nat)
         (keys : list string) : list bool :=
  match keys with
  | [] => []
  | key :: rest =>
      fst (test lastIndex key) :: verdicts test (snd (test lastIndex key)) rest
  end.

(** The entries of [m] whose answer in [answers] is [false], in their
    order. *)
Fixpoint unanswered (answers : list bool) (m : PolicyCache.JsMap) : PolicyCache.JsMap :=
  match answers, m with
  | true :: answers', _ :: m' => unanswered answers' m'
  | false :: answers', kv :: m' => kv :: unanswered answers' m'
  | _, _ => []
  end.

(** [s.includes(sub)] *)
Fixpoint contains (sub s : string) : bool :=
  String.prefix sub s
  || match s with
     | EmptyString => false
     | String _ s' => contains sub s'
     end.

(** * Properties *)

(** ** Role hierarchy *)

Section RoleHierarchyFacts.
Import RoleHierarchy.

Lemma Role_eqb_eq (a b : Role) : Role_eqb a b = true <-> a = b.
Proof. destruct a, b; simpl; split; congruence. Qed.

Lemma set_add_keeps (s : list Role) (r x : Role) :
  In x s -> In x (set_add s r).
Proof.
  unfold set_add. intros H.
  destruct (existsb (Role_eqb r) s); [assumption | apply in_or_app; now left].
Qed.

Lemma set_add_In (s : list Role) (r : Role) : In r (set_add s r).
Proof.
  unfold set_add.
  destruct (existsb (Role_eqb r) s) eqn:E.
  - apply existsb_exists in E. destruct E as [y [Hy Heq]].
    apply Role_eqb_eq in Heq. now subst.
  - apply in_or_app. right. now left.
Qed.

Lemma set_add_inv (s : list Role) (r x : Role) :
  In x (set_add s r) -> In x s \/ x = r.
Proof.
  unfold set_add.
  destruct (existsb (Role_eqb r) s); intros H.
  - now left.
  - apply in_app_or in H. destruct H as [H | [H | []]]; auto.
Qed.

Lemma set_add_all_keeps (rs s : list Role) (x : Role) :
  In x s -> In x (set_add_all s rs).
Proof.
  unfold set_add_all. revert s.
  induction rs as [| r rs IH]; intros s H; simpl; [assumption |].
  apply IH. now apply set_add_keeps.
Qed.

Lemma set_add_all_inv (rs s : list Role) (x : Role) :
  In x (set_add_all s rs) -> In x s \/ In x rs.
Proof.
  unfold set_add_all. revert s.
  induction rs as [| r rs IH]; intros s H; simpl in *; [now left |].
  apply IH in H. destruct H as [H | H]; [| now right; right].
  apply set_add_inv in H. destruct H as [H | H]; [now left | right; left; congruence].
Qed.

(** The workspace-scoped grants only ever add roles. *)
Lemma workspace_grants_keep (grants : list UserRole) (s : list Role) (x : Role) :
  In x s ->
  In x (fold_left (fun roles r => set_add_all roles (getImpliedRoles (ur_role r)))
                  grants s).
Proof.
  revert s. induction grants as [| g grants IH]; intros s H; simpl; [assumption |].
  apply IH. now apply set_add_all_keeps.
Qed.

(** The [reduce] of [getHighestRole] returns a role whose level is maximal. *)
Lemma fold_higher_max (l : list UserRole) (h : Role) :
  exists r,
    fold_left higher l (Some h) = Some r
    /\ getRoleLevel h <= getRoleLevel r
    /\ (forall g, In g l -> getRoleLevel (ur_role g) <= getRoleLevel r).
Proof.
  revert h. induction l as [| x l IH]; intros h; simpl.
  - exists h. repeat split; [lia | tauto].
  - destruct (getRoleLevel (ur_role x) >? getRoleLevel h) eqn:E.
    + destruct (IH (ur_role x)) as [r [Hr [Hle Hall]]].
      exists r. repeat split; [exact Hr | | ].
      * rewrite Z.gtb_ltb in E. apply Z.ltb_lt in E. lia.
      * intros g [<- | Hg]; [exact Hle | now apply Hall].
    + destruct (IH h) as [r [Hr [Hle Hall]]].
      exists r. repeat split; [exact Hr | exact Hle |].
      intros g [<- | Hg]; [| now apply Hall].
      rewrite Z.gtb_ltb in E. apply Z.ltb_ge in E. lia.
Qed.

(** With an [org:owner] grant that applies to the organisation, the highest
    role there is [org:owner] or, on a tie of levels, [ws:admin]. *)
Lemma highest_with_owner (userRoles : list UserRole) (orgId : string) (g : UserRole) :
  In g userRoles -> ur_role g = OrgOwner ->
  ur_scope g = orgId \/ ur_scope g = "*" ->
  getHighestRole userRoles orgId = Some OrgOwner
  \/ getHighestRole userRoles orgId = Some WsAdmin.
Proof.
  intros Hin Hrole Hscope. unfold getHighestRole.
  set (applicable := filter _ userRoles).
  assert (Hg : In g applicable).
  { apply filter_In. split; [exact Hin |].
    destruct Hscope as [-> | ->]; rewrite String.eqb_refl;
      [reflexivity | apply orb_true_r]. }
  destruct applicable as [| x rest]; [contradiction |].
  simpl fold_left.
  destruct (fold_higher_max rest (ur_role x)) as [r [Hr [Hle Hall]]].
  rewrite Hr.
  assert (H3 : 3 <= getRoleLevel r).
  { destruct Hg as [<- | Hg].
    - rewrite Hrole in Hle. exact Hle.
    - specialize (Hall g Hg). rewrite Hrole in Hall. exact Hall. }
  destruct r; vm_compute in H3; try (exfalso; apply H3; reflexivity); auto.
Qed.

End RoleHierarchyFacts.

(** C3.  The escalation fails for an [org:admin] whose grant comes after a
    workspace-family grant of the same level that applies at the
    organisation: [getHighestRole] compares levels across the two families
    and keeps the earlier of two equal ones.  With [ws:member] on ['*']
    followed by [org:admin] on [org1], the highest role at [org1] is
    [ws:member] and the effective roles are [ws:member] and [ws:viewer],
    without [ws:admin] and without any organisation role; the same two
    grants in the other order give [org:admin] and the three workspace
    roles.  The rest of the claim holds: any [org:owner] grant that applies
    to the organisation brings the three workspace roles, whatever else the
    user holds, and a user whose only grant is [org:member] has none of
    them. *)
Theorem org_admin_escalation_hidden :
  (let grants :=
     [ RoleHierarchy.mkUserRole "user1" RoleHierarchy.WsMember "*" 0 "owner";
       RoleHierarchy.mkUserRole "user1" RoleHierarchy.OrgAdmin "org1" 0 "owner" ] in
   RoleHierarchy.getHighestRole grants "org1" = Some RoleHierarchy.WsMember
   /\ RoleHierarchy.getEffectiveRoles grants "ws1" "org1"
      = [RoleHierarchy.WsMember; RoleHierarchy.WsViewer]
   /\ ~ In RoleHierarchy.WsAdmin (RoleHierarchy.getEffectiveRoles grants "ws1" "org1")
   /\ RoleHierarchy.getEffectiveRoles (rev grants) "ws1" "org1"
      = [RoleHierarchy.OrgAdmin; RoleHierarchy.OrgMember;
         RoleHierarchy.WsAdmin; RoleHierarchy.WsMember; RoleHierarchy.WsViewer])
  /\ (forall (userRoles : list RoleHierarchy.UserRole) (workspaceId orgId : string)
             (g : RoleHierarchy.UserRole),
         In g userRoles ->
         RoleHierarchy.ur_role g = RoleHierarchy.OrgOwner ->
         RoleHierarchy.ur_scope g = orgId \/ RoleHierarchy.ur_scope g = "*" ->
         In RoleHierarchy.WsAdmin
            (RoleHierarchy.getEffectiveRoles userRoles workspaceId orgId)
         /\ In RoleHierarchy.WsMember
               (RoleHierarchy.getEffectiveRoles userRoles workspaceId orgId)
         /\ In RoleHierarchy.WsViewer
               (RoleHierarchy.getEffectiveRoles userRoles workspaceId orgId))
  /\ (forall (workspaceId orgId : string) (g : RoleHierarchy.UserRole),
         RoleHierarchy.ur_role g = RoleHierarchy.OrgMember ->
         ~ In RoleHierarchy.WsAdmin (RoleHierarchy.getEffectiveRoles [g] workspaceId orgId)
         /\ ~ In RoleHierarchy.WsMember
               (RoleHierarchy.getEffectiveRoles [g] workspaceId orgId)
         /\ ~ In RoleHierarchy.WsViewer
               (RoleHierarchy.getEffectiveRoles [g] workspaceId orgId)).
Proof.
  split; [| split].
  - cbv zeta. repeat split.
    intros H. simpl in H. repeat (destruct H as [H | H]; [discriminate |]). exact H.
  - intros userRoles workspaceId orgId g Hin Hrole Hscope.
    unfold RoleHierarchy.getEffectiveRoles.
    destruct (highest_with_owner userRoles orgId g Hin Hrole Hscope) as [-> | ->];
      simpl; repeat split; apply workspace_grants_keep; simpl; tauto.
  - intros workspaceId orgId g Hrole. destruct g as [u r sc at_ by_].
    simpl in Hrole. subst r.
    unfold RoleHierarchy.getEffectiveRoles, RoleHierarchy.getHighestRole. simpl.
    destruct ((sc =? orgId)%string || (sc =? "*")%string);
      destruct (sc =? workspaceId)%string; simpl;
      repeat split; intros H; simpl in H;
      repeat (destruct H as [H | H]; [discriminate |]); exact H.
Qed.

(** C3, the parts that hold, at a concrete input: an owner of [org1] and a
    member of [org1], at the workspace [ws9]. *)
Lemma org_admin_escalation_hidden_witness :
  In RoleHierarchy.WsAdmin
     (RoleHierarchy.getEffectiveRoles
        [RoleHierarchy.mkUserRole "u1" RoleHierarchy.OrgOwner "org1" 0 "system"]
        "ws9" "org1")
  /\ ~ In RoleHierarchy.WsViewer
       (RoleHierarchy.getEffectiveRoles
          [RoleHierarchy.mkUserRole "u2" RoleHierarchy.OrgMember "org1" 0 "system"]
          "ws9" "org1").
Proof.
  split.
  - apply (proj1 (proj2 org_admin_escalation_hidden)
             [RoleHierarchy.mkUserRole "u1" RoleHierarchy.OrgOwner "org1" 0 "system"]
             "ws9" "org1"
             (RoleHierarchy.mkUserRole "u1" RoleHierarchy.OrgOwner "org1" 0 "system")).
    + now left.
    + reflexivity.
    + now left.
  - apply (proj2 (proj2 org_admin_escalation_hidden) "ws9" "org1"
             (RoleHierarchy.mkUserRole "u2" RoleHierarchy.OrgMember "org1" 0 "system")
             eq_refl).
Defined.

(** ** Permission engine *)

Section PermissionEngineFacts.
Import Rbac PermissionEngine.

Lemma map_get_ok (key : string) (m : PolicyCache.JsMap) (e : PolicyCache.CacheEntry) :
  cache_ok m -> PolicyCache.map_get key m = Some e -> decision_ok (PolicyCache.value e).
Proof.
  induction m as [| [k e'] m IH]; simpl; intros Hok Hget; [discriminate |].
  inversion Hok as [| ? ? Hhd Htl]; subst.
  destruct (k =? key)%string.
  - injection Hget as <-. exact Hhd.
  - now apply IH.
Qed.

Lemma map_delete_ok (key : string) (m : PolicyCache.JsMap) :
  cache_ok m -> cache_ok (PolicyCache.map_delete key m).
Proof.
  unfold cache_ok, PolicyCache.map_delete. intros Hok.
  apply Forall_forall. intros x Hx. apply filter_In in Hx.
  destruct Hx as [Hx _]. revert x Hx. now apply Forall_forall.
Qed.

Lemma map_set_ok (key : string) (e : PolicyCache.CacheEntry) (m : PolicyCache.JsMap) :
  decision_ok (PolicyCache.value e) -> cache_ok m -> cache_ok (PolicyCache.map_set key e m).
Proof.
  intros He. induction m as [| [k e'] m IH]; simpl; intros Hok.
  - constructor; [exact He | constructor].
  - inversion Hok as [| ? ? Hhd Htl]; subst.
    destruct (k =? key)%string; constructor; simpl; auto; now apply IH.
Qed.

Lemma evict_fold_ok (doomed m : PolicyCache.JsMap) :
  cache_ok m ->
  cache_ok (fold_left (fun m kv => PolicyCache.map_delete (fst kv) m) doomed m).
Proof.
  revert m. induction doomed as [| d doomed IH]; simpl; intros m Hok; [assumption |].
  apply IH. now apply map_delete_ok.
Qed.

Lemma cache_set_ok (now : Z) (key : string) (d : AccessDecision) (c : PolicyCache.t) :
  decision_ok d -> cache_ok (PolicyCache.cache c) ->
  cache_ok (PolicyCache.cache (PolicyCache.set now key d c)).
Proof.
  intros Hd Hok. unfold PolicyCache.set. simpl.
  apply map_set_ok; [exact Hd |].
  destruct (PolicyCache.size c >=? PolicyCache.maxSize c); [| assumption].
  unfold PolicyCache.evictOldest. simpl. now apply evict_fold_ok.
Qed.

Lemma cache_get_ok (now : Z) (key : string) (c : PolicyCache.t) :
  cache_ok (PolicyCache.cache c) ->
  cache_ok (PolicyCache.cache (snd (PolicyCache.get now key c)))
  /\ (forall d, fst (PolicyCache.get now key c) = Some d -> decision_ok d).
Proof.
  intros Hok. unfold PolicyCache.get.
  destruct (PolicyCache.map_get key (PolicyCache.cache c)) as [entry |] eqn:E; simpl.
  - destruct (now >? PolicyCache.expiresAt entry); simpl; split.
    + now apply map_delete_ok.
    + discriminate.
    + assumption.
    + intros d Hd. injection Hd as <-. eapply map_get_ok; eassumption.
  - split; [assumption | discriminate].
Qed.

Lemma scanPolicies_granted (policies : list PolicyRule) (userRoles : list RoleHierarchy.Role)
      (resource action scope : string) (d : AccessDecision) :
  scanPolicies policies userRoles resource action scope = Some d -> granted d = true.
Proof.
  induction policies as [| p ps IH]; simpl; [discriminate |].
  destruct (negb _); [exact IH |].
  destruct (existsb _ _); [| exact IH].
  intros H. injection H as <-. reflexivity.
Qed.

(** A grant of the default tables whose scope is ['workspace'] matches or
    not regardless of the scope that is asked for. *)
Lemma workspace_scope_matches_any (resource action s1 s2 : string) (p : Permission) :
  Rbac.scope p = "workspace" ->
  defaultPermMatches resource action s1 p = defaultPermMatches resource action s2 p.
Proof.
  intros H. unfold defaultPermMatches. rewrite H. simpl.
  now rewrite !orb_true_r.
Qed.

Lemma checkPolicies_ok (nowGet nowSet : Z) (e : Engine) (policies : list PolicyRule)
      (userRoles : list RoleHierarchy.Role) (resource action scope : string) :
  cache_ok (PolicyCache.cache (policyCache e)) ->
  decision_ok (fst (checkPolicies nowGet nowSet e policies userRoles resource action scope))
  /\ cache_ok (PolicyCache.cache (policyCache
       (snd (checkPolicies nowGet nowSet e policies userRoles resource action scope)))).
Proof.
  intros Hok. unfold checkPolicies.
  set (key := (JS.join "," (map RoleHierarchy.role_str userRoles) ++ "-" ++ resource
               ++ "-" ++ action ++ "-" ++ scope)%string).
  destruct (cache_get_ok nowGet key (policyCache e) Hok) as [Hc Hd].
  destruct (PolicyCache.get nowGet key (policyCache e)) as [[cached |] c]; simpl in *.
  - split; [now apply Hd | assumption].
  - destruct (scanPolicies policies userRoles resource action scope) as [d |] eqn:Es; simpl.
    + assert (Hg : decision_ok d).
      { intros Hf. apply scanPolicies_granted in Es. congruence. }
      split; [exact Hg | now apply cache_set_ok].
    + split; [intros _; reflexivity |].
      apply cache_set_ok; [intros _; reflexivity | assumption].
Qed.

Lemma checkPermission_ok (nowGet nowSet : Z) (e : Engine) (context : PermissionContext)
      (resource action : string) (targetScope : option string) :
  cache_ok (PolicyCache.cache (policyCache e)) ->
  decision_ok (fst (checkPermission nowGet nowSet e context resource action targetScope))
  /\ cache_ok (PolicyCache.cache (policyCache
       (snd (checkPermission nowGet nowSet e context resource action targetScope)))).
Proof.
  intros Hok. unfold checkPermission.
  destruct (checkDefaultPermissions _ _ _ _); simpl.
  - split; [intros H; discriminate | assumption].
  - destruct (policies context) as [[| p ps] |]; simpl.
    + split; [intros _; reflexivity | assumption].
    + now apply checkPolicies_ok.
    + split; [intros _; reflexivity | assumption].
Qed.

Lemma run_ok (calls : list Call) (e : Engine) :
  cache_ok (PolicyCache.cache (policyCache e)) ->
  Forall decision_ok (fst (run calls e)).
Proof.
  revert e. induction calls as [| c calls IH]; intros e Hok; simpl; [constructor |].
  destruct c as [nowGet nowSet context resource action targetScope |].
  - destruct (checkPermission_ok nowGet nowSet e context resource action targetScope Hok)
      as [Hd Hc].
    destruct (checkPermission nowGet nowSet e context resource action targetScope)
      as [d e'].
    specialize (IH e' Hc). destruct (run calls e') as [ds e'']. simpl in *.
    constructor; assumption.
  - apply IH. simpl. constructor.
Qed.

End PermissionEngineFacts.

(** C1.  If the default grant table matches the caller's effective roles for
    the resource, the action and the scope of the request, [checkPermission]
    answers [granted = true], [approvalRequired = false] whatever custom
    policies the context carries and whatever the cache holds: policies only
    add grants. *)
Theorem default_grant_beats_policies :
  forall (nowGet nowSet : Z) (e : PermissionEngine.Engine)
         (context : PermissionEngine.PermissionContext)
         (resource action : string) (targetScope : option string)
         (ps : option (list Rbac.PolicyRule)),
    PermissionEngine.checkDefaultPermissions
      (RoleHierarchy.getEffectiveRoles
         (PermissionEngine.userRoles context)
         (JS.or_str (PermissionEngine.workspaceId context) "")
         (PermissionEngine.orgId context))
      resource action
      (JS.or_str targetScope
                 (JS.or_str (PermissionEngine.workspaceId context)
                            (PermissionEngine.orgId context))) = true ->
    let d := fst (PermissionEngine.checkPermission nowGet nowSet e
                    (with_policies context ps) resource action targetScope) in
    Rbac.granted d = true /\ Rbac.decisionApprovalRequired d = false.
Proof.
  intros nowGet nowSet e context resource action targetScope ps Hdef.
  unfold PermissionEngine.checkPermission, with_policies. simpl.
  rewrite Hdef. simpl. split; reflexivity.
Qed.

(** C1, at a concrete input: a workspace admin asks to read an agent while
    the context carries a policy that would demand approval. *)
Lemma default_grant_beats_policies_witness :
  let context :=
    {| PermissionEngine.userId := "user1";
       PermissionEngine.orgId := "org1";
       PermissionEngine.workspaceId := Some "ws1";
       PermissionEngine.userRoles :=
         [RoleHierarchy.mkUserRole "user1" RoleHierarchy.WsAdmin "ws1" 0 "owner"];
       PermissionEngine.policies := None |} in
  let ps :=
    Some [ {| Rbac.id := "p1"; Rbac.name := "gate"; Rbac.description := "";
              Rbac.roles := ["ws:admin"];
              Rbac.permissions := [PermissionEngine.perm "agent" "read" "ws1"];
              Rbac.approvalRequired := true;
              Rbac.alertRecipients := None |} ] in
  let d := fst (PermissionEngine.checkPermission 5 6 (PermissionEngine.new None)
                  (with_policies context ps) "agent" "read" (Some "ws1")) in
  Rbac.granted d = true /\ Rbac.decisionApprovalRequired d = false.
Proof.
  intros context ps.
  apply (default_grant_beats_policies 5 6 (PermissionEngine.new None) context
                                     "agent" "read" (Some "ws1") ps).
  reflexivity.
Defined.

(** C2 (what the code does): a user whose only role is [ws:admin] in [ws1],
    in a context whose current workspace is [ws1], asks for [agent]/[read]
    on the other workspace [ws2] and is granted it by the default table:
    the test [perm.scope === 'workspace'] holds for every scope asked for. *)
Theorem workspace_grant_matches_foreign_scope :
  let context :=
    {| PermissionEngine.userId := "user1";
       PermissionEngine.orgId := "org1";
       PermissionEngine.workspaceId := Some "ws1";
       PermissionEngine.userRoles :=
         [RoleHierarchy.mkUserRole "user1" RoleHierarchy.WsAdmin "ws1" 0 "owner"];
       PermissionEngine.policies := None |} in
  fst (PermissionEngine.checkPermission 5 6 (PermissionEngine.new None)
         context "agent" "read" (Some "ws2"))
  = {| Rbac.granted := true;
       Rbac.decisionApprovalRequired := false;
       Rbac.reason := "Granted by role permissions";
       Rbac.policyId := None |}.
Proof. reflexivity. Qed.

(** C4.  Starting from a fresh engine, every decision returned by any
    sequence of [checkPermission] and [clearCache] calls (default grant,
    policy scan, cache hit or default denial) satisfies
    [granted = false -> approvalRequired = false]. *)
Theorem denied_never_requires_approval :
  forall (cacheTtlMs : option Z) (calls : list PermissionEngine.Call),
    Forall (fun d => Rbac.granted d = false -> Rbac.decisionApprovalRequired d = false)
           (fst (PermissionEngine.run calls (PermissionEngine.new cacheTtlMs))).
Proof.
  intros cacheTtlMs calls.
  apply (run_ok calls (PermissionEngine.new cacheTtlMs)).
  simpl. constructor.
Qed.

(** ** Approval workflow *)

Section ApprovalWorkflowFacts.
Import ApprovalWorkflow.

Lemma not_past_due (now deadline : Z) : now <= deadline -> (now >? deadline) = false.
Proof. intros H. rewrite Z.gtb_ltb. apply Z.ltb_ge. exact H. Qed.

Lemma past_due (now deadline : Z) : now > deadline -> (now >? deadline) = true.
Proof. intros H. rewrite Z.gtb_ltb. apply Z.ltb_lt. lia. Qed.

Lemma includes_In (l : list string) (x : string) : In x l -> JS.includes l x = true.
Proof.
  intros H. unfold JS.includes. apply existsb_exists.
  exists x. split; [exact H | apply String.eqb_refl].
Qed.

Lemma eqb_neq_sym (x y : string) : x <> y -> (x =? y)%string = false.
Proof. intros H. now apply String.eqb_neq. Qed.

Lemma not_acted_existsb (l : list ApprovalAction) (who : string) :
  (forall a, In a l -> approverId a <> who) ->
  existsb (fun a => (approverId a =? who)%string) l = false.
Proof.
  intros H. destruct (existsb _ l) eqn:E; [| reflexivity].
  apply existsb_exists in E. destruct E as [a [Ha Heq]].
  apply String.eqb_eq in Heq. now destruct (H a Ha).
Qed.

(** Two actions in a row on a fresh three-approver majority request. *)
Lemma majority_two_actions (r : ApprovalRequest) (x y : string) (vx vy : Verdict)
      (n1 s1 d1 n2 s2 d2 : Z) (c1 c2 : option string) :
  type r = majority -> List.length (approvers r) = 3%nat -> requiredApprovals r = 2 ->
  state r = pending -> approvals r = [] ->
  In x (approvers r) -> In y (approvers r) -> x <> y ->
  n1 <= expiresAt r -> n2 <= expiresAt r ->
  state_of (and_then (processAction n1 s1 d1 r x vx c1)
                     (fun r1 => processAction n2 s2 d2 r1 y vy c2))
  = Some match vx, vy with
         | approve, approve => approved
         | deny, deny => denied
         | _, _ => pending
         end.
Proof.
  intros Hty Hlen Hreq Hst Happ Hx Hy Hxy Hn1 Hn2.
  destruct r as [i u o w res ra sc ty aps req st cr ex apl rs al co].
  simpl in *. subst ty req st apl.
  unfold processAction at 1. simpl.
  rewrite (not_past_due _ _ Hn1), (includes_In _ _ Hx). simpl.
  unfold updateState. simpl. rewrite Hlen.
  destruct vx; simpl; unfold processAction; simpl;
    rewrite (not_past_due _ _ Hn2), (includes_In _ _ Hy); simpl;
    rewrite (eqb_neq_sym _ _ Hxy); simpl;
    unfold updateState; simpl; rewrite Hlen;
    destruct vy; reflexivity.
Qed.

(** In a sequential request the first approver has not acted, so the first
    approval on record after another approver's approval is out of turn. *)
Lemma sequential_out_of_turn (r : ApprovalRequest) (a0 a1 : string)
      (now stamp done : Z) (note : option string) :
  type r = sequential -> state r = pending ->
  nth_error (approvers r) 0 = Some a0 -> nth_error (approvers r) 1 = Some a1 ->
  a1 <> a0 -> ~ has_acted r a0 -> ~ has_acted r a1 -> now <= expiresAt r ->
  state_of (processAction now stamp done r a1 approve note) = Some denied.
Proof.
  intros Hty Hst H0 H1 Hne Hno0 Hno1 Hnow.
  unfold processAction. rewrite Hst, (not_past_due _ _ Hnow).
  rewrite (includes_In _ _ (nth_error_In _ _ H1)). simpl.
  rewrite not_acted_existsb.
  2:{ intros a Ha Heq. apply Hno1. now exists a. }
  set (new := {| approverId := a1; action := approve; timestamp := stamp; comment := note |}).
  unfold updateState. simpl. rewrite Hty.
  assert (Hfirst : exists h t,
             filter (fun a => Verdict_eqb (action a) approve) (approvals r ++ [new])
             = h :: t /\ approverId h <> a0).
  { rewrite filter_app. simpl.
    destruct (filter (fun a => Verdict_eqb (action a) approve) (approvals r))
      as [| h t] eqn:E.
    - exists new, []. split; [reflexivity | exact Hne].
    - exists h, (t ++ [new])%list. split; [reflexivity |].
      assert (Hin : In h (approvals r)).
      { eapply proj1. apply filter_In. rewrite E. now left. }
      intros Heq. apply Hno0. now exists h. }
  destruct Hfirst as [h [t [Hl Hh]]]. rewrite Hl.
  assert (Hout : outOfOrder (h :: t) (approvers r) = true).
  { unfold outOfOrder.
    destruct (approvers r) as [| p ps]; [discriminate H0 |].
    injection H0 as ->. simpl.
    rewrite (eqb_neq_sym _ _ Hh). reflexivity. }
  rewrite Hout.
  destruct (Z.of_nat _ >=? 1); reflexivity.
Qed.

End ApprovalWorkflowFacts.

(** C5.  On a pending, unexpired request of type [majority] with three
    approvers, [requiredApprovals = 2] and no action yet, two approvals by
    two different approvers end in [approved], two denials in [denied], one
    approval and one denial (in either order) leave it [pending].  On a
    pending, unexpired request of type [sequential], an approval by
    [approvers[1]] while [approvers[0]] has not acted ends in [denied]. *)
Theorem approval_consensus_outcomes :
  (forall (r : ApprovalWorkflow.ApprovalRequest) (x y : string)
          (n1 s1 d1 n2 s2 d2 : Z) (c1 c2 : option string),
      ApprovalWorkflow.type r = ApprovalWorkflow.majority ->
      List.length (ApprovalWorkflow.approvers r) = 3%nat ->
      ApprovalWorkflow.requiredApprovals r = 2 ->
      ApprovalWorkflow.state r = ApprovalWorkflow.pending ->
      ApprovalWorkflow.approvals r = [] ->
      In x (ApprovalWorkflow.approvers r) -> In y (ApprovalWorkflow.approvers r) ->
      x <> y ->
      n1 <= ApprovalWorkflow.expiresAt r -> n2 <= ApprovalWorkflow.expiresAt r ->
      let two (vx vy : ApprovalWorkflow.Verdict) :=
        state_of
          (and_then (ApprovalWorkflow.processAction n1 s1 d1 r x vx c1)
                    (fun r1 => ApprovalWorkflow.processAction n2 s2 d2 r1 y vy c2)) in
      two ApprovalWorkflow.approve ApprovalWorkflow.approve = Some ApprovalWorkflow.approved
      /\ two ApprovalWorkflow.deny ApprovalWorkflow.deny = Some ApprovalWorkflow.denied
      /\ two ApprovalWorkflow.approve ApprovalWorkflow.deny = Some ApprovalWorkflow.pending
      /\ two ApprovalWorkflow.deny ApprovalWorkflow.approve = Some ApprovalWorkflow.pending)
  /\
  (forall (r : ApprovalWorkflow.ApprovalRequest) (a0 a1 : string)
          (now stamp done : Z) (note : option string),
      ApprovalWorkflow.type r = ApprovalWorkflow.sequential ->
      ApprovalWorkflow.state r = ApprovalWorkflow.pending ->
      nth_error (ApprovalWorkflow.approvers r) 0 = Some a0 ->
      nth_error (ApprovalWorkflow.approvers r) 1 = Some a1 ->
      a1 <> a0 ->
      ~ has_acted r a0 -> ~ has_acted r a1 ->
      now <= ApprovalWorkflow.expiresAt r ->
      state_of (ApprovalWorkflow.processAction now stamp done r a1
                  ApprovalWorkflow.approve note)
      = Some ApprovalWorkflow.denied).
Proof.
  split.
  - intros r x y n1 s1 d1 n2 s2 d2 c1 c2 Hty Hlen Hreq Hst Happ Hx Hy Hxy Hn1 Hn2 two.
    unfold two.
    repeat split;
      now rewrite (majority_two_actions r x y _ _ n1 s1 d1 n2 s2 d2 c1 c2).
  - intros. now apply sequential_out_of_turn with (a0 := a0).
Qed.

(** C5, on requests made by [create] for alice, bob and carol. *)
Lemma approval_consensus_outcomes_witness :
  state_of
    (and_then
       (ApprovalWorkflow.processAction 10 10 10
          (fresh_request ApprovalWorkflow.majority "alice" "bob" "carol" (Some 2) 60 0)
          "alice" ApprovalWorkflow.deny None)
       (fun r1 => ApprovalWorkflow.processAction 20 20 20 r1 "carol"
                    ApprovalWorkflow.deny None))
  = Some ApprovalWorkflow.denied
  /\ state_of
       (ApprovalWorkflow.processAction 10 10 10
          (fresh_request ApprovalWorkflow.sequential "alice" "bob" "carol" None 60 0)
          "bob" ApprovalWorkflow.approve None)
     = Some ApprovalWorkflow.denied.
Proof.
  split.
  - apply (proj1 approval_consensus_outcomes
             (fresh_request ApprovalWorkflow.majority "alice" "bob" "carol" (Some 2) 60 0)
             "alice" "carol" 10 10 10 20 20 20 None None);
      try reflexivity; simpl; try lia; try tauto; discriminate.
  - apply (proj2 approval_consensus_outcomes
             (fresh_request ApprovalWorkflow.sequential "alice" "bob" "carol" None 60 0)
             "alice" "bob" 10 10 10 None);
      try reflexivity; simpl; try lia; try discriminate;
      intros [a [[] _]].
Defined.

(** C6 fails as stated: [cancel] does not look at [expiresAt].  A request
    made with [expirationMinutes = -1] is pending and past due, and [cancel]
    moves it to [cancelled]. *)
Lemma past_due_request_cancelled :
  let r := fresh_request ApprovalWorkflow.single "alice" "bob" "carol" None (-1) 0 in
  ApprovalWorkflow.state r = ApprovalWorkflow.pending
  /\ 1 > ApprovalWorkflow.expiresAt r
  /\ state_of (ApprovalWorkflow.cancel 1 r) = Some ApprovalWorkflow.cancelled.
Proof. repeat split. Qed.

(** C6, amended.  For a pending request whose [expiresAt] is in the past,
    [checkExpiration] and [processAction] (for every approver and verdict)
    return it in state [expired], so neither moves it to [approved],
    [denied] or [cancelled]; a request in state [expired] is left as it is
    by [checkExpiration] and refused by [processAction] and [cancel]. *)
Theorem past_due_request_expires :
  forall (r : ApprovalWorkflow.ApprovalRequest) (now : Z),
    ApprovalWorkflow.state r = ApprovalWorkflow.pending ->
    now > ApprovalWorkflow.expiresAt r ->
    (forall done,
        ApprovalWorkflow.state (ApprovalWorkflow.checkExpiration now done r)
        = ApprovalWorkflow.expired)
    /\ (forall stamp done approver act note,
           state_of (ApprovalWorkflow.processAction now stamp done r approver act note)
           = Some ApprovalWorkflow.expired)
    /\ (forall (r' : ApprovalWorkflow.ApprovalRequest) (later stamp done : Z)
               approver act note,
           ApprovalWorkflow.state r' = ApprovalWorkflow.expired ->
           ApprovalWorkflow.checkExpiration later done r' = r'
           /\ state_of (ApprovalWorkflow.processAction later stamp done r' approver act note)
              = None
           /\ state_of (ApprovalWorkflow.cancel later r') = None).
Proof.
  intros r now Hst Hpast. repeat split.
  - intros done. unfold ApprovalWorkflow.checkExpiration.
    rewrite Hst, (past_due _ _ Hpast). reflexivity.
  - intros. unfold ApprovalWorkflow.processAction.
    rewrite Hst, (past_due _ _ Hpast). reflexivity.
  - unfold ApprovalWorkflow.checkExpiration. now rewrite H.
  - unfold ApprovalWorkflow.processAction. now rewrite H.
  - unfold ApprovalWorkflow.cancel. now rewrite H.
Qed.

(** C6 amended, on the request made with [expirationMinutes = -1]. *)
Lemma past_due_request_expires_witness :
  let r := fresh_request ApprovalWorkflow.single "alice" "bob" "carol" None (-1) 0 in
  ApprovalWorkflow.state (ApprovalWorkflow.checkExpiration 1 1 r)
  = ApprovalWorkflow.expired
  /\ state_of (ApprovalWorkflow.processAction 1 1 1 r "alice" ApprovalWorkflow.approve None)
     = Some ApprovalWorkflow.expired.
Proof.
  intros r.
  assert (Hst : ApprovalWorkflow.state r = ApprovalWorkflow.pending) by reflexivity.
  assert (Hpast : 1 > ApprovalWorkflow.expiresAt r) by reflexivity.
  split.
  - apply (proj1 (past_due_request_expires r 1 Hst Hpast)).
  - apply (proj1 (proj2 (past_due_request_expires r 1 Hst Hpast))).
Defined.

(** C10.  In [processAction] the expiry check comes before the
    authorisation and duplicate checks: on a pending request whose
    [expiresAt] is in the past, the call returns (it does not throw) the
    request in state [expired] with its [approvals] unchanged, for every
    [approverId] whatsoever. *)
Theorem expiry_precedes_authorization :
  forall (r : ApprovalWorkflow.ApprovalRequest) (now stamp done : Z)
         (approver : string) (act : ApprovalWorkflow.Verdict) (note : option string),
    ApprovalWorkflow.state r = ApprovalWorkflow.pending ->
    now > ApprovalWorkflow.expiresAt r ->
    exists r',
      ApprovalWorkflow.processAction now stamp done r approver act note = JS.Ok r'
      /\ ApprovalWorkflow.state r' = ApprovalWorkflow.expired
      /\ ApprovalWorkflow.approvals r' = ApprovalWorkflow.approvals r.
Proof.
  intros r now stamp done approver act note Hst Hpast.
  exists (ApprovalWorkflow.with_state r ApprovalWorkflow.expired).
  unfold ApprovalWorkflow.processAction.
  rewrite Hst, (past_due _ _ Hpast). repeat split.
Qed.

(** C10, on a past-due request on which alice has acted: for mallory, who is
    no approver, and for alice again. *)
Lemma expiry_precedes_authorization_witness :
  let r :=
    ApprovalWorkflow.with_approvals
      (fresh_request ApprovalWorkflow.majority "alice" "bob" "carol" (Some 2) 1 0)
      [ {| ApprovalWorkflow.approverId := "alice";
           ApprovalWorkflow.action := ApprovalWorkflow.approve;
           ApprovalWorkflow.timestamp := 5;
           ApprovalWorkflow.comment := None |} ] in
  (exists r',
      ApprovalWorkflow.processAction 60001 60001 60001 r "mallory"
        ApprovalWorkflow.approve None = JS.Ok r'
      /\ ApprovalWorkflow.state r' = ApprovalWorkflow.expired
      /\ ApprovalWorkflow.approvals r' = ApprovalWorkflow.approvals r)
  /\ (exists r',
         ApprovalWorkflow.processAction 60001 60001 60001 r "alice"
           ApprovalWorkflow.deny None = JS.Ok r'
         /\ ApprovalWorkflow.state r' = ApprovalWorkflow.expired
         /\ ApprovalWorkflow.approvals r' = ApprovalWorkflow.approvals r).
Proof.
  intros r. split.
  - apply (expiry_precedes_authorization r 60001 60001 60001 "mallory"
             ApprovalWorkflow.approve None); reflexivity.
  - apply (expiry_precedes_authorization r 60001 60001 60001 "alice"
             ApprovalWorkflow.deny None); reflexivity.
Defined.

(** ** Policy cache *)

Section PolicyCacheFacts.
Import PolicyCache.

(** *** The eviction count is positive *)

Lemma digits2_pos_lower (m : positive) : 2 ^ (Zpos (digits2_pos m) - 1) <= Zpos m.
Proof.
  induction m as [m IH | m IH |]; simpl digits2_pos.
  - rewrite Pos2Z.inj_succ.
    replace (Z.succ (Zpos (digits2_pos m)) - 1) with (Z.succ (Zpos (digits2_pos m) - 1)) by lia.
    rewrite Z.pow_succ_r by lia. lia.
  - rewrite Pos2Z.inj_succ.
    replace (Z.succ (Zpos (digits2_pos m)) - 1) with (Z.succ (Zpos (digits2_pos m) - 1)) by lia.
    rewrite Z.pow_succ_r by lia. lia.
  - simpl. lia.
Qed.

Lemma shr_1_m (mrs : shr_record) : 0 <= shr_m mrs -> shr_m (shr_1 mrs) = shr_m mrs / 2.
Proof.
  destruct mrs as [m r s]. simpl. intros Hm.
  destruct m as [| p | p]; [reflexivity | | lia].
  destruct p as [p | p |]; simpl.
  - rewrite Pos2Z.inj_xI. apply Z.div_unique with (r := 1); lia.
  - rewrite Pos2Z.inj_xO. apply Z.div_unique with (r := 0); lia.
  - reflexivity.
Qed.

Lemma iter_shr_1_m (p : positive) :
  forall mrs, 0 <= shr_m mrs ->
              shr_m (iter_pos shr_1 p mrs) = shr_m mrs / 2 ^ Zpos p.
Proof.
  induction p as [p IH | p IH |]; intros mrs Hm; simpl iter_pos.
  - assert (H1 : 0 <= shr_m (shr_1 mrs)) by (rewrite shr_1_m by lia; apply Z.div_pos; lia).
    assert (H2 : 0 <= shr_m (iter_pos shr_1 p (shr_1 mrs)))
      by (rewrite IH by lia; apply Z.div_pos; [lia | apply Z.pow_pos_nonneg; lia]).
    rewrite IH by lia. rewrite IH by lia. rewrite shr_1_m by lia.
    assert (Hp : 0 < 2 ^ Zpos p) by (apply Z.pow_pos_nonneg; lia).
    rewrite !Z.div_div by lia.
    f_equal.
    replace (Zpos p~1) with (1 + Zpos p + Zpos p) by lia.
    rewrite !Z.pow_add_r by lia. change (2 ^ 1) with 2. ring.
  - assert (H2 : 0 <= shr_m (iter_pos shr_1 p mrs))
      by (rewrite IH by lia; apply Z.div_pos; [lia | apply Z.pow_pos_nonneg; lia]).
    rewrite IH by lia. rewrite IH by lia.
    assert (Hp : 0 < 2 ^ Zpos p) by (apply Z.pow_pos_nonneg; lia).
    rewrite Z.div_div by lia.
    f_equal.
    replace (Zpos p~0) with (Zpos p + Zpos p) by lia.
    rewrite Z.pow_add_r by lia. reflexivity.
  - rewrite shr_1_m by lia. reflexivity.
Qed.

Lemma shr_record_of_loc_m (m : Z) (l : location) : shr_m (shr_record_of_loc m l) = m.
Proof. destruct l as [| []]; reflexivity. Qed.

(** Shifting a positive significand to its binary64 format keeps it
    positive as long as the exponent is not below [emin = -1074]. *)
Lemma shr_fexp_pos (m : positive) (e : Z) (l : location) :
  -1074 <= e ->
  0 < shr_m (fst (shr_fexp prec emax (Zpos m) e l))
  /\ -1074 <= snd (shr_fexp prec emax (Zpos m) e l).
Proof.
  intros He. unfold shr_fexp, shr, fexp, emin, prec, emax. simpl Zdigits2.
  pose proof (digits2_pos_lower m) as Hd.
  set (d := Zpos (digits2_pos m)) in *.
  assert (Hdpos : 1 <= d) by (unfold d; lia).
  destruct (Z.max (d + e - 53) (3 - 1024 - 53) - e) as [| n | n] eqn:En; simpl;
    try (rewrite shr_record_of_loc_m; split; lia).
  rewrite iter_shr_1_m by (rewrite shr_record_of_loc_m; lia).
  rewrite shr_record_of_loc_m. split; [| lia].
  assert (Hn : Zpos n <= d - 1) by lia.
  apply Z.div_str_pos. split; [apply Z.pow_pos_nonneg; lia |].
  apply Z.le_trans with (2 ^ (d - 1)); [| exact Hd].
  apply Z.pow_le_mono_r; lia.
Qed.

Lemma round_nearest_even_pos (mx : Z) (lx : location) :
  0 < mx -> 0 < round_nearest_even mx lx.
Proof.
  intros H. destruct lx as [| []]; simpl; try lia.
  destruct (Z.even mx); lia.
Qed.

(** Rounding a positive number whose exponent is at least [emin] gives a
    positive double or [+Infinity], never zero. *)
Lemma binary_round_aux_pos (m : positive) (e : Z) :
  -1074 <= e ->
  (exists m' e', binary_round_aux prec emax false (Zpos m) e loc_Exact
                 = S754_finite false m' e')
  \/ binary_round_aux prec emax false (Zpos m) e loc_Exact = S754_infinity false.
Proof.
  intros He. unfold binary_round_aux.
  destruct (shr_fexp_pos m e loc_Exact He) as [H1 H1e].
  destruct (shr_fexp prec emax (Zpos m) e loc_Exact) as [mrs' e']. simpl in H1, H1e.
  pose proof (round_nearest_even_pos (shr_m mrs') (loc_of_shr_record mrs') H1) as Hr.
  destruct (round_nearest_even (shr_m mrs') (loc_of_shr_record mrs')) as [| m1 | m1];
    try lia.
  destruct (shr_fexp_pos m1 e' loc_Exact H1e) as [H2 _].
  destruct (shr_fexp prec emax (Zpos m1) e' loc_Exact) as [mrs'' e'']. simpl in H2.
  destruct (shr_m mrs'') as [| m2 | m2]; try lia.
  destruct (e'' <=? emax - prec).
  - left. now exists m2, e''.
  - now right.
Qed.

Lemma ceil_pos_ge_1 (m : positive) (e : Z) : 1 <= ceil_pos m e.
Proof.
  unfold ceil_pos. destruct (0 <=? e) eqn:E.
  - apply Z.leb_le in E.
    assert (0 < 2 ^ e) by (apply Z.pow_pos_nonneg; lia). nia.
  - apply Z.leb_gt in E.
    assert (Hp : 0 < 2 ^ (- e)) by (apply Z.pow_pos_nonneg; lia).
    assert (- Zpos m / 2 ^ (- e) < 0) by (apply Z.div_lt_upper_bound; lia).
    lia.
Qed.

(** [Math.ceil(maxSize * 0.1) >= 1] for [maxSize >= 1]: the eviction loop
    runs at least once on a non-empty cache. *)
Lemma loop_bound_pos (size : Z) (len : nat) :
  1 <= size -> (1 <= len)%nat ->
  (1 <= loop_bound (SFmul prec emax (double_of_int size) double_0_1) len)%nat.
Proof.
  intros Hs Hl. destruct size as [| p | p]; try lia.
  unfold double_of_int, double_0_1, SFmul. simpl xorb.
  destruct (binary_round_aux_pos (p * 7205759403792794) (0 + -56)) as [[m' [e' H]] | H];
    [lia | |]; rewrite H; simpl.
  - pose proof (ceil_pos_ge_1 m' e'). lia.
  - exact Hl.
Qed.

(** *** The [Map] operations and the sort *)

Lemma map_delete_length_le (key : string) (m : JsMap) :
  (List.length (map_delete key m) <= List.length m)%nat.
Proof. unfold map_delete. apply filter_length_le. Qed.

Lemma map_delete_present (kv : string * CacheEntry) (m : JsMap) :
  In kv m -> (List.length (map_delete (fst kv) m) < List.length m)%nat.
Proof.
  induction m as [| x m IH]; simpl; intros H; [contradiction |].
  destruct H as [-> | H].
  - rewrite String.eqb_refl. simpl.
    pose proof (map_delete_length_le (fst kv) m). unfold map_delete in *. lia.
  - specialize (IH H). unfold map_delete in *.
    destruct (negb (fst x =? fst kv)%string); simpl; lia.
Qed.

Lemma evict_fold_length_le (doomed m : JsMap) :
  (List.length (fold_left (fun m kv => map_delete (fst kv) m) doomed m)
   <= List.length m)%nat.
Proof.
  revert m. induction doomed as [| d doomed IH]; intros m; simpl; [lia |].
  specialize (IH (map_delete (fst d) m)).
  pose proof (map_delete_length_le (fst d) m). lia.
Qed.

Lemma map_set_length (key : string) (e : CacheEntry) (m : JsMap) :
  (List.length (map_set key e m) <= S (List.length m))%nat.
Proof.
  induction m as [| [k e'] m IH]; simpl; [lia |].
  destruct (k =? key)%string; simpl; lia.
Qed.

Lemma insert_by_expiry_perm (x : string * CacheEntry) (l : JsMap) :
  Permutation (insert_by_expiry x l) (x :: l).
Proof.
  induction l as [| y l IH]; simpl; [reflexivity |].
  destruct (expiresAt (snd x) <=? expiresAt (snd y)); [reflexivity |].
  rewrite IH. apply perm_swap.
Qed.

Lemma sort_by_expiry_perm (l : JsMap) : Permutation (sort_by_expiry l) l.
Proof.
  induction l as [| x l IH]; simpl; [reflexivity |].
  rewrite insert_by_expiry_perm. now constructor.
Qed.

Lemma insert_by_expiry_sorted (x : string * CacheEntry) (l : JsMap) :
  StronglySorted by_expiry l -> StronglySorted by_expiry (insert_by_expiry x l).
Proof.
  induction l as [| y l IH]; simpl; intros Hs.
  - constructor; constructor.
  - inversion Hs as [| ? ? Hl Hy]; subst.
    destruct (expiresAt (snd x) <=? expiresAt (snd y)) eqn:E.
    + apply Z.leb_le in E. constructor; [exact Hs |].
      constructor; [exact E |].
      eapply Forall_impl; [| exact Hy]. unfold by_expiry. intros a Ha. lia.
    + apply Z.leb_gt in E. constructor; [now apply IH |].
      apply Forall_forall. intros a Ha.
      apply (Permutation_in _ (insert_by_expiry_perm x l)) in Ha.
      destruct Ha as [<- | Ha].
      * unfold by_expiry. lia.
      * revert a Ha. now apply Forall_forall.
Qed.

Lemma sort_by_expiry_sorted (l : JsMap) : StronglySorted by_expiry (sort_by_expiry l).
Proof.
  induction l as [| x l IH]; simpl; [constructor |].
  now apply insert_by_expiry_sorted.
Qed.

Lemma sorted_split (l1 l2 : JsMap) (a b : string * CacheEntry) :
  StronglySorted by_expiry (l1 ++ l2) -> In a l1 -> In b l2 -> by_expiry a b.
Proof.
  induction l1 as [| x l1 IH]; simpl; intros Hs Ha Hb; [contradiction |].
  inversion Hs as [| ? ? Hl Hx]; subst.
  destruct Ha as [<- | Ha].
  - rewrite Forall_forall in Hx. apply Hx. apply in_or_app. now right.
  - now apply IH.
Qed.

Lemma evict_fold_In (doomed m : JsMap) (y : string * CacheEntry) :
  In y (fold_left (fun m kv => map_delete (fst kv) m) doomed m)
  <-> In y m /\ ~ In (fst y) (map fst doomed).
Proof.
  revert m. induction doomed as [| d doomed IH]; intros m; simpl.
  - tauto.
  - rewrite IH. unfold map_delete. rewrite filter_In.
    destruct (fst y =? fst d)%string eqn:E; simpl.
    + apply String.eqb_eq in E. intuition congruence.
    + apply String.eqb_neq in E. intuition congruence.
Qed.

Lemma distinct_keys_inj (m : JsMap) (a b : string * CacheEntry) :
  distinct_keys m -> In a m -> In b m -> fst a = fst b -> a = b.
Proof.
  unfold distinct_keys. induction m as [| x m IH]; simpl; intros Hnd Ha Hb Hk;
    [contradiction |].
  inversion Hnd as [| ? ? Hx Hm]; subst.
  destruct Ha as [-> | Ha], Hb as [-> | Hb]; auto.
  - exfalso. apply Hx. rewrite Hk. now apply in_map.
  - exfalso. apply Hx. rewrite <- Hk. now apply in_map.
Qed.

(** One [set] keeps the size within a bound of at least 1. *)
Lemma set_keeps_bound (now : Z) (key : string) (v : Rbac.AccessDecision) (c : t) :
  1 <= maxSize c -> size c <= maxSize c ->
  maxSize (set now key v c) = maxSize c
  /\ size (set now key v c) <= maxSize c.
Proof.
  intros Hmax Hsize. unfold set, size in *.
  destruct (Z.of_nat (List.length (cache c)) >=? maxSize c) eqn:E; simpl.
  - split; [reflexivity |].
    rewrite Z.geb_leb in E. apply Z.leb_le in E.
    pose proof (map_set_length key
                  {| value := v; expiresAt := now + ttlMs c |}
                  (fold_left (fun m kv => map_delete (fst kv) m)
                     (firstn (loop_bound
                                (SFmul prec emax (double_of_int (maxSize c)) double_0_1)
                                (List.length (sort_by_expiry (cache c))))
                             (sort_by_expiry (cache c)))
                     (cache c))) as Hset.
    pose proof (Permutation_length (sort_by_expiry_perm (cache c))) as Hlen.
    assert (Hne : (1 <= List.length (sort_by_expiry (cache c)))%nat) by lia.
    pose proof (loop_bound_pos (maxSize c) _ Hmax Hne) as Hk.
    destruct (loop_bound _ _) as [| k]; [lia |].
    destruct (sort_by_expiry (cache c)) as [| d rest] eqn:Es; [simpl in Hne; lia |].
    simpl firstn in *. simpl fold_left in *.
    assert (Hd : In d (cache c)).
    { apply (Permutation_in _ (sort_by_expiry_perm (cache c))). rewrite Es. now left. }
    pose proof (map_delete_present d (cache c) Hd) as Hlt.
    pose proof (evict_fold_length_le (firstn k rest) (map_delete (fst d) (cache c))).
    lia.
  - split; [reflexivity |].
    rewrite Z.geb_leb in E. apply Z.leb_gt in E.
    pose proof (map_set_length key {| value := v; expiresAt := now + ttlMs c |} (cache c)).
    lia.
Qed.

Lemma set_all_keeps_bound (ops : list (Z * string * Rbac.AccessDecision)) (c : t) :
  1 <= maxSize c -> size c <= maxSize c ->
  maxSize (set_all ops c) = maxSize c /\ size (set_all ops c) <= maxSize c.
Proof.
  revert c. unfold set_all.
  induction ops as [| [[now key] v] ops IH]; intros c Hmax Hsize; simpl; [auto |].
  destruct (set_keeps_bound now key v c Hmax Hsize) as [Hm Hs].
  destruct (IH (set now key v c)) as [Hm' Hs']; [lia | lia |].
  split; [congruence | lia].
Qed.

(** What [evictOldest] removes comes first in ascending order of expiry. *)
Lemma evictOldest_order (c : t) (x y : string * CacheEntry) :
  distinct_keys (cache c) ->
  In x (cache c) -> ~ In x (cache (evictOldest c)) -> In y (cache (evictOldest c)) ->
  by_expiry x y.
Proof.
  intros Hnd Hx Hgone Hkept. unfold evictOldest in *. simpl in *.
  set (sorted := sort_by_expiry (cache c)) in *.
  set (k := loop_bound _ _) in *.
  rewrite evict_fold_In in Hgone, Hkept.
  destruct Hkept as [Hy Hyk].
  assert (Hsub : forall z, In z (firstn k sorted) -> In z (cache c)).
  { intros z Hz. apply (Permutation_in _ (sort_by_expiry_perm (cache c))).
    rewrite <- (firstn_skipn k). apply in_or_app. now left. }
  assert (Hx1 : In x (firstn k sorted)).
  { destruct (in_dec string_dec (fst x) (map fst (firstn k sorted))) as [Hin | Hout];
      [| tauto].
    apply in_map_iff in Hin. destruct Hin as [x' [Hk' Hx']].
    rewrite <- (distinct_keys_inj (cache c) x' x Hnd (Hsub x' Hx') Hx Hk'). exact Hx'. }
  assert (Hy2 : In y (skipn k sorted)).
  { assert (Hys : In y sorted)
      by (apply (Permutation_in _ (Permutation_sym (sort_by_expiry_perm (cache c))));
          exact Hy).
    rewrite <- (firstn_skipn k sorted) in Hys. apply in_app_or in Hys.
    destruct Hys as [Hys | Hys]; [| exact Hys].
    exfalso. apply Hyk. now apply in_map. }
  apply (sorted_split (firstn k sorted) (skipn k sorted)); auto.
  rewrite firstn_skipn. apply sort_by_expiry_sorted.
Qed.

(** *** Distinct keys and the number of evictions *)

Lemma map_delete_keys (key k : string) (m : JsMap) :
  In k (map fst (map_delete key m)) <-> In k (map fst m) /\ k <> key.
Proof.
  unfold map_delete. induction m as [| [k' e] m IH]; simpl; [tauto |].
  destruct (k' =? key)%string eqn:E; simpl.
  - apply String.eqb_eq in E. subst k'. rewrite IH. intuition congruence.
  - apply String.eqb_neq in E. rewrite IH. intuition congruence.
Qed.

Lemma map_delete_distinct (key : string) (m : JsMap) :
  distinct_keys m -> distinct_keys (map_delete key m).
Proof.
  unfold distinct_keys. induction m as [| [k e] m IH]; simpl; intros Hnd; [constructor |].
  inversion Hnd as [| ? ? Hk Hm]; subst.
  destruct (k =? key)%string; simpl; [now apply IH |].
  constructor; [| now apply IH].
  intros Hin. apply (map_delete_keys key k m) in Hin. tauto.
Qed.

Lemma map_set_keys (key k : string) (e : CacheEntry) (m : JsMap) :
  In k (map fst (map_set key e m)) <-> In k (map fst m) \/ k = key.
Proof.
  induction m as [| [k' e'] m IH]; simpl; [intuition congruence |].
  destruct (k' =? key)%string eqn:E; simpl.
  - apply String.eqb_eq in E. subst k'. intuition congruence.
  - rewrite IH. tauto.
Qed.

Lemma map_set_distinct (key : string) (e : CacheEntry) (m : JsMap) :
  distinct_keys m -> distinct_keys (map_set key e m).
Proof.
  unfold distinct_keys. induction m as [| [k e'] m IH]; simpl; intros Hnd.
  - constructor; [tauto | constructor].
  - inversion Hnd as [| ? ? Hk Hm]; subst.
    destruct (k =? key)%string eqn:E; simpl; [now constructor |].
    apply String.eqb_neq in E.
    constructor; [| now apply IH].
    intros Hin. apply map_set_keys in Hin. destruct Hin; congruence.
Qed.

Lemma evict_fold_distinct (doomed m : JsMap) :
  distinct_keys m ->
  distinct_keys (fold_left (fun m kv => map_delete (fst kv) m) doomed m).
Proof.
  revert m. induction doomed as [| d doomed IH]; intros m H; simpl; [assumption |].
  apply IH. now apply map_delete_distinct.
Qed.

Lemma set_all_distinct (ops : list (Z * string * Rbac.AccessDecision)) (c : t) :
  distinct_keys (cache c) -> distinct_keys (cache (set_all ops c)).
Proof.
  revert c. unfold set_all.
  induction ops as [| [[now key] v] ops IH]; intros c H; simpl; [assumption |].
  apply IH. unfold set. simpl. apply map_set_distinct.
  destruct (size c >=? maxSize c); [| assumption].
  unfold evictOldest. simpl. now apply evict_fold_distinct.
Qed.

Lemma map_delete_length_exact (key : string) (m : JsMap) :
  distinct_keys m -> In key (map fst m) ->
  S (List.length (map_delete key m)) = List.length m.
Proof.
  unfold distinct_keys, map_delete.
  induction m as [| [k e] m IH]; simpl; intros Hnd Hin; [contradiction |].
  inversion Hnd as [| ? ? Hk Hm]; subst.
  destruct (k =? key)%string eqn:E; simpl.
  - apply String.eqb_eq in E. subst k. f_equal.
    clear IH Hin Hnd Hm. induction m as [| [k' e'] m IH]; simpl; [reflexivity |].
    simpl in Hk.
    destruct (k' =? key)%string eqn:E'; simpl.
    + apply String.eqb_eq in E'. tauto.
    + f_equal. apply IH. tauto.
  - apply String.eqb_neq in E. f_equal. apply IH; [assumption |].
    destruct Hin; congruence.
Qed.

Lemma evict_fold_length (doomed m : JsMap) :
  distinct_keys doomed -> distinct_keys m ->
  (forall z, In z doomed -> In (fst z) (map fst m)) ->
  List.length (fold_left (fun m kv => map_delete (fst kv) m) doomed m)
  = (List.length m - List.length doomed)%nat.
Proof.
  revert m. induction doomed as [| d doomed IH]; intros m Hd Hm Hsub; simpl; [lia |].
  unfold distinct_keys in Hd. simpl in Hd.
  inversion Hd as [| ? ? Hfresh Hrest]; subst.
  rewrite IH.
  - pose proof (map_delete_length_exact (fst d) m Hm (Hsub d (or_introl eq_refl))). lia.
  - exact Hrest.
  - now apply map_delete_distinct.
  - intros z Hz. apply map_delete_keys. split; [apply Hsub; now right |].
    intros Heq. apply Hfresh. rewrite <- Heq. now apply in_map.
Qed.

Lemma loop_bound_le (x : spec_float) (len : nat) : (loop_bound x len <= len)%nat.
Proof. destruct x as [| [] | | [] m e]; simpl; lia. Qed.

Lemma evictOldest_count (c : t) :
  distinct_keys (cache c) ->
  List.length (cache (evictOldest c))
  = (List.length (cache c)
     - loop_bound (SFmul prec emax (double_of_int (maxSize c)) double_0_1)
                  (List.length (cache c)))%nat.
Proof.
  intros Hnd. unfold evictOldest. simpl.
  pose proof (sort_by_expiry_perm (cache c)) as Hperm.
  rewrite (Permutation_length Hperm).
  set (k := loop_bound _ _).
  assert (Hk : (k <= List.length (sort_by_expiry (cache c)))%nat).
  { rewrite (Permutation_length Hperm). apply loop_bound_le. }
  rewrite evict_fold_length.
  - rewrite length_firstn. lia.
  - unfold distinct_keys. rewrite <- firstn_map.
    assert (Hs : NoDup (map fst (sort_by_expiry (cache c)))).
    { apply (Permutation_NoDup (l := map fst (cache c))); [| exact Hnd].
      apply Permutation_map. now apply Permutation_sym. }
    rewrite <- (firstn_skipn k (map fst (sort_by_expiry (cache c)))) in Hs.
    now apply NoDup_app_remove_r in Hs.
  - exact Hnd.
  - intros z Hz. apply in_map.
    apply (Permutation_in _ Hperm).
    rewrite <- (firstn_skipn k). apply in_or_app. now left.
Qed.

End PolicyCacheFacts.

(** C8 fails as stated: a cache built with [maxSize = 0] evicts
    [Math.ceil(0 * 0.1) = 0] entries, so one [set] leaves one entry in a
    cache of capacity zero. *)
Lemma zero_capacity_cache_overflows :
  let c := PolicyCache.set_all [(0, "key0", some_decision)]
             (PolicyCache.new (Some 1000) (Some 0)) in
  PolicyCache.maxSize c = 0 /\ PolicyCache.size c = 1.
Proof. split; reflexivity. Qed.

(** C8, amended.  For a cache whose [maxSize] is an integer of at least 1
    and whose size does not exceed it (a new cache in particular), the size
    never exceeds [maxSize] after any sequence of [set] calls.  The keys of
    the map stay distinct, and on such a map [evictOldest] removes
    [min(size, Math.ceil(maxSize * 0.1))] entries, none of which expires
    later than an entry it keeps. *)
Theorem cache_size_bounded :
  (forall (c : PolicyCache.t) (ops : list (Z * string * Rbac.AccessDecision)),
      1 <= PolicyCache.maxSize c ->
      PolicyCache.size c <= PolicyCache.maxSize c ->
      PolicyCache.size (PolicyCache.set_all ops c) <= PolicyCache.maxSize c)
  /\ (forall (c : PolicyCache.t) (ops : list (Z * string * Rbac.AccessDecision)),
         distinct_keys (PolicyCache.cache c) ->
         distinct_keys (PolicyCache.cache (PolicyCache.set_all ops c)))
  /\ (forall c : PolicyCache.t,
         distinct_keys (PolicyCache.cache c) ->
         List.length (PolicyCache.cache (PolicyCache.evictOldest c))
         = (List.length (PolicyCache.cache c)
            - PolicyCache.loop_bound
                (SFmul PolicyCache.prec PolicyCache.emax
                       (PolicyCache.double_of_int (PolicyCache.maxSize c))
                       PolicyCache.double_0_1)
                (List.length (PolicyCache.cache c)))%nat
         /\ forall x y,
             In x (PolicyCache.cache c) ->
             ~ In x (PolicyCache.cache (PolicyCache.evictOldest c)) ->
             In y (PolicyCache.cache (PolicyCache.evictOldest c)) ->
             PolicyCache.expiresAt (snd x) <= PolicyCache.expiresAt (snd y)).
Proof.
  split; [| split].
  - intros c ops Hmax Hsize. now apply set_all_keeps_bound.
  - intros c ops. apply set_all_distinct.
  - intros c Hnd. split.
    + now apply evictOldest_count.
    + intros x y Hx Hgone Hkept. now apply (evictOldest_order c x y).
Qed.

(** C8 amended, on the cache of the test suite: [maxSize = 5] and ten
    insertions. *)
Lemma cache_size_bounded_witness :
  PolicyCache.size
    (PolicyCache.set_all
       [ (0, "key0", some_decision); (1, "key1", some_decision);
         (2, "key2", some_decision); (3, "key3", some_decision);
         (4, "key4", some_decision); (5, "key5", some_decision);
         (6, "key6", some_decision); (7, "key7", some_decision);
         (8, "key8", some_decision); (9, "key9", some_decision) ]
       (PolicyCache.new (Some 10000) (Some 5)))
  <= 5.
Proof.
  apply (proj1 cache_size_bounded (PolicyCache.new (Some 10000) (Some 5))).
  - change (1 <= 5). lia.
  - change (0 <= 5). lia.
Defined.

(** ** Audit logger *)

(** C7 fails as stated: [flush] empties the buffer before it writes, and a
    write that rejects leaves the buffer empty.  The event that was buffered
    when [flush] began is gone. *)
Lemma failed_flush_drops_events :
  let e := sample_event "evt-1" in
  let l := sample_logger [e] in
  let out := AuditLogger.flush (AuditLogger.WriteError 0) "2026-01-01" [] l in
  fst out = JS.Throw "write failed"
  /\ In e (AuditLogger.buffer l)
  /\ ~ In e (AuditLogger.buffer (snd out)).
Proof.
  simpl. repeat split.
  - now left.
  - intros [].
Qed.

(** C7, amended.  When [flush] fails (a write or the fsync rejects), the
    events that were in the buffer when it began are not put back: the
    buffer then holds exactly the events logged while the flush was running,
    and [flushing] is cleared. *)
Theorem failed_flush_empties_buffer :
  forall (io : AuditLogger.Io) (date : string)
         (arrivals : list AuditLogger.AuditEvent) (l l' : AuditLogger.t) (msg : string),
    AuditLogger.flush io date arrivals l = (JS.Throw msg, l') ->
    AuditLogger.buffer l' = arrivals /\ AuditLogger.flushing l' = false.
Proof.
  intros io date arrivals l l' msg. unfold AuditLogger.flush.
  destruct (AuditLogger.flushing l || _); [discriminate |].
  destruct io as [| k |].
  - discriminate.
  - destruct (k <? _)%nat; [| discriminate].
    intros H. injection H as _ <-. split; reflexivity.
  - intros H. injection H as _ <-. split; reflexivity.
Qed.

(** C7 amended, on two buffered events, a failing fsync and one event
    logged meanwhile. *)
Lemma failed_flush_empties_buffer_witness :
  let l := sample_logger [sample_event "evt-1"; sample_event "evt-2"] in
  AuditLogger.buffer
    (snd (AuditLogger.flush AuditLogger.SyncError "2026-01-01" [sample_event "evt-3"] l))
  = [sample_event "evt-3"].
Proof.
  intros l.
  apply (proj1 (failed_flush_empties_buffer AuditLogger.SyncError "2026-01-01"
                  [sample_event "evt-3"] l
                  (snd (AuditLogger.flush AuditLogger.SyncError "2026-01-01"
                          [sample_event "evt-3"] l))
                  "fsync failed" eq_refl)).
Defined.

(** ** PII redactor *)

Section PIIRedactorFacts.
Import PIIRedactor.

Lemma redactObject_object (this : t) (fields : list (string * JValue)) :
  redactObject this (JObject fields) = JObject (fold_left (redact_field this) fields []).
Proof. reflexivity. Qed.

Lemma lookup_obj_set_same (key : string) (v : JValue) (fields : list (string * JValue)) :
  lookup key (obj_set key v fields) = Some v.
Proof.
  induction fields as [| [k v'] fields IH]; simpl.
  - now rewrite String.eqb_refl.
  - destruct (k =? key)%string eqn:E; simpl; rewrite E; [reflexivity | exact IH].
Qed.

Lemma lookup_obj_set_other (key k : string) (v : JValue) (fields : list (string * JValue)) :
  k <> key -> lookup key (obj_set k v fields) = lookup key fields.
Proof.
  intros Hne. induction fields as [| [k' v'] fields IH]; simpl.
  - now rewrite (proj2 (String.eqb_neq k key) Hne).
  - destruct (k' =? k)%string eqn:E; simpl.
    + apply String.eqb_eq in E. subst k'.
      now rewrite (proj2 (String.eqb_neq k key) Hne).
    + destruct (k' =? key)%string; [reflexivity | exact IH].
Qed.

Lemma lookup_assign_same (key : string) (v : JValue) (fields : list (string * JValue)) :
  key <> "__proto__" -> lookup key (assign fields key v) = Some v.
Proof.
  intros Hne. unfold assign.
  rewrite (proj2 (String.eqb_neq key "__proto__") Hne). apply lookup_obj_set_same.
Qed.

Lemma lookup_assign_other (key k : string) (v : JValue) (fields : list (string * JValue)) :
  k <> key -> lookup key (assign fields k v) = lookup key fields.
Proof.
  intros Hne. unfold assign.
  destruct (k =? "__proto__")%string; [reflexivity | now apply lookup_obj_set_other].
Qed.

Lemma sensitive_not_proto (key : string) : isSensitiveKey key = true -> key <> "__proto__".
Proof. intros H ->. vm_compute in H. discriminate. Qed.

Lemma password_is_sensitive (key : string) :
  Regex.test password_re key = true -> isSensitiveKey key = true.
Proof.
  intros H. unfold isSensitiveKey, sensitivePatterns.
  change (i (Regex.lit "password")) with password_re.
  simpl existsb. rewrite H. reflexivity.
Qed.

(** A sensitive key ends up holding the marker, whatever was stored. *)
Lemma sensitive_field_redacted (this : t) (key : string) :
  isSensitiveKey key = true ->
  forall fields acc,
    In key (map fst fields) \/ lookup key acc = Some (JString "[REDACTED]") ->
    lookup key (fold_left (redact_field this) fields acc) = Some (JString "[REDACTED]").
Proof.
  intros Hs. pose proof (sensitive_not_proto key Hs) as Hproto.
  induction fields as [| [k v] fields IH]; intros acc H; simpl.
  - destruct H as [[] | H]. exact H.
  - apply IH. simpl in H.
    destruct (string_dec k key) as [-> | Hne].
    + right. unfold redact_field. simpl. rewrite Hs. now apply lookup_assign_same.
    + destruct H as [[H | H] | H]; [congruence | now left |].
      right. unfold redact_field. simpl.
      destruct (isSensitiveKey k); now rewrite lookup_assign_other.
Qed.

Lemma absent_field_untouched (this : t) (key : string) :
  forall fields acc,
    ~ In key (map fst fields) ->
    lookup key (fold_left (redact_field this) fields acc) = lookup key acc.
Proof.
  induction fields as [| [k v] fields IH]; intros acc H; simpl; [reflexivity |].
  simpl in H. rewrite IH by tauto.
  unfold redact_field. simpl.
  destruct (isSensitiveKey k); apply lookup_assign_other; tauto.
Qed.

(** Under an ordinary key the value is the redaction of the original. *)
Lemma plain_field_redacted (this : t) (key : string) (v : JValue) :
  isSensitiveKey key = false -> key <> "__proto__" ->
  forall fields acc,
    NoDup (map fst fields) -> In (key, v) fields ->
    lookup key (fold_left (redact_field this) fields acc) = Some (redactObject this v).
Proof.
  intros Hs Hproto.
  induction fields as [| [k v'] fields IH]; intros acc Hnd Hin; simpl; [contradiction |].
  simpl in Hnd. inversion Hnd as [| ? ? Hk Hrest]; subst.
  destruct Hin as [Heq | Hin].
  - injection Heq as -> ->.
    rewrite absent_field_untouched by exact Hk.
    unfold redact_field. simpl. rewrite Hs. now apply lookup_assign_same.
  - now apply IH.
Qed.

Lemma scalar_unchanged (this : t) (v : JValue) :
  non_string_scalar v -> redactObject this v = v.
Proof. destruct v; simpl; intros H; try reflexivity; contradiction. Qed.

(** Every key that contains ["password"] matches [/password/i]. *)
Lemma password_substring_matches (pre post : string) :
  Regex.test password_re (pre ++ "password" ++ post) = true.
Proof.
  unfold Regex.test. generalize (@None ascii).
  induction pre as [| c pre IH]; intros prev.
  - reflexivity.
  - simpl. destruct (Regex.match_here _ _ _); [reflexivity | apply IH].
Qed.

(** The expectations of the repository's test suite for [redactString]. *)
Example redactString_test_suite :
  map (redactString defaultRedactor)
      [ "My SSN is 123-45-6789"; "SSN: 123456789"; "123-45-6789 and 987-65-4321";
        "Card: 4532-1234-5678-9010"; "Card: 4532123456789010";
        "Card: 4532 1234 5678 9010"; "Contact me at john.doe@example.com";
        "Emails: alice@test.com, bob@example.org"; "Call (123) 456-7890";
        "Phone: 123-456-7890"; "Mobile: +1-123-456-7890";
        "Key: sk_test_1234567890abcdef"; "pk_live_abcdefghij1234567890";
        "John Doe" ]
  = [ "My SSN is ***-**-****"; "SSN: *********"; "***-**-**** and ***-**-****";
      "Card: ****-****-****-****"; "Card: ****-****-****-****";
      "Card: ****-****-****-****"; "Contact me at [EMAIL_REDACTED]";
      "Emails: [EMAIL_REDACTED], [EMAIL_REDACTED]"; "Call [PHONE_REDACTED]";
      "Phone: [PHONE_REDACTED]"; "Mobile: [PHONE_REDACTED]";
      "Key: [API_KEY_REDACTED]"; "[API_KEY_REDACTED]";
      "John Doe" ].
Proof. vm_compute. reflexivity. Qed.

(** The test "should fully redact sensitive keys". *)
Example redactObject_test_suite :
  redactObject defaultRedactor
    (JObject [ ("username", JString "john"); ("password", JString "secret123");
               ("apiKey", JString "sk_test_abc123"); ("token", JString "bearer_xyz") ])
  = JObject [ ("username", JString "john"); ("password", JString "[REDACTED]");
              ("apiKey", JString "[REDACTED]"); ("token", JString "[REDACTED]") ].
Proof. vm_compute. reflexivity. Qed.

End PIIRedactorFacts.

(** C9.  The default redactor turns ["123-45-6789"] into ["***-**-****"]
    and ["john@x.com"] into ["[EMAIL_REDACTED]"].  For every redactor and
    every object, a key that matches [/password/i] holds ["[REDACTED]"] in
    the result whatever value it had; [null], [undefined], numbers and
    booleans are returned as they are, also under a key of an object that is
    not sensitive. *)
Theorem redaction_examples :
  PIIRedactor.redactString PIIRedactor.defaultRedactor "123-45-6789" = "***-**-****"
  /\ PIIRedactor.redactString PIIRedactor.defaultRedactor "john@x.com" = "[EMAIL_REDACTED]"
  /\ (forall (this : PIIRedactor.t) (fields : list (string * PIIRedactor.JValue))
             (key : string),
         In key (map fst fields) ->
         Regex.test password_re key = true ->
         exists fields',
           PIIRedactor.redactObject this (PIIRedactor.JObject fields)
           = PIIRedactor.JObject fields'
           /\ PIIRedactor.lookup key fields' = Some (PIIRedactor.JString "[REDACTED]"))
  /\ (forall (this : PIIRedactor.t) (v : PIIRedactor.JValue),
         non_string_scalar v -> PIIRedactor.redactObject this v = v)
  /\ (forall (this : PIIRedactor.t) (fields : list (string * PIIRedactor.JValue))
             (key : string) (v : PIIRedactor.JValue),
         NoDup (map fst fields) -> In (key, v) fields ->
         PIIRedactor.isSensitiveKey key = false -> key <> "__proto__" ->
         non_string_scalar v ->
         exists fields',
           PIIRedactor.redactObject this (PIIRedactor.JObject fields)
           = PIIRedactor.JObject fields'
           /\ PIIRedactor.lookup key fields' = Some v).
Proof.
  split; [vm_compute; reflexivity |].
  split; [vm_compute; reflexivity |].
  split; [| split].
  - intros this fields key Hin Hpw.
    exists (fold_left (redact_field this) fields []). split; [reflexivity |].
    apply sensitive_field_redacted; [now apply password_is_sensitive | now left].
  - intros this v. apply scalar_unchanged.
  - intros this fields key v Hnd Hin Hs Hproto Hv.
    exists (fold_left (redact_field this) fields []). split; [reflexivity |].
    rewrite (plain_field_redacted this key v Hs Hproto fields [] Hnd Hin).
    now rewrite scalar_unchanged.
Qed.

(** C9, on the object [{ username, password, count }]. *)
Lemma redaction_examples_witness :
  let obj :=
    [ ("username", PIIRedactor.JString "john");
      ("password", PIIRedactor.JString "secret123");
      ("count", PIIRedactor.JNumber (S754_finite false 42 0)) ] in
  (exists fields',
      PIIRedactor.redactObject PIIRedactor.defaultRedactor (PIIRedactor.JObject obj)
      = PIIRedactor.JObject fields'
      /\ PIIRedactor.lookup "password" fields' = Some (PIIRedactor.JString "[REDACTED]"))
  /\ (exists fields',
         PIIRedactor.redactObject PIIRedactor.defaultRedactor (PIIRedactor.JObject obj)
         = PIIRedactor.JObject fields'
         /\ PIIRedactor.lookup "count" fields'
            = Some (PIIRedactor.JNumber (S754_finite false 42 0))).
Proof.
  intros obj. split.
  - apply (proj1 (proj2 (proj2 redaction_examples)) PIIRedactor.defaultRedactor obj
             "password").
    + simpl. tauto.
    + vm_compute. reflexivity.
  - apply (proj2 (proj2 (proj2 (proj2 redaction_examples))) PIIRedactor.defaultRedactor obj
             "count" (PIIRedactor.JNumber (S754_finite false 42 0))).
    + repeat constructor; simpl; intuition discriminate.
    + simpl. tauto.
    + vm_compute. reflexivity.
    + discriminate.
    + exact I.
Defined.

(** * Further properties of the role hierarchy *)

Section RoleOrderFacts.
Import RoleHierarchy.

Lemma roleIncludes_refl (r : Role) : roleIncludes r r = true.
Proof. destruct r; reflexivity. Qed.

Lemma roleIncludes_trans (a b c : Role) :
  roleIncludes a b = true -> roleIncludes b c = true -> roleIncludes a c = true.
Proof. destruct a, b, c; vm_compute; congruence. Qed.

Lemma roleIncludes_level (a b : Role) :
  roleIncludes a b = true -> getRoleLevel b <= getRoleLevel a.
Proof. destruct a, b; vm_compute; congruence. Qed.

Lemma implied_iff_includes (r r' : Role) :
  In r' (getImpliedRoles r) <-> roleIncludes r r' = true.
Proof.
  destruct r, r'; vm_compute; split; intros H;
    try reflexivity; try discriminate; try tauto;
    repeat (destruct H as [H | H]; try discriminate); try contradiction.
Qed.

(** The [reduce] of [getHighestRole] returns its start value or the role of
    one of the grants it ran over. *)
Lemma fold_higher_origin (l : list UserRole) (h r : Role) :
  fold_left higher l (Some h) = Some r ->
  r = h \/ exists g, In g l /\ ur_role g = r.
Proof.
  revert h. induction l as [| x l IH]; intros h; simpl.
  - intros H. injection H as <-. now left.
  - destruct (getRoleLevel (ur_role x) >? getRoleLevel h); intros H;
      apply IH in H; destruct H as [-> | [g [Hg Hr]]].
    + right. exists x. split; [now left | reflexivity].
    + right. exists g. split; [now right | exact Hr].
    + now left.
    + right. exists g. split; [now right | exact Hr].
Qed.

End RoleOrderFacts.

Lemma roleIncludes_order_laws :
  (forall r, RoleHierarchy.roleIncludes r r = true)
  /\ (forall a b c,
         RoleHierarchy.roleIncludes a b = true ->
         RoleHierarchy.roleIncludes b c = true ->
         RoleHierarchy.roleIncludes a c = true)
  /\ (forall a b,
         RoleHierarchy.roleIncludes a b = true ->
         RoleHierarchy.roleIncludes b a = true -> a = b)
  /\ (forall a b,
         JS.startsWith (RoleHierarchy.role_str a) "org:"
         <> JS.startsWith (RoleHierarchy.role_str b) "org:" ->
         RoleHierarchy.roleIncludes a b = false)
  /\ (forall a b,
         JS.startsWith (RoleHierarchy.role_str a) "org:"
         = JS.startsWith (RoleHierarchy.role_str b) "org:" ->
         RoleHierarchy.roleIncludes a b
         = (RoleHierarchy.getRoleLevel b <=? RoleHierarchy.getRoleLevel a)).
Proof.
  split; [exact roleIncludes_refl |].
  split; [exact roleIncludes_trans |].
  split; [| split].
  - intros a b. destruct a, b; vm_compute; congruence.
  - intros a b. destruct a, b; vm_compute; congruence.
  - intros a b. destruct a, b; vm_compute; congruence.
Qed.

(** X1.  [roleIncludes] orders each family of roles: it is reflexive,
    transitive and antisymmetric, it agrees with the levels, and it is false
    between an organisation role and a workspace role. *)
Theorem roleIncludes_partial_order :
  (forall r, RoleHierarchy.roleIncludes r r = true)
  /\ (forall a b c,
         RoleHierarchy.roleIncludes a b = true ->
         RoleHierarchy.roleIncludes b c = true ->
         RoleHierarchy.roleIncludes a c = true)
  /\ (forall a b,
         RoleHierarchy.roleIncludes a b = true ->
         RoleHierarchy.roleIncludes b a = true -> a = b)
  /\ (forall a b,
         JS.startsWith (RoleHierarchy.role_str a) "org:"
         <> JS.startsWith (RoleHierarchy.role_str b) "org:" ->
         RoleHierarchy.roleIncludes a b = false)
  /\ (forall a b,
         JS.startsWith (RoleHierarchy.role_str a) "org:"
         = JS.startsWith (RoleHierarchy.role_str b) "org:" ->
         RoleHierarchy.roleIncludes a b
         = (RoleHierarchy.getRoleLevel b <=? RoleHierarchy.getRoleLevel a)).
Proof. exact roleIncludes_order_laws. Qed.

Lemma roleIncludes_partial_order_witness :
  RoleHierarchy.roleIncludes RoleHierarchy.OrgOwner RoleHierarchy.OrgMember = true
  /\ RoleHierarchy.roleIncludes RoleHierarchy.OrgOwner RoleHierarchy.WsViewer = false.
Proof.
  split.
  - apply (proj1 (proj2 roleIncludes_partial_order)
             RoleHierarchy.OrgOwner RoleHierarchy.OrgAdmin RoleHierarchy.OrgMember);
      reflexivity.
  - apply (proj1 (proj2 (proj2 (proj2 roleIncludes_partial_order)))
             RoleHierarchy.OrgOwner RoleHierarchy.WsViewer).
    discriminate.
Defined.

(** X2.  [getImpliedRoles r] lists, without repetition, exactly the roles
    that [r] includes. *)
Theorem getImpliedRoles_includes :
  forall r r' : RoleHierarchy.Role,
    (In r' (RoleHierarchy.getImpliedRoles r) <-> RoleHierarchy.roleIncludes r r' = true)
    /\ NoDup (RoleHierarchy.getImpliedRoles r).
Proof.
  intros r r'. split; [apply implied_iff_includes |].
  destruct r; vm_compute; repeat constructor; simpl; intuition discriminate.
Qed.

Lemma getImpliedRoles_includes_witness :
  In RoleHierarchy.WsViewer (RoleHierarchy.getImpliedRoles RoleHierarchy.WsAdmin).
Proof.
  apply (proj2 (proj1 (getImpliedRoles_includes RoleHierarchy.WsAdmin RoleHierarchy.WsViewer))).
  reflexivity.
Defined.

Lemma getHighestRole_chosen :
  forall (roles : list RoleHierarchy.UserRole) (scope : string),
    let applies (g : RoleHierarchy.UserRole) :=
      RoleHierarchy.ur_scope g = scope \/ RoleHierarchy.ur_scope g = "*" in
    (RoleHierarchy.getHighestRole roles scope = None
     <-> forall g, In g roles -> ~ applies g)
    /\ (forall r,
           RoleHierarchy.getHighestRole roles scope = Some r ->
           (exists g, In g roles /\ applies g /\ RoleHierarchy.ur_role g = r)
           /\ (forall g, In g roles -> applies g ->
                         RoleHierarchy.getRoleLevel (RoleHierarchy.ur_role g)
                         <= RoleHierarchy.getRoleLevel r)).
Proof.
  intros roles scope applies. unfold RoleHierarchy.getHighestRole.
  set (f := fun r : RoleHierarchy.UserRole =>
              ((RoleHierarchy.ur_scope r =? scope) || (RoleHierarchy.ur_scope r =? "*"))%string).
  assert (Hf : forall g, f g = true <-> applies g).
  { intros g. unfold f, applies. rewrite orb_true_iff, !String.eqb_eq. tauto. }
  destruct (filter f roles) as [| x rest] eqn:E.
  - split.
    + split; [| reflexivity]. intros _ g Hg Ha.
      assert (Hin : In g (filter f roles)) by (apply filter_In; split; [exact Hg | now apply Hf]).
      rewrite E in Hin. contradiction.
    + discriminate.
  - assert (Hx : In x (filter f roles)) by (rewrite E; now left).
    apply filter_In in Hx. destruct Hx as [Hx Hxa]. apply Hf in Hxa.
    simpl fold_left.
    destruct (fold_higher_max rest (RoleHierarchy.ur_role x)) as [r0 [Hr0 [Hle Hall]]].
    split.
    + split; [rewrite Hr0; discriminate |].
      intros Hnone. exfalso. exact (Hnone x Hx Hxa).
    + intros r Hr. rewrite Hr0 in Hr. injection Hr as <-. split.
      * destruct (fold_higher_origin rest _ _ Hr0) as [-> | [g [Hg Hrole]]].
        -- exists x. auto.
        -- assert (Hin : In g (filter f roles)) by (rewrite E; now right).
           apply filter_In in Hin. destruct Hin as [Hin Hga]. apply Hf in Hga.
           exists g. auto.
      * intros g Hg Ha.
        assert (Hin : In g (filter f roles))
          by (apply filter_In; split; [exact Hg | now apply Hf]).
        rewrite E in Hin. destruct Hin as [<- | Hin]; [exact Hle | now apply Hall].
Qed.

(** X3.  [getHighestRole] returns [null] exactly when no grant has the scope
    asked for or the wildcard; otherwise it returns the role of such a grant
    whose level no other such grant exceeds. *)
Theorem getHighestRole_spec :
  forall (roles : list RoleHierarchy.UserRole) (scope : string),
    let applies (g : RoleHierarchy.UserRole) :=
      RoleHierarchy.ur_scope g = scope \/ RoleHierarchy.ur_scope g = "*" in
    (RoleHierarchy.getHighestRole roles scope = None
     <-> forall g, In g roles -> ~ applies g)
    /\ (forall r,
           RoleHierarchy.getHighestRole roles scope = Some r ->
           (exists g, In g roles /\ applies g /\ RoleHierarchy.ur_role g = r)
           /\ (forall g, In g roles -> applies g ->
                         RoleHierarchy.getRoleLevel (RoleHierarchy.ur_role g)
                         <= RoleHierarchy.getRoleLevel r)).
Proof. exact getHighestRole_chosen. Qed.

Lemma getHighestRole_spec_witness :
  RoleHierarchy.getRoleLevel RoleHierarchy.OrgMember
  <= RoleHierarchy.getRoleLevel RoleHierarchy.OrgAdmin.
Proof.
  apply (proj2 (proj2 (getHighestRole_spec
           [ RoleHierarchy.mkUserRole "u" RoleHierarchy.OrgMember "*" 0 "system";
             RoleHierarchy.mkUserRole "u" RoleHierarchy.OrgAdmin "org1" 0 "system";
             RoleHierarchy.mkUserRole "u" RoleHierarchy.OrgOwner "org2" 0 "system" ]
           "org1")
           RoleHierarchy.OrgAdmin eq_refl)
           (RoleHierarchy.mkUserRole "u" RoleHierarchy.OrgMember "*" 0 "system")).
  - simpl. tauto.
  - now right.
Defined.

Section EffectiveRolesFacts.
Import RoleHierarchy.

Lemma In_set_add (s : list Role) (r x : Role) :
  In x (set_add s r) <-> In x s \/ x = r.
Proof.
  split.
  - apply set_add_inv.
  - intros [H | ->]; [now apply set_add_keeps | apply set_add_In].
Qed.

Lemma In_set_add_all (rs s : list Role) (x : Role) :
  In x (set_add_all s rs) <-> In x s \/ In x rs.
Proof.
  unfold set_add_all. revert s.
  induction rs as [| r rs IH]; intros s; simpl; [tauto |].
  rewrite IH, In_set_add. intuition congruence.
Qed.

Lemma In_workspace_grants (gs : list UserRole) (s : list Role) (x : Role) :
  In x (fold_left (fun roles r => set_add_all roles (getImpliedRoles (ur_role r))) gs s)
  <-> In x s \/ exists g, In g gs /\ In x (getImpliedRoles (ur_role g)).
Proof.
  revert s. induction gs as [| g gs IH]; intros s; simpl.
  - split; [now left | intros [H | [g [[] _]]]; exact H].
  - rewrite IH, In_set_add_all. split.
    + intros [[H | H] | [g' [Hg' Hx]]].
      * now left.
      * right. exists g. auto.
      * right. exists g'. auto.
    + intros [H | [g' [[<- | Hg'] Hx]]].
      * left. now left.
      * left. now right.
      * right. exists g'. auto.
Qed.

Lemma set_add_NoDup (s : list Role) (r : Role) : NoDup s -> NoDup (set_add s r).
Proof.
  intros H. unfold set_add. destruct (existsb (Role_eqb r) s) eqn:E; [exact H |].
  apply NoDup_app; [exact H | repeat constructor; intros [] |].
  intros x Hx [Heq | []]. subst x.
  assert (existsb (Role_eqb r) s = true)
    by (apply existsb_exists; exists r; split; [exact Hx | now apply Role_eqb_eq]).
  congruence.
Qed.

Lemma set_add_all_NoDup (rs s : list Role) : NoDup s -> NoDup (set_add_all s rs).
Proof.
  unfold set_add_all. revert s.
  induction rs as [| r rs IH]; intros s H; simpl; [exact H |].
  apply IH. now apply set_add_NoDup.
Qed.

Lemma workspace_grants_NoDup (gs : list UserRole) (s : list Role) :
  NoDup s ->
  NoDup (fold_left (fun roles r => set_add_all roles (getImpliedRoles (ur_role r))) gs s).
Proof.
  revert s. induction gs as [| g gs IH]; intros s H; simpl; [exact H |].
  apply IH. now apply set_add_all_NoDup.
Qed.

End EffectiveRolesFacts.

(** X4.  [hasRoleOrHigher] answers [true] only when some grant that applies
    to the scope includes the required role.  It answers [true] whenever
    such a grant exists and all grants that apply are of the family of the
    required role.  A grant of the other family can hide it: with
    [ws:admin] on ['*'] and [org:admin] on [org1], [org:member] is not
    found at [org1]. *)
Theorem hasRoleOrHigher_spec :
  (forall (userRoles : list RoleHierarchy.UserRole) (required : RoleHierarchy.Role)
          (scope : string),
      RoleHierarchy.hasRoleOrHigher userRoles required scope = true ->
      exists g,
        In g userRoles
        /\ (RoleHierarchy.ur_scope g = scope \/ RoleHierarchy.ur_scope g = "*")
        /\ RoleHierarchy.roleIncludes (RoleHierarchy.ur_role g) required = true)
  /\ (forall (userRoles : list RoleHierarchy.UserRole) (required : RoleHierarchy.Role)
             (scope : string) (g : RoleHierarchy.UserRole),
         In g userRoles ->
         RoleHierarchy.ur_scope g = scope \/ RoleHierarchy.ur_scope g = "*" ->
         RoleHierarchy.roleIncludes (RoleHierarchy.ur_role g) required = true ->
         (forall g',
             In g' userRoles ->
             RoleHierarchy.ur_scope g' = scope \/ RoleHierarchy.ur_scope g' = "*" ->
             JS.startsWith (RoleHierarchy.role_str (RoleHierarchy.ur_role g')) "org:"
             = JS.startsWith (RoleHierarchy.role_str required) "org:") ->
         RoleHierarchy.hasRoleOrHigher userRoles required scope = true)
  /\ RoleHierarchy.hasRoleOrHigher
       [ RoleHierarchy.mkUserRole "u" RoleHierarchy.WsAdmin "*" 0 "system";
         RoleHierarchy.mkUserRole "u" RoleHierarchy.OrgAdmin "org1" 0 "system" ]
       RoleHierarchy.OrgMember "org1" = false.
Proof.
  split; [| split; [| reflexivity]].
  - intros userRoles required scope H. unfold RoleHierarchy.hasRoleOrHigher in H.
    destruct (RoleHierarchy.getHighestRole userRoles scope) as [h |] eqn:Eh;
      [| discriminate].
    destruct (proj1 (proj2 (getHighestRole_chosen userRoles scope) h Eh))
      as [g [Hg [Ha Hr]]].
    exists g. rewrite Hr. auto.
  - intros userRoles required scope g Hg Ha Hinc Hfam.
    unfold RoleHierarchy.hasRoleOrHigher.
    destruct (RoleHierarchy.getHighestRole userRoles scope) as [h |] eqn:Eh.
    + destruct (proj2 (getHighestRole_chosen userRoles scope) h Eh)
        as [[g' [Hg' [Ha' Hr']]] Hmax].
      specialize (Hmax g Hg Ha). specialize (Hfam g' Hg' Ha'). rewrite Hr' in Hfam.
      apply roleIncludes_level in Hinc.
      rewrite (proj2 (proj2 (proj2 (proj2 roleIncludes_order_laws))) h required Hfam).
      apply Z.leb_le. lia.
    + exfalso. exact (proj1 (proj1 (getHighestRole_chosen userRoles scope)) Eh g Hg Ha).
Qed.

Lemma hasRoleOrHigher_spec_witness :
  exists g,
    In g [RoleHierarchy.mkUserRole "u" RoleHierarchy.WsAdmin "ws1" 0 "system"]
    /\ (RoleHierarchy.ur_scope g = "ws1" \/ RoleHierarchy.ur_scope g = "*")
    /\ RoleHierarchy.roleIncludes (RoleHierarchy.ur_role g) RoleHierarchy.WsViewer = true.
Proof.
  apply (proj1 hasRoleOrHigher_spec
           [RoleHierarchy.mkUserRole "u" RoleHierarchy.WsAdmin "ws1" 0 "system"]
           RoleHierarchy.WsViewer "ws1").
  reflexivity.
Defined.

Lemma getEffectiveRoles_members :
  forall (userRoles : list RoleHierarchy.UserRole) (workspaceId orgId : string)
         (r : RoleHierarchy.Role),
    In r (RoleHierarchy.getEffectiveRoles userRoles workspaceId orgId)
    <-> (exists h,
            RoleHierarchy.getHighestRole userRoles orgId = Some h
            /\ (RoleHierarchy.roleIncludes h r = true
                \/ ((h = RoleHierarchy.OrgOwner \/ h = RoleHierarchy.OrgAdmin)
                    /\ (r = RoleHierarchy.WsAdmin \/ r = RoleHierarchy.WsMember
                        \/ r = RoleHierarchy.WsViewer))))
        \/ (exists g,
               In g userRoles
               /\ RoleHierarchy.ur_scope g = workspaceId
               /\ RoleHierarchy.roleIncludes (RoleHierarchy.ur_role g) r = true).
Proof.
  intros userRoles workspaceId orgId r. unfold RoleHierarchy.getEffectiveRoles.
  rewrite In_workspace_grants.
  assert (Hws : (exists g, In g (filter (fun g => (RoleHierarchy.ur_scope g =? workspaceId)%string)
                                        userRoles)
                           /\ In r (RoleHierarchy.getImpliedRoles (RoleHierarchy.ur_role g)))
                <-> (exists g, In g userRoles /\ RoleHierarchy.ur_scope g = workspaceId
                               /\ RoleHierarchy.roleIncludes (RoleHierarchy.ur_role g) r = true)).
  { split; intros [g H]; exists g.
    - rewrite filter_In, String.eqb_eq, implied_iff_includes in H. tauto.
    - rewrite filter_In, String.eqb_eq, implied_iff_includes. tauto. }
  rewrite Hws. clear Hws.
  apply or_iff_compat_r.
  destruct (RoleHierarchy.getHighestRole userRoles orgId) as [h |].
  - destruct (RoleHierarchy.Role_eqb h RoleHierarchy.OrgOwner
              || RoleHierarchy.Role_eqb h RoleHierarchy.OrgAdmin) eqn:E.
    + rewrite !In_set_add, In_set_add_all, implied_iff_includes.
      apply orb_true_iff in E. rewrite !Role_eqb_eq in E. split.
      * intros [[[[[] | H] | H] | H] | H]; exists h; split; try reflexivity; tauto.
      * intros [h' [Hh' H]]. injection Hh' as <-. simpl. tauto.
    + rewrite In_set_add_all, implied_iff_includes.
      apply orb_false_iff in E. destruct E as [E1 E2].
      split.
      * intros [[] | H]. exists h. auto.
      * intros [h' [Hh' H]]. injection Hh' as <-.
        destruct H as [H | [[-> | ->] _]];
          [now right | discriminate E1 | discriminate E2].
  - split; [intros [] | intros [h' [Hh' _]]; discriminate].
Qed.

(** X5.  The effective roles are exactly: the roles included by the highest
    role at the organisation; the three workspace roles when that role is
    [org:owner] or [org:admin]; and the roles included by a grant whose
    scope is the workspace itself.  Nothing else is ever added, and a grant
    on ['*'] alone gives no role through the workspace branch. *)
Theorem getEffectiveRoles_spec :
  forall (userRoles : list RoleHierarchy.UserRole) (workspaceId orgId : string)
         (r : RoleHierarchy.Role),
    In r (RoleHierarchy.getEffectiveRoles userRoles workspaceId orgId)
    <-> (exists h,
            RoleHierarchy.getHighestRole userRoles orgId = Some h
            /\ (RoleHierarchy.roleIncludes h r = true
                \/ ((h = RoleHierarchy.OrgOwner \/ h = RoleHierarchy.OrgAdmin)
                    /\ (r = RoleHierarchy.WsAdmin \/ r = RoleHierarchy.WsMember
                        \/ r = RoleHierarchy.WsViewer))))
        \/ (exists g,
               In g userRoles
               /\ RoleHierarchy.ur_scope g = workspaceId
               /\ RoleHierarchy.roleIncludes (RoleHierarchy.ur_role g) r = true).
Proof. exact getEffectiveRoles_members. Qed.

Lemma getEffectiveRoles_spec_witness :
  In RoleHierarchy.WsViewer
     (RoleHierarchy.getEffectiveRoles
        [RoleHierarchy.mkUserRole "u" RoleHierarchy.WsMember "ws1" 0 "system"]
        "ws1" "org1").
Proof.
  apply (proj2 (getEffectiveRoles_spec
                  [RoleHierarchy.mkUserRole "u" RoleHierarchy.WsMember "ws1" 0 "system"]
                  "ws1" "org1" RoleHierarchy.WsViewer)).
  right. exists (RoleHierarchy.mkUserRole "u" RoleHierarchy.WsMember "ws1" 0 "system").
  simpl. auto.
Defined.

(** X6.  The effective roles hold no role twice and are closed under
    inclusion: with a role come all the roles it includes. *)
Theorem getEffectiveRoles_closed :
  forall (userRoles : list RoleHierarchy.UserRole) (workspaceId orgId : string),
    NoDup (RoleHierarchy.getEffectiveRoles userRoles workspaceId orgId)
    /\ (forall r r',
           In r (RoleHierarchy.getEffectiveRoles userRoles workspaceId orgId) ->
           RoleHierarchy.roleIncludes r r' = true ->
           In r' (RoleHierarchy.getEffectiveRoles userRoles workspaceId orgId)).
Proof.
  intros userRoles workspaceId orgId. split.
  - unfold RoleHierarchy.getEffectiveRoles. apply workspace_grants_NoDup.
    destruct (RoleHierarchy.getHighestRole userRoles orgId) as [h |]; [| constructor].
    destruct (_ || _); repeat apply set_add_NoDup; apply set_add_all_NoDup; constructor.
  - intros r r' Hr Hinc. rewrite getEffectiveRoles_members in *.
    destruct Hr as [[h [Hh [H | [Hesc Hws]]]] | [g [Hg [Hs H]]]].
    + left. exists h. split; [exact Hh | left]. now apply roleIncludes_trans with r.
    + left. exists h. split; [exact Hh | right]. split; [exact Hesc |].
      destruct Hws as [-> | [-> | ->]]; destruct r'; try discriminate; auto.
    + right. exists g. repeat split; auto. now apply roleIncludes_trans with r.
Qed.

Lemma getEffectiveRoles_closed_witness :
  In RoleHierarchy.OrgMember
     (RoleHierarchy.getEffectiveRoles
        [RoleHierarchy.mkUserRole "u" RoleHierarchy.OrgAdmin "org1" 0 "system"]
        "ws1" "org1").
Proof.
  apply (proj2 (getEffectiveRoles_closed
                  [RoleHierarchy.mkUserRole "u" RoleHierarchy.OrgAdmin "org1" 0 "system"]
                  "ws1" "org1")
               RoleHierarchy.OrgAdmin RoleHierarchy.OrgMember).
  - simpl. tauto.
  - reflexivity.
Defined.

(** * Further properties of the permission engine *)

Section EngineCacheFacts.
Import Rbac PermissionEngine.

(** Properties of the entries that the [Map] operations keep. *)
Section EntryInvariant.
Variable P : string * PolicyCache.CacheEntry -> Prop.

Lemma map_delete_Forall (key : string) (m : PolicyCache.JsMap) :
  Forall P m -> Forall P (PolicyCache.map_delete key m).
Proof.
  unfold PolicyCache.map_delete. intros H. apply Forall_forall. intros x Hx.
  apply filter_In in Hx. destruct Hx as [Hx _]. revert x Hx. now apply Forall_forall.
Qed.

Lemma evict_fold_Forall (doomed m : PolicyCache.JsMap) :
  Forall P m ->
  Forall P (fold_left (fun m kv => PolicyCache.map_delete (fst kv) m) doomed m).
Proof.
  revert m. induction doomed as [| d doomed IH]; simpl; intros m H; [exact H |].
  apply IH. now apply map_delete_Forall.
Qed.

Lemma map_set_Forall (key : string) (e : PolicyCache.CacheEntry) (m : PolicyCache.JsMap) :
  P (key, e) -> Forall P m -> Forall P (PolicyCache.map_set key e m).
Proof.
  intros He. induction m as [| [k e'] m IH]; simpl; intros H.
  - constructor; [exact He | constructor].
  - inversion H as [| ? ? Hhd Htl]; subst.
    destruct (k =? key)%string eqn:E.
    + apply String.eqb_eq in E. subst k. constructor; assumption.
    + constructor; [assumption | now apply IH].
Qed.

Lemma cache_set_Forall (now : Z) (key : string) (d : AccessDecision) (c : PolicyCache.t) :
  (forall e, PolicyCache.value e = d -> P (key, e)) ->
  Forall P (PolicyCache.cache c) ->
  Forall P (PolicyCache.cache (PolicyCache.set now key d c)).
Proof.
  intros Hd H. unfold PolicyCache.set. simpl. apply map_set_Forall.
  - now apply Hd.
  - destruct (PolicyCache.size c >=? PolicyCache.maxSize c); [| exact H].
    unfold PolicyCache.evictOldest. simpl. now apply evict_fold_Forall.
Qed.

Lemma cache_get_Forall (now : Z) (key : string) (c : PolicyCache.t) :
  Forall P (PolicyCache.cache c) ->
  Forall P (PolicyCache.cache (snd (PolicyCache.get now key c))).
Proof.
  intros H. unfold PolicyCache.get.
  destruct (PolicyCache.map_get key (PolicyCache.cache c)) as [entry |]; simpl; [| exact H].
  destruct (now >? PolicyCache.expiresAt entry); simpl; [| exact H].
  now apply map_delete_Forall.
Qed.

End EntryInvariant.

Lemma map_get_In (key : string) (m : PolicyCache.JsMap) (e : PolicyCache.CacheEntry) :
  PolicyCache.map_get key m = Some e -> In (key, e) m.
Proof.
  induction m as [| [k e'] m IH]; simpl; [discriminate |].
  destruct (k =? key)%string eqn:E.
  - apply String.eqb_eq in E. subst k. intros H. injection H as <-. now left.
  - intros H. right. now apply IH.
Qed.

Lemma map_get_set_same (key : string) (e : PolicyCache.CacheEntry) (m : PolicyCache.JsMap) :
  PolicyCache.map_get key (PolicyCache.map_set key e m) = Some e.
Proof.
  induction m as [| [k e'] m IH]; simpl.
  - now rewrite String.eqb_refl.
  - destruct (k =? key)%string eqn:E; simpl; rewrite E; [reflexivity | exact IH].
Qed.

(** The permission of every default table has scope ['*'] or
    ['workspace']. *)
Lemma default_scopes (role : RoleHierarchy.Role) (p : Permission) :
  In p (DEFAULT_PERMISSIONS role) -> scope p = "*" \/ scope p = "workspace".
Proof.
  destruct role; simpl; intros H;
    repeat (destruct H as [<- | H]; [simpl; auto |]); contradiction.
Qed.

Lemma defaultPermMatches_scope (resource action s1 s2 : string) (p : Permission) :
  scope p = "*" \/ scope p = "workspace" ->
  defaultPermMatches resource action s1 p = defaultPermMatches resource action s2 p.
Proof.
  intros [H | H]; unfold defaultPermMatches; rewrite H; simpl;
    now rewrite ?orb_true_r.
Qed.

Lemma existsb_ext_in {A : Type} (f g : A -> bool) (l : list A) :
  (forall x, In x l -> f x = g x) -> existsb f l = existsb g l.
Proof.
  induction l as [| x l IH]; simpl; intros H; [reflexivity |].
  rewrite (H x) by now left. rewrite IH; [reflexivity |].
  intros y Hy. apply H. now right.
Qed.

(** With no effective role no policy applies. *)
Lemma scanPolicies_no_roles (policies : list PolicyRule) (resource action scope : string) :
  scanPolicies policies [] resource action scope = None.
Proof.
  induction policies as [| p ps IH]; simpl; [reflexivity |].
  assert (H : existsb (fun _ : string => false) (roles p) = false)
    by (induction (roles p) as [| x l IHl]; simpl; [reflexivity | exact IHl]).
  rewrite H. exact IH.
Qed.

(** The cache key of a caller with some effective role starts with the
    name of a role, not with ['-']. *)
Lemma cacheKey_with_roles (r : RoleHierarchy.Role) (rs : list RoleHierarchy.Role)
      (rest : string) :
  String.prefix "-" (JS.join "," (map RoleHierarchy.role_str (r :: rs)) ++ rest) = false.
Proof. destruct r, rs; reflexivity. Qed.

End EngineCacheFacts.

Section EngineRunFacts.
Import Rbac PermissionEngine.

Lemma checkPermission_roleless (nowGet nowSet : Z) (e : Engine) (context : PermissionContext)
      (resource action : string) (targetScope : option string) :
  Forall roleless_denied (PolicyCache.cache (policyCache e)) ->
  Forall roleless_denied
    (PolicyCache.cache (policyCache
       (snd (checkPermission nowGet nowSet e context resource action targetScope)))).
Proof.
  intros Hok. unfold checkPermission.
  destruct (checkDefaultPermissions _ _ _ _); simpl; [exact Hok |].
  destruct (policies context) as [[| p ps] |]; simpl; try exact Hok.
  unfold checkPolicies.
  set (roles := RoleHierarchy.getEffectiveRoles _ _ _).
  set (scope := JS.or_str targetScope _).
  set (key := (JS.join "," (map RoleHierarchy.role_str roles) ++ "-" ++ resource
               ++ "-" ++ action ++ "-" ++ scope)%string).
  pose proof (cache_get_Forall roleless_denied nowGet key (policyCache e) Hok) as Hc.
  destruct (PolicyCache.get nowGet key (policyCache e)) as [[cached |] c];
    cbn [fst snd policyCache] in *; [exact Hc |].
  destruct roles as [| r rs] eqn:Er.
  - rewrite scanPolicies_no_roles. cbn [fst snd policyCache].
    apply cache_set_Forall; [| exact Hc].
    intros en Hen _. cbn [fst snd]. now rewrite Hen.
  - assert (Hkey : String.prefix "-" key = false) by apply cacheKey_with_roles.
    destruct (scanPolicies _ _ _ _ _); cbn [fst snd policyCache];
      (apply cache_set_Forall; [| exact Hc]);
      intros en _ Hp; cbn [fst snd] in Hp; congruence.
Qed.

Lemma run_roleless (calls : list Call) (e : Engine) :
  Forall roleless_denied (PolicyCache.cache (policyCache e)) ->
  Forall roleless_denied (PolicyCache.cache (policyCache (snd (run calls e)))).
Proof.
  revert e. induction calls as [| c calls IH]; intros e Hok; simpl; [exact Hok |].
  destruct c as [nowGet nowSet context resource action targetScope |].
  - pose proof (checkPermission_roleless nowGet nowSet e context resource action
                  targetScope Hok) as Hc.
    destruct (checkPermission nowGet nowSet e context resource action targetScope)
      as [d e'].
    specialize (IH e' Hc). destruct (run calls e') as [ds e'']. exact IH.
  - apply IH. simpl. constructor.
Qed.

Lemma roleless_query_denied (nowGet nowSet : Z) (e : Engine) (context : PermissionContext)
      (resource action : string) (targetScope : option string) :
  Forall roleless_denied (PolicyCache.cache (policyCache e)) ->
  RoleHierarchy.getEffectiveRoles (userRoles context)
    (JS.or_str (workspaceId context) "") (orgId context) = [] ->
  granted (fst (checkPermission nowGet nowSet e context resource action targetScope))
  = false.
Proof.
  intros Hok Hroles. unfold checkPermission. rewrite Hroles.
  cbn [checkDefaultPermissions existsb].
  destruct (policies context) as [[| p ps] |]; try reflexivity.
  unfold checkPolicies. rewrite scanPolicies_no_roles.
  cbn [map JS.join].
  set (key := ("" ++ "-" ++ resource ++ "-" ++ action ++ "-" ++ _)%string).
  unfold PolicyCache.get.
  destruct (PolicyCache.map_get key (PolicyCache.cache (policyCache e)))
    as [entry |] eqn:Eg; [| reflexivity].
  destruct (nowGet >? PolicyCache.expiresAt entry); [reflexivity |].
  cbn [fst]. apply map_get_In in Eg. rewrite Forall_forall in Hok.
  apply (Hok (key, entry) Eg). unfold key. simpl. now destruct resource.
Qed.

End EngineRunFacts.

(** X7.  The default grant check does not depend on the scope asked for:
    every permission of the default tables has scope ['*'] or
    ['workspace'], and both match any scope. *)
Theorem default_grants_ignore_scope :
  forall (roles : list RoleHierarchy.Role) (resource action s1 s2 : string),
    PermissionEngine.checkDefaultPermissions roles resource action s1
    = PermissionEngine.checkDefaultPermissions roles resource action s2.
Proof.
  intros roles resource action s1 s2. unfold PermissionEngine.checkDefaultPermissions.
  apply existsb_ext_in. intros role _.
  apply existsb_ext_in. intros p Hp.
  apply defaultPermMatches_scope. now apply (default_scopes role).
Qed.

(** X8.  A caller without effective roles is never granted anything: on an
    engine reached from a new one by any calls, and whatever policies the
    context carries, [checkPermission] answers [granted = false]. *)
Theorem no_roles_never_granted :
  forall (cacheTtlMs : option Z) (calls : list PermissionEngine.Call)
         (nowGet nowSet : Z) (context : PermissionEngine.PermissionContext)
         (resource action : string) (targetScope : option string),
    RoleHierarchy.getEffectiveRoles
      (PermissionEngine.userRoles context)
      (JS.or_str (PermissionEngine.workspaceId context) "")
      (PermissionEngine.orgId context) = [] ->
    Rbac.granted
      (fst (PermissionEngine.checkPermission nowGet nowSet
              (snd (PermissionEngine.run calls (PermissionEngine.new cacheTtlMs)))
              context resource action targetScope))
    = false.
Proof.
  intros cacheTtlMs calls nowGet nowSet context resource action targetScope Hroles.
  apply roleless_query_denied; [| exact Hroles].
  apply run_roleless. simpl. constructor.
Qed.

Lemma no_roles_never_granted_witness :
  Rbac.granted
    (fst (PermissionEngine.checkPermission 5 6
            (snd (PermissionEngine.run [] (PermissionEngine.new None)))
            {| PermissionEngine.userId := "user1";
               PermissionEngine.orgId := "org1";
               PermissionEngine.workspaceId := Some "ws1";
               PermissionEngine.userRoles :=
                 [RoleHierarchy.mkUserRole "user1" RoleHierarchy.WsAdmin "ws2" 0 "owner"];
               PermissionEngine.policies :=
                 Some [ {| Rbac.id := "p1"; Rbac.name := "all"; Rbac.description := "";
                           Rbac.roles := ["ws:admin"];
                           Rbac.permissions := [PermissionEngine.perm "*" "*" "*"];
                           Rbac.approvalRequired := false;
                           Rbac.alertRecipients := None |} ] |}
            "tool" "execute" None))
  = false.
Proof.
  apply (no_roles_never_granted None [] 5 6). reflexivity.
Defined.

(** X9.  The cache key holds the effective roles, the resource, the action
    and the scope, not the policies.  After a policy-path decision on an
    engine whose cache was empty, a second call for the same caller and
    request that comes no later than [ttlMs] after the first was cached
    returns that first decision, whatever (non-empty) policies it
    carries. *)
Theorem cached_decision_ignores_policies :
  forall (e : PermissionEngine.Engine) (context : PermissionEngine.PermissionContext)
         (resource action : string) (targetScope : option string)
         (p1 p2 : Rbac.PolicyRule) (ps1 ps2 : list Rbac.PolicyRule)
         (nowGet1 nowSet1 nowGet2 nowSet2 : Z),
    PolicyCache.cache (PermissionEngine.policyCache e) = [] ->
    PermissionEngine.checkDefaultPermissions
      (RoleHierarchy.getEffectiveRoles
         (PermissionEngine.userRoles context)
         (JS.or_str (PermissionEngine.workspaceId context) "")
         (PermissionEngine.orgId context))
      resource action
      (JS.or_str targetScope
                 (JS.or_str (PermissionEngine.workspaceId context)
                            (PermissionEngine.orgId context))) = false ->
    nowGet2 <= nowSet1 + PolicyCache.ttlMs (PermissionEngine.policyCache e) ->
    let first :=
      PermissionEngine.checkPermission nowGet1 nowSet1 e
        (with_policies context (Some (p1 :: ps1))) resource action targetScope in
    fst (PermissionEngine.checkPermission nowGet2 nowSet2 (snd first)
           (with_policies context (Some (p2 :: ps2))) resource action targetScope)
    = fst first.
Proof.
  intros e context resource action targetScope p1 p2 ps1 ps2
         nowGet1 nowSet1 nowGet2 nowSet2 Hempty Hdef Httl.
  unfold PermissionEngine.checkPermission, with_policies.
  cbn [PermissionEngine.userRoles PermissionEngine.workspaceId PermissionEngine.orgId
       PermissionEngine.policies].
  rewrite Hdef. unfold PermissionEngine.checkPolicies.
  set (roles := RoleHierarchy.getEffectiveRoles _ _ _).
  set (scope := JS.or_str targetScope _).
  set (key := (JS.join "," (map RoleHierarchy.role_str roles) ++ "-" ++ resource
               ++ "-" ++ action ++ "-" ++ scope)%string).
  assert (Hmiss : exists c0,
             PolicyCache.get nowGet1 key (PermissionEngine.policyCache e) = (None, c0)
             /\ PolicyCache.ttlMs c0 = PolicyCache.ttlMs (PermissionEngine.policyCache e)).
  { unfold PolicyCache.get. rewrite Hempty. cbn [PolicyCache.map_get].
    eexists. split; reflexivity. }
  destruct Hmiss as [c0 [Hmiss Httl0]]. rewrite Hmiss.
  assert (Hhit : forall d,
             fst (PolicyCache.get nowGet2 key (PolicyCache.set nowSet1 key d c0)) = Some d).
  { intros d. unfold PolicyCache.get, PolicyCache.set. cbn [PolicyCache.cache].
    rewrite map_get_set_same. cbn [PolicyCache.expiresAt].
    replace (PolicyCache.ttlMs (if PolicyCache.size c0 >=? PolicyCache.maxSize c0
                                then PolicyCache.evictOldest c0 else c0))
      with (PolicyCache.ttlMs (PermissionEngine.policyCache e))
      by (destruct (PolicyCache.size c0 >=? PolicyCache.maxSize c0);
          rewrite <- Httl0; reflexivity).
    rewrite (not_past_due _ _ Httl). reflexivity. }
  destruct (PermissionEngine.scanPolicies (p1 :: ps1) roles resource action scope) as [d |];
    cbn [fst snd PermissionEngine.policyCache].
  - specialize (Hhit d).
    destruct (PolicyCache.get nowGet2 key (PolicyCache.set nowSet1 key d c0))
      as [[cached |] c1]; cbn [fst] in *; congruence.
  - match goal with
    | |- context [PolicyCache.set nowSet1 key ?d c0] => specialize (Hhit d)
    end.
    destruct (PolicyCache.get nowGet2 key _)
      as [[cached |] c1]; cbn [fst] in *; congruence.
Qed.

(** X9, on the viewer of the end-to-end scenario: a rule grants
    [tool]/[execute]; the rule set is then replaced by one that grants
    nothing, and the grant is still returned within the TTL. *)
Lemma cached_decision_ignores_policies_witness :
  let context :=
    {| PermissionEngine.userId := "user1";
       PermissionEngine.orgId := "org1";
       PermissionEngine.workspaceId := Some "ws1";
       PermissionEngine.userRoles :=
         [RoleHierarchy.mkUserRole "user1" RoleHierarchy.WsViewer "ws1" 0 "admin"];
       PermissionEngine.policies := None |} in
  let allow :=
    {| Rbac.id := "policy1"; Rbac.name := "viewer tools"; Rbac.description := "";
       Rbac.roles := ["ws:viewer"];
       Rbac.permissions := [PermissionEngine.perm "tool" "execute" "ws1"];
       Rbac.approvalRequired := true; Rbac.alertRecipients := None |} in
  let other :=
    {| Rbac.id := "policy2"; Rbac.name := "nothing"; Rbac.description := "";
       Rbac.roles := ["org:admin"];
       Rbac.permissions := [];
       Rbac.approvalRequired := false; Rbac.alertRecipients := None |} in
  let first :=
    PermissionEngine.checkPermission 0 0 (PermissionEngine.new None)
      (with_policies context (Some [allow])) "tool" "execute" (Some "ws1") in
  Rbac.granted
    (fst (PermissionEngine.checkPermission 1000 1000 (snd first)
            (with_policies context (Some [other])) "tool" "execute" (Some "ws1")))
  = true.
Proof.
  intros context allow other first. unfold first.
  rewrite (cached_decision_ignores_policies (PermissionEngine.new None) context
             "tool" "execute" (Some "ws1") allow other [] [] 0 0 1000 1000);
    [reflexivity | reflexivity | reflexivity | simpl; lia].
Defined.

Section EngineBoundFacts.
Import Rbac PermissionEngine.

Lemma cache_get_size (now : Z) (key : string) (c : PolicyCache.t) :
  PolicyCache.maxSize (snd (PolicyCache.get now key c)) = PolicyCache.maxSize c
  /\ PolicyCache.size (snd (PolicyCache.get now key c)) <= PolicyCache.size c
  /\ (distinct_keys (PolicyCache.cache c) ->
      distinct_keys (PolicyCache.cache (snd (PolicyCache.get now key c)))).
Proof.
  unfold PolicyCache.get, PolicyCache.size.
  destruct (PolicyCache.map_get key (PolicyCache.cache c)) as [entry |]; simpl;
    [| repeat split; auto; lia].
  destruct (now >? PolicyCache.expiresAt entry); simpl; [| repeat split; auto; lia].
  repeat split.
  - pose proof (map_delete_length_le key (PolicyCache.cache c)). lia.
  - apply map_delete_distinct.
Qed.

Lemma set_distinct (now : Z) (key : string) (d : AccessDecision) (c : PolicyCache.t) :
  distinct_keys (PolicyCache.cache c) ->
  distinct_keys (PolicyCache.cache (PolicyCache.set now key d c)).
Proof.
  intros H. apply (set_all_distinct [(now, key, d)] c H).
Qed.

Lemma checkPermission_bound (nowGet nowSet : Z) (e : Engine) (context : PermissionContext)
      (resource action : string) (targetScope : option string) (bound : Z) :
  1 <= bound ->
  PolicyCache.maxSize (policyCache e) = bound ->
  PolicyCache.size (policyCache e) <= bound ->
  distinct_keys (PolicyCache.cache (policyCache e)) ->
  let e' := snd (checkPermission nowGet nowSet e context resource action targetScope) in
  PolicyCache.maxSize (policyCache e') = bound
  /\ PolicyCache.size (policyCache e') <= bound
  /\ distinct_keys (PolicyCache.cache (policyCache e')).
Proof.
  intros Hb Hmax Hsize Hnd. unfold checkPermission.
  destruct (checkDefaultPermissions _ _ _ _); cbn [snd]; [auto |].
  destruct (policies context) as [[| p ps] |]; cbn [snd]; auto.
  unfold checkPolicies.
  set (key := (_ ++ _)%string).
  destruct (cache_get_size nowGet key (policyCache e)) as [Hm [Hs Hd]].
  specialize (Hd Hnd).
  destruct (PolicyCache.get nowGet key (policyCache e)) as [[cached |] c];
    cbn [fst snd policyCache] in *.
  - repeat split; [congruence | lia | exact Hd].
  - assert (Hset : forall d,
               PolicyCache.maxSize (PolicyCache.set nowSet key d c) = bound
               /\ PolicyCache.size (PolicyCache.set nowSet key d c) <= bound
               /\ distinct_keys (PolicyCache.cache (PolicyCache.set nowSet key d c))).
    { intros d.
      destruct (set_keeps_bound nowSet key d c) as [H1 H2]; [lia | lia |].
      repeat split; [congruence | lia | now apply set_distinct]. }
    destruct (scanPolicies _ _ _ _ _); cbn [fst snd policyCache]; apply Hset.
Qed.

End EngineBoundFacts.

(** X10.  The cache of an engine made by [new PermissionEngine(ttl)] never
    holds more than 10000 decisions, and never two under one key, whatever
    calls are made. *)
Theorem engine_cache_bounded :
  forall (cacheTtlMs : option Z) (calls : list PermissionEngine.Call),
    let e := snd (PermissionEngine.run calls (PermissionEngine.new cacheTtlMs)) in
    PolicyCache.size (PermissionEngine.policyCache e) <= 10000
    /\ distinct_keys (PolicyCache.cache (PermissionEngine.policyCache e)).
Proof.
  intros cacheTtlMs calls.
  assert (H : forall e,
             PolicyCache.maxSize (PermissionEngine.policyCache e) = 10000 ->
             PolicyCache.size (PermissionEngine.policyCache e) <= 10000 ->
             distinct_keys (PolicyCache.cache (PermissionEngine.policyCache e)) ->
             PolicyCache.size (PermissionEngine.policyCache
                                 (snd (PermissionEngine.run calls e))) <= 10000
             /\ distinct_keys (PolicyCache.cache (PermissionEngine.policyCache
                                 (snd (PermissionEngine.run calls e))))).
  { induction calls as [| c calls IH]; intros e Hm Hs Hd; simpl; [auto |].
    destruct c as [nowGet nowSet context resource action targetScope |].
    - destruct (checkPermission_bound nowGet nowSet e context resource action targetScope
                  10000 ltac:(lia) Hm Hs Hd) as [Hm' [Hs' Hd']].
      destruct (PermissionEngine.checkPermission nowGet nowSet e context resource action
                  targetScope) as [d e'].
      cbn [snd] in *. specialize (IH e' Hm' Hs' Hd').
      destruct (PermissionEngine.run calls e') as [ds e'']. exact IH.
    - apply IH; [exact Hm | unfold PolicyCache.size; simpl; lia | constructor]. }
  apply H; [reflexivity | unfold PolicyCache.size; simpl; lia | constructor].
Qed.

(** * Further properties of the policy cache *)

Section CacheLookupFacts.
Import PolicyCache.

Lemma map_get_delete_same (key : string) (m : JsMap) :
  map_get key (map_delete key m) = None.
Proof.
  unfold map_delete. induction m as [| [k e] m IH]; simpl; [reflexivity |].
  destruct (k =? key)%string eqn:E; simpl; [exact IH |].
  rewrite E. exact IH.
Qed.

Lemma map_get_delete_other (key k : string) (m : JsMap) :
  k <> key -> map_get k (map_delete key m) = map_get k m.
Proof.
  intros Hne. unfold map_delete. induction m as [| [k' e] m IH]; simpl; [reflexivity |].
  destruct (k' =? key)%string eqn:E; simpl.
  - apply String.eqb_eq in E. subst k'.
    rewrite (proj2 (String.eqb_neq key k)) by congruence. exact IH.
  - destruct (k' =? k)%string; [reflexivity | exact IH].
Qed.

Lemma set_ttl (now : Z) (key : string) (v : Rbac.AccessDecision) (c : t) :
  ttlMs (set now key v c) = ttlMs c.
Proof.
  unfold set. simpl. destruct (size c >=? maxSize c); reflexivity.
Qed.

Lemma filter_filter_and {A : Type} (f g : A -> bool) (l : list A) :
  filter f (filter g l) = filter (fun x => g x && f x) l.
Proof.
  induction l as [| x l IH]; simpl; [reflexivity |].
  destruct (g x); simpl; [destruct (f x) |]; now rewrite IH.
Qed.

(** Deleting the keys of the entries of [l] that satisfy [doomed] removes
    from [m] the entries whose key is the key of such an entry. *)
Lemma delete_where (doomed : string * CacheEntry -> bool) (l m : JsMap) :
  fold_left (fun m kv => if doomed kv then map_delete (fst kv) m else m) l m
  = filter (fun x => negb (existsb (fun kv => doomed kv && (fst kv =? fst x)%string) l)) m.
Proof.
  revert m. induction l as [| kv l IH]; intros m; simpl.
  - induction m as [| x m IHm]; simpl; [reflexivity | now rewrite <- IHm].
  - rewrite IH. destruct (doomed kv); simpl.
    + unfold map_delete. rewrite filter_filter_and.
      apply filter_ext. intros x.
      rewrite (String.eqb_sym (fst kv) (fst x)).
      destruct (fst x =? fst kv)%string; reflexivity.
    + reflexivity.
Qed.

End CacheLookupFacts.

(** X11.  A decision put into the cache is returned by [get] under the same
    key, as a hit, up to and including [ttlMs] after the [set]; later the
    lookup misses and removes the entry. *)
Theorem cache_set_get :
  forall (nowSet nowGet : Z) (key : string) (v : Rbac.AccessDecision) (c : PolicyCache.t),
    let out := PolicyCache.get nowGet key (PolicyCache.set nowSet key v c) in
    (nowGet <= nowSet + PolicyCache.ttlMs c ->
     fst out = Some v /\ PolicyCache.hits (snd out) = PolicyCache.hits c + 1)
    /\ (nowGet > nowSet + PolicyCache.ttlMs c ->
        fst out = None
        /\ PolicyCache.map_get key (PolicyCache.cache (snd out)) = None).
Proof.
  intros nowSet nowGet key v c out. unfold out, PolicyCache.get.
  assert (Hget : PolicyCache.map_get key (PolicyCache.cache (PolicyCache.set nowSet key v c))
                 = Some {| PolicyCache.value := v;
                           PolicyCache.expiresAt := nowSet + PolicyCache.ttlMs c |}).
  { unfold PolicyCache.set. cbn [PolicyCache.cache]. rewrite map_get_set_same.
    destruct (PolicyCache.size c >=? PolicyCache.maxSize c); reflexivity. }
  rewrite Hget. cbn [PolicyCache.expiresAt PolicyCache.value]. split; intros H.
  - rewrite (not_past_due _ _ H). cbn [fst snd PolicyCache.hits]. split; [reflexivity |].
    unfold PolicyCache.set. cbn [PolicyCache.hits].
    destruct (PolicyCache.size c >=? PolicyCache.maxSize c); reflexivity.
  - rewrite (past_due _ _ H). cbn [fst snd PolicyCache.cache]. split; [reflexivity |].
    apply map_get_delete_same.
Qed.

Lemma cache_set_get_witness :
  fst (PolicyCache.get 1000 "key1"
         (PolicyCache.set 0 "key1" some_decision (PolicyCache.new (Some 1000) (Some 100))))
  = Some some_decision.
Proof.
  apply (proj1 (cache_set_get 0 1000 "key1" some_decision
                  (PolicyCache.new (Some 1000) (Some 100)))).
  simpl. lia.
Defined.

(** X12.  Every [get] counts exactly once, as a hit or as a miss.  After a
    miss the key is absent (an expired entry is deleted on the way); a hit
    leaves the map as it was; the entries under other keys are never
    touched. *)
Theorem cache_get_accounting :
  forall (now : Z) (key : string) (c : PolicyCache.t),
    let out := PolicyCache.get now key c in
    (fst out = None ->
     PolicyCache.misses (snd out) = PolicyCache.misses c + 1
     /\ PolicyCache.hits (snd out) = PolicyCache.hits c
     /\ PolicyCache.map_get key (PolicyCache.cache (snd out)) = None)
    /\ (forall d,
           fst out = Some d ->
           PolicyCache.hits (snd out) = PolicyCache.hits c + 1
           /\ PolicyCache.misses (snd out) = PolicyCache.misses c
           /\ PolicyCache.cache (snd out) = PolicyCache.cache c)
    /\ (forall k,
           k <> key ->
           PolicyCache.map_get k (PolicyCache.cache (snd out))
           = PolicyCache.map_get k (PolicyCache.cache c)).
Proof.
  intros now key c out. unfold out, PolicyCache.get.
  destruct (PolicyCache.map_get key (PolicyCache.cache c)) as [entry |] eqn:E.
  - destruct (now >? PolicyCache.expiresAt entry); cbn [fst snd]; repeat split;
      try discriminate; try reflexivity.
    + apply map_get_delete_same.
    + intros k Hk. now apply map_get_delete_other.
  - cbn [fst snd]. repeat split; try discriminate; try reflexivity. exact E.
Qed.

Lemma cache_get_accounting_witness :
  PolicyCache.misses
    (snd (PolicyCache.get 0 "absent" (PolicyCache.new None None))) = 1.
Proof.
  apply (proj1 (cache_get_accounting 0 "absent" (PolicyCache.new None None))).
  reflexivity.
Defined.

(** X13.  On a map with distinct keys [clearExpired] removes exactly the
    entries whose [expiresAt] lies before [now] and keeps the others in
    their order. *)
Theorem clearExpired_spec :
  forall (now : Z) (c : PolicyCache.t),
    distinct_keys (PolicyCache.cache c) ->
    PolicyCache.cache (PolicyCache.clearExpired now c)
    = filter (fun kv => negb (now >? PolicyCache.expiresAt (snd kv))) (PolicyCache.cache c).
Proof.
  intros now c Hnd. unfold PolicyCache.clearExpired. cbn [PolicyCache.cache].
  rewrite (delete_where (fun kv => now >? PolicyCache.expiresAt (snd kv))).
  apply filter_ext_in. intros x Hx. f_equal.
  destruct (now >? PolicyCache.expiresAt (snd x)) eqn:E.
  - apply existsb_exists. exists x. rewrite E, String.eqb_refl. auto.
  - destruct (existsb _ _) eqn:Ex; [| reflexivity].
    apply existsb_exists in Ex. destruct Ex as [kv [Hkv Hb]].
    apply andb_true_iff in Hb. destruct Hb as [Hexp Hk]. apply String.eqb_eq in Hk.
    rewrite (distinct_keys_inj _ kv x Hnd Hkv Hx Hk) in Hexp. congruence.
Qed.

Lemma clearExpired_spec_witness :
  PolicyCache.cache
    (PolicyCache.clearExpired 1500
       (PolicyCache.set 1000 "late" some_decision
          (PolicyCache.set 0 "early" some_decision
             (PolicyCache.new (Some 1000) (Some 100)))))
  = [("late", {| PolicyCache.value := some_decision; PolicyCache.expiresAt := 2000 |})].
Proof.
  rewrite clearExpired_spec; [reflexivity |].
  repeat constructor; simpl; intuition discriminate.
Defined.

Section InvalidateFacts.
Import PolicyCache PolicyCacheInvalidation.

Lemma filter_partition_length {A : Type} (f : A -> bool) (l : list A) :
  (List.length (filter f l) + List.length (filter (fun x => negb (f x)) l)
   = List.length l)%nat.
Proof.
  induction l as [| x l IH]; simpl; [reflexivity |].
  destruct (f x); simpl; lia.
Qed.

Lemma invalidate_loop (test : string -> bool) (l m : JsMap) (n : Z) :
  fold_left
    (fun (st : JsMap * Z) kv =>
       if test (fst kv) then (map_delete (fst kv) (fst st), snd st + 1) else st)
    l (m, n)
  = (fold_left (fun m kv => if test (fst kv) then map_delete (fst kv) m else m) l m,
     n + Z.of_nat (List.length (filter (fun kv => test (fst kv)) l))).
Proof.
  revert m n. induction l as [| kv l IH]; intros m n; simpl.
  - f_equal. lia.
  - destruct (test (fst kv)); simpl; rewrite IH; f_equal; lia.
Qed.

(** The loop of [invalidate] with a pattern that keeps no state. *)
Lemma stateless_loop (test : string -> bool) (l : JsMap) :
  forall (m : JsMap) (n : Z) (i : nat),
    fold_left
      (fun (st : JsMap * Z * nat) kv =>
         let answer := stateless test (snd st) (fst kv) in
         if fst answer
         then (map_delete (fst kv) (fst (fst st)), snd (fst st) + 1, snd answer)
         else (fst (fst st), snd (fst st), snd answer))
      l (m, n, i)
    = (fold_left
         (fun (st : JsMap * Z) kv =>
            if test (fst kv) then (map_delete (fst kv) (fst st), snd st + 1) else st)
         l (m, n),
       i).
Proof.
  induction l as [| kv l IH]; intros m n i; cbn [fold_left]; [reflexivity |].
  match goal with
  | |- fold_left _ l ?x = _ =>
      replace x with (if test (fst kv) then (map_delete (fst kv) m, n + 1, i)
                      else (m, n, i))
        by (unfold stateless; cbn [fst snd]; destruct (test (fst kv)); reflexivity)
  end.
  destruct (test (fst kv)); apply IH.
Qed.

Lemma invalidate_stateless (test : string -> bool) (i : nat) (c : t) :
  cache (snd (fst (invalidate (stateless test) i c)))
  = filter (fun kv => negb (test (fst kv))) (cache c)
  /\ fst (fst (invalidate (stateless test) i c))
     = Z.of_nat (List.length (filter (fun kv => test (fst kv)) (cache c)))
  /\ snd (invalidate (stateless test) i c) = i.
Proof.
  unfold invalidate. rewrite stateless_loop, invalidate_loop. cbn [fst snd cache].
  split; [| split; [lia | reflexivity]].
  rewrite (delete_where (fun kv => test (fst kv))).
  apply filter_ext_in. intros x Hx. f_equal.
  destruct (test (fst x)) eqn:E.
  - apply existsb_exists. exists x. rewrite E, String.eqb_refl. auto.
  - destruct (existsb _ _) eqn:Ex; [| reflexivity].
    apply existsb_exists in Ex. destruct Ex as [kv [Hkv Hb]].
    apply andb_true_iff in Hb. destruct Hb as [Ht Hk]. apply String.eqb_eq in Hk.
    rewrite Hk in Ht. congruence.
Qed.

Lemma filter_absent (key : string) (m : JsMap) :
  ~ In key (map fst m) -> map_delete key m = m.
Proof.
  unfold map_delete. induction m as [| [k e] m IH]; intros H; simpl; [reflexivity |].
  simpl in H. rewrite (proj2 (String.eqb_neq k key)) by tauto.
  simpl. now rewrite IH by tauto.
Qed.

(** On a map with distinct keys, deleting the key of an entry removes that
    entry and nothing else. *)
Lemma map_delete_here (m0 l : JsMap) (kv : string * CacheEntry) :
  NoDup (map fst (m0 ++ kv :: l)%list) ->
  map_delete (fst kv) (m0 ++ kv :: l)%list = (m0 ++ l)%list.
Proof.
  intros Hnd. rewrite map_app in Hnd. cbn [map] in Hnd.
  apply NoDup_remove_2 in Hnd.
  assert (H0 : ~ In (fst kv) (map fst m0)) by (intros H; apply Hnd, in_or_app; now left).
  assert (H1 : ~ In (fst kv) (map fst l)) by (intros H; apply Hnd, in_or_app; now right).
  pose proof (filter_absent _ _ H0) as E0. pose proof (filter_absent _ _ H1) as E1.
  unfold map_delete in *. rewrite filter_app. cbn [filter fst].
  rewrite String.eqb_refl. cbn [negb]. now rewrite E0, E1.
Qed.

(** The loop of [invalidate] with any pattern, on a map with distinct
    keys: [m0] holds the entries visited and kept, [l] those to come. *)
Lemma invalidate_loop_any (test : PatternTest) (l : JsMap) :
  forall (m0 : JsMap) (n : Z) (i : nat),
    NoDup (map fst (m0 ++ l)%list) ->
    fst (fold_left
           (fun (st : JsMap * Z * nat) kv =>
              let answer := test (snd st) (fst kv) in
              if fst answer
              then (map_delete (fst kv) (fst (fst st)), snd (fst st) + 1, snd answer)
              else (fst (fst st), snd (fst st), snd answer))
           l (m0 ++ l, n, i)%list)
    = ((m0 ++ unanswered (verdicts test i (map fst l)) l)%list,
       n + Z.of_nat (List.length (filter (fun b : bool => b)
                                         (verdicts test i (map fst l))))).
Proof.
  induction l as [| kv l IH]; intros m0 n i Hnd.
  - simpl. f_equal. lia.
  - cbn [fold_left map verdicts fst snd].
    destruct (test i (fst kv)) as [hit i'] eqn:Et. cbn [fst snd].
    destruct hit.
    + rewrite map_delete_here by exact Hnd.
      rewrite IH.
      * cbn [unanswered filter List.length]. f_equal. lia.
      * rewrite map_app in *. cbn [map] in Hnd. now apply NoDup_remove_1 in Hnd.
    + replace (m0 ++ kv :: l)%list with ((m0 ++ [kv]) ++ l)%list
        by (now rewrite <- app_assoc).
      rewrite IH.
      * cbn [unanswered filter]. now rewrite <- app_assoc.
      * now rewrite <- app_assoc.
Qed.

Lemma unanswered_length (answers : list bool) :
  forall m : JsMap,
    List.length answers = List.length m ->
    (List.length (unanswered answers m)
     + List.length (filter (fun b : bool => b) answers) = List.length m)%nat.
Proof.
  induction answers as [| b answers IH]; intros m Hlen.
  - destruct m; [reflexivity | discriminate].
  - destruct m as [| kv m]; [discriminate |].
    injection Hlen as Hlen. specialize (IH m Hlen).
    destruct b; cbn [unanswered filter List.length]; lia.
Qed.

Lemma verdicts_length (test : PatternTest) (keys : list string) :
  forall i, List.length (verdicts test i keys) = List.length keys.
Proof.
  induction keys as [| k keys IH]; intros i; simpl; [reflexivity | now rewrite IH].
Qed.

Lemma invalidate_any (test : PatternTest) (i : nat) (c : t) :
  distinct_keys (cache c) ->
  cache (snd (fst (invalidate test i c)))
  = unanswered (verdicts test i (map fst (cache c))) (cache c)
  /\ fst (fst (invalidate test i c))
     = Z.of_nat (List.length (filter (fun b : bool => b)
                                     (verdicts test i (map fst (cache c))))).
Proof.
  intros Hnd. unfold invalidate.
  set (loop := fold_left _ _ _).
  assert (H : fst loop
              = (unanswered (verdicts test i (map fst (cache c))) (cache c),
                 0 + Z.of_nat (List.length (filter (fun b : bool => b)
                                              (verdicts test i (map fst (cache c)))))))
    by (apply (invalidate_loop_any test (cache c) [] 0 i Hnd)).
  cbn [fst snd cache]. rewrite H. cbn [fst snd]. split; [reflexivity | lia].
Qed.

End InvalidateFacts.

(** X14.  [invalidate] calls [pattern.test] on the keys in the order of the
    map, and each call reads and writes the [lastIndex] of the pattern
    object.  For a pattern without flag [g] or [y], whose [test] keeps no
    state, it removes exactly the entries whose key the pattern matches,
    keeps the others in their order, returns the number of entries it
    removed and leaves [lastIndex] as it was.  For any pattern, on a map
    with distinct keys, it removes exactly the entries at which the call of
    [test], started from the [lastIndex] the call before left, answered
    [true], keeps the others in their order and returns the number removed:
    with flag [g] a key that the pattern matches can stay. *)
Theorem invalidate_spec :
  (forall (test : string -> bool) (lastIndex : nat) (c : PolicyCache.t),
      let out :=
        PolicyCacheInvalidation.invalidate (PolicyCacheInvalidation.stateless test)
          lastIndex c in
      PolicyCache.cache (snd (fst out))
      = filter (fun kv => negb (test (fst kv))) (PolicyCache.cache c)
      /\ fst (fst out) = PolicyCache.size c - PolicyCache.size (snd (fst out))
      /\ snd out = lastIndex)
  /\ (forall (test : PolicyCacheInvalidation.PatternTest) (lastIndex : nat)
             (c : PolicyCache.t),
         distinct_keys (PolicyCache.cache c) ->
         let out := PolicyCacheInvalidation.invalidate test lastIndex c in
         let answers := verdicts test lastIndex (map fst (PolicyCache.cache c)) in
         PolicyCache.cache (snd (fst out)) = unanswered answers (PolicyCache.cache c)
         /\ fst (fst out) = Z.of_nat (List.length (filter (fun b : bool => b) answers))
         /\ fst (fst out) = PolicyCache.size c - PolicyCache.size (snd (fst out))).
Proof.
  split.
  - intros test lastIndex c out. unfold out.
    destruct (invalidate_stateless test lastIndex c) as [Hc [Hn Hi]].
    split; [exact Hc |]. split; [| exact Hi].
    rewrite Hn. unfold PolicyCache.size. rewrite Hc.
    pose proof (filter_partition_length (fun kv => test (fst kv)) (PolicyCache.cache c)).
    lia.
  - intros test lastIndex c Hnd out answers. unfold out, answers.
    destruct (invalidate_any test lastIndex c Hnd) as [Hc Hn].
    split; [exact Hc |]. split; [exact Hn |].
    rewrite Hn. unfold PolicyCache.size. rewrite Hc.
    pose proof (unanswered_length
                  (verdicts test lastIndex (map fst (PolicyCache.cache c)))
                  (PolicyCache.cache c)) as Hl.
    rewrite verdicts_length, length_map in Hl. specialize (Hl eq_refl). lia.
Qed.

(** X14, on two keys that [/user1/g] matches: the first call of [test]
    leaves [lastIndex] at 5, the second starts there, finds nothing and
    leaves the second entry in the cache. *)
Lemma invalidate_spec_witness :
  let c :=
    PolicyCache.set 2 "user1-agent-write-ws1" some_decision
      (PolicyCache.set 1 "user1-agent-read-ws1" some_decision
         (PolicyCache.new (Some 1000) (Some 100))) in
  let pattern := PolicyCacheInvalidation.regexp_test (PIIRedactor.g (Regex.lit "user1")) in
  map fst (PolicyCache.cache (snd (fst (PolicyCacheInvalidation.invalidate pattern 0 c))))
  = ["user1-agent-write-ws1"]
  /\ fst (fst (PolicyCacheInvalidation.invalidate pattern 0 c)) = 1.
Proof.
  intros c pattern.
  assert (Hnd : distinct_keys (PolicyCache.cache c))
    by (repeat constructor; simpl; intuition discriminate).
  destruct (proj2 invalidate_spec pattern 0%nat c Hnd) as [Hc [Hn _]].
  rewrite Hc, Hn. split; reflexivity.
Defined.

Section LiteralPatternFacts.
Import Regex.

Lemma exec_lit (s : string) :
  forall (prev : option ascii) (l : list ascii) (k : Cont),
    exec false (lit s) prev l k
    = match read_text s prev l with
      | Some (p, rest) => k p rest
      | None => None
      end.
Proof.
  induction s as [| c s IH]; intros prev l k; [reflexivity |].
  destruct s as [| c' s']; simpl lit.
  - simpl. destruct l as [| x l']; [reflexivity |].
    unfold same_char. destruct (Ascii.eqb x c); reflexivity.
  - cbn [exec]. destruct l as [| x l']; [reflexivity |].
    unfold same_char. cbn [read_text].
    destruct (Ascii.eqb x c); [apply IH | reflexivity].
Qed.

Lemma read_text_app (s : string) :
  forall (prev : option ascii) (r : list ascii),
    exists q, read_text s prev (list_ascii_of_string s ++ r) = Some (q, r).
Proof.
  induction s as [| c s IH]; intros prev r; simpl.
  - now exists prev.
  - rewrite Ascii.eqb_refl. apply IH.
Qed.

Lemma read_text_inv (s : string) :
  forall (prev q : option ascii) (l r : list ascii),
    read_text s prev l = Some (q, r) -> l = (list_ascii_of_string s ++ r)%list.
Proof.
  induction s as [| c s IH]; intros prev q l r; simpl.
  - intros H. now injection H as _ <-.
  - destruct l as [| x l']; [discriminate |].
    destruct (Ascii.eqb x c) eqn:E; [| discriminate].
    apply Ascii.eqb_eq in E. subst x. intros H. f_equal. now apply IH in H.
Qed.

Lemma str_app_assoc (a b c : string) : ((a ++ b) ++ c = a ++ b ++ c)%string.
Proof. induction a as [| x a IH]; simpl; [reflexivity | now rewrite IH]. Qed.

Lemma list_of_append (a b : string) :
  list_ascii_of_string (a ++ b) = (list_ascii_of_string a ++ list_ascii_of_string b)%list.
Proof. induction a as [| c a IH]; simpl; [reflexivity | now rewrite IH]. Qed.

(** A match that must start at index 0: the subject starts with the text. *)
Lemma test_literal_at_start_spec (src key : string) :
  PolicyCacheInvalidation.test_literal_at_start src key = true
  <-> exists post, key = (src ++ post)%string.
Proof.
  unfold PolicyCacheInvalidation.test_literal_at_start, match_here.
  cbn [Regex.source ignoreCase]. rewrite exec_lit.
  destruct (read_text src None (list_ascii_of_string key)) as [[q r] |] eqn:E.
  - split; [intros _ | reflexivity].
    apply read_text_inv in E. exists (string_of_list_ascii r).
    rewrite <- (string_of_list_ascii_of_string key), E.
    rewrite <- (list_ascii_of_string_of_list_ascii r) at 1.
    rewrite <- list_of_append. now rewrite string_of_list_ascii_of_string.
  - split; [discriminate |]. intros [post ->].
    rewrite list_of_append in E.
    destruct (read_text_app src None (list_ascii_of_string post)) as [q Hq]. congruence.
Qed.

Lemma test_from_lit (src : string) :
  forall (l : list ascii) (prev : option ascii),
    test_from (mkRegExp (lit src) false false) prev l = true
    <-> exists pre r, l = (pre ++ list_ascii_of_string src ++ r)%list.
Proof.
  induction l as [| c l IH]; intros prev; simpl test_from;
    unfold match_here; cbn [Regex.source ignoreCase]; rewrite exec_lit.
  - destruct (read_text src prev []) as [[q r] |] eqn:E.
    + split; [intros _ | reflexivity]. exists [], r. now apply read_text_inv in E.
    + split; [discriminate |]. intros [pre [r Hl]].
      destruct pre; [| discriminate]. simpl in Hl.
      destruct (read_text_app src prev r) as [q Hq]. congruence.
  - destruct (read_text src prev (c :: l)) as [[q r] |] eqn:E.
    + split; [intros _ | reflexivity]. exists [], r. now apply read_text_inv in E.
    + rewrite IH. split.
      * intros [pre [r Hl]]. exists (c :: pre), r. simpl. now rewrite Hl.
      * intros [pre [r Hl]]. destruct pre as [| x pre].
        -- simpl in Hl. destruct (read_text_app src prev r) as [q Hq]. congruence.
        -- simpl in Hl. injection Hl as _ Hl. now exists pre, r.
Qed.

(** A match anywhere: the subject contains the text. *)
Lemma test_literal_spec (src key : string) :
  PolicyCacheInvalidation.test_literal src key = true
  <-> exists pre post, key = (pre ++ src ++ post)%string.
Proof.
  unfold PolicyCacheInvalidation.test_literal, test. rewrite test_from_lit. split.
  - intros [pre [r Hl]]. exists (string_of_list_ascii pre), (string_of_list_ascii r).
    rewrite <- (string_of_list_ascii_of_string key), Hl.
    rewrite <- (list_ascii_of_string_of_list_ascii pre) at 1.
    rewrite <- (list_ascii_of_string_of_list_ascii r) at 1.
    rewrite <- !list_of_append. now rewrite string_of_list_ascii_of_string.
  - intros [pre [post ->]].
    exists (list_ascii_of_string pre), (list_ascii_of_string post).
    now rewrite !list_of_append.
Qed.

End LiteralPatternFacts.

Section NamedInvalidationFacts.

Lemma prefix_spec (p s : string) :
  String.prefix p s = true <-> exists post, s = (p ++ post)%string.
Proof.
  revert s. induction p as [| a p IH]; intros s.
  - split; [intros _; now exists s | intros _; now destruct s].
  - destruct s as [| b s]; simpl.
    + split; [discriminate | intros [post H]; discriminate].
    + destruct (Ascii.ascii_dec a b) as [-> | Hne].
      * rewrite IH. split; intros [post H]; exists post; [now rewrite H |].
        now injection H.
      * split; [discriminate |]. intros [post H]. injection H as H _. congruence.
Qed.

Lemma contains_spec (sub s : string) :
  contains sub s = true <-> exists pre post, s = (pre ++ sub ++ post)%string.
Proof.
  induction s as [| c s IH]; cbn [contains]; rewrite orb_true_iff, prefix_spec.
  - split.
    + intros [[post H] | H]; [now exists ""%string, post | discriminate].
    + intros [pre [post H]]. left. destruct pre; [now exists post | discriminate].
  - rewrite IH. split.
    + intros [[post H] | [pre [post H]]].
      * now exists ""%string, post.
      * exists (String c pre), post. simpl. now rewrite H.
    + intros [pre [post H]]. destruct pre as [| x pre].
      * left. now exists post.
      * right. simpl in H. injection H as _ H. now exists pre, post.
Qed.

Lemma at_start_is_startsWith (src key : string) :
  PolicyCacheInvalidation.test_literal_at_start src key = JS.startsWith key src.
Proof.
  unfold JS.startsWith.
  destruct (PolicyCacheInvalidation.test_literal_at_start src key) eqn:E1,
           (String.prefix src key) eqn:E2; try reflexivity.
  - apply test_literal_at_start_spec, prefix_spec in E1. congruence.
  - apply prefix_spec, test_literal_at_start_spec in E2. congruence.
Qed.

Lemma literal_is_contains (src key : string) :
  PolicyCacheInvalidation.test_literal src key = contains src key.
Proof.
  destruct (PolicyCacheInvalidation.test_literal src key) eqn:E1,
           (contains src key) eqn:E2; try reflexivity.
  - apply test_literal_spec, contains_spec in E1. congruence.
  - apply contains_spec, test_literal_spec in E2. congruence.
Qed.

(** The call of [invalidate] that both functions make. *)
Lemma invalidate_named (test spec : string -> bool) (c : PolicyCache.t) :
  (forall key, test key = spec key) ->
  fst (PolicyCacheInvalidation.invalidate (PolicyCacheInvalidation.stateless test) 0 c)
  = (Z.of_nat (List.length (filter (fun kv => spec (fst kv)) (PolicyCache.cache c))),
     {| PolicyCache.cache :=
          filter (fun kv => negb (spec (fst kv))) (PolicyCache.cache c);
        PolicyCache.ttlMs := PolicyCache.ttlMs c;
        PolicyCache.maxSize := PolicyCache.maxSize c;
        PolicyCache.hits := PolicyCache.hits c;
        PolicyCache.misses := PolicyCache.misses c |}).
Proof.
  intros Hspec.
  destruct (invalidate_stateless test 0 c) as [Hc [Hn _]].
  assert (H1 : filter (fun kv => test (fst kv)) (PolicyCache.cache c)
               = filter (fun kv => spec (fst kv)) (PolicyCache.cache c))
    by (apply filter_ext; intros kv; apply Hspec).
  assert (H2 : filter (fun kv => negb (test (fst kv))) (PolicyCache.cache c)
               = filter (fun kv => negb (spec (fst kv))) (PolicyCache.cache c))
    by (apply filter_ext; intros kv; now rewrite Hspec).
  rewrite H1 in Hn. rewrite H2 in Hc. clear H1 H2.
  unfold PolicyCacheInvalidation.invalidate in *.
  rewrite stateless_loop, invalidate_loop in *.
  cbn [fst snd PolicyCache.cache] in *. now rewrite Hc, Hn.
Qed.

End NamedInvalidationFacts.

(** X15.  For a [userId] free of pattern syntax, [invalidateUser] removes
    exactly the entries whose key starts with [userId] followed by ['-'] and
    returns their number; for such a [resource], [invalidateResource]
    removes exactly the entries whose key contains [resource] between two
    ['-'] and returns their number.  The other entries stay, in their order,
    and nothing else of the cache changes. *)
Theorem invalidate_by_name :
  (forall (userId : string) (c : PolicyCache.t),
      PolicyCacheInvalidation.is_literal userId = true ->
      PolicyCacheInvalidation.invalidateUser userId c
      = Some
          (Z.of_nat (List.length
                       (filter (fun kv => JS.startsWith (fst kv) (userId ++ "-"))
                          (PolicyCache.cache c))),
           {| PolicyCache.cache :=
                filter (fun kv => negb (JS.startsWith (fst kv) (userId ++ "-")))
                  (PolicyCache.cache c);
              PolicyCache.ttlMs := PolicyCache.ttlMs c;
              PolicyCache.maxSize := PolicyCache.maxSize c;
              PolicyCache.hits := PolicyCache.hits c;
              PolicyCache.misses := PolicyCache.misses c |}))
  /\ (forall (resource : string) (c : PolicyCache.t),
         PolicyCacheInvalidation.is_literal resource = true ->
         PolicyCacheInvalidation.invalidateResource resource c
         = Some
             (Z.of_nat (List.length
                          (filter (fun kv => contains ("-" ++ resource ++ "-") (fst kv))
                             (PolicyCache.cache c))),
              {| PolicyCache.cache :=
                   filter (fun kv => negb (contains ("-" ++ resource ++ "-") (fst kv)))
                     (PolicyCache.cache c);
                 PolicyCache.ttlMs := PolicyCache.ttlMs c;
                 PolicyCache.maxSize := PolicyCache.maxSize c;
                 PolicyCache.hits := PolicyCache.hits c;
                 PolicyCache.misses := PolicyCache.misses c |}))
  /\ (forall key p : string,
         (JS.startsWith key p = true <-> exists post, key = (p ++ post)%string)
         /\ (contains p key = true
             <-> exists pre post, key = (pre ++ p ++ post)%string)).
Proof.
  split; [| split].
  - intros userId c Hlit. unfold PolicyCacheInvalidation.invalidateUser. rewrite Hlit.
    f_equal.
    apply (invalidate_named _ (fun key => JS.startsWith key (userId ++ "-"))).
    intros key. apply at_start_is_startsWith.
  - intros resource c Hlit. unfold PolicyCacheInvalidation.invalidateResource.
    rewrite Hlit. f_equal.
    apply (invalidate_named _ (contains ("-" ++ resource ++ "-"))).
    intros key. apply literal_is_contains.
  - intros key p. split; [apply prefix_spec | apply contains_spec].
Qed.

(** X15, on the test of the repository: of [alice-...] and [bob-...] only
    the former goes. *)
Lemma invalidate_by_name_witness :
  let c :=
    PolicyCache.set 2 "bob-agent-read-ws1" some_decision
      (PolicyCache.set 1 "alice-agent-read-ws1" some_decision
         (PolicyCache.new (Some 1000) (Some 100))) in
  option_map (fun out => (fst out, map fst (PolicyCache.cache (snd out))))
    (PolicyCacheInvalidation.invalidateUser "alice" c)
  = Some (1, ["bob-agent-read-ws1"]).
Proof.
  intros c. rewrite (proj1 invalidate_by_name "alice" c eq_refl). reflexivity.
Defined.

(** * Further properties of the approval workflow *)

Section WorkflowStepFacts.
Import ApprovalWorkflow.

(** [updateState] changes [state] and [completedAt] only. *)
Lemma updateState_keeps (now : Z) (r : ApprovalRequest) :
  approvals (updateState now r) = approvals r
  /\ approvers (updateState now r) = approvers r
  /\ type (updateState now r) = type r
  /\ requiredApprovals (updateState now r) = requiredApprovals r
  /\ expiresAt (updateState now r) = expiresAt r
  /\ id (updateState now r) = id r
  /\ userId (updateState now r) = userId r.
Proof.
  unfold updateState.
  destruct (type r) eqn:Et;
    repeat match goal with
           | |- context [if ?b then _ else _] => destruct b
           end;
    simpl; rewrite ?Et; repeat split; reflexivity.
Qed.

(** What a call of [processAction] that returns has done. *)
Lemma processAction_ok (now stamp done : Z) (r r' : ApprovalRequest)
      (x : string) (v : Verdict) (note : option string) :
  processAction now stamp done r x v note = JS.Ok r' ->
  state r = pending
  /\ ((now > expiresAt r /\ r' = with_state r expired)
      \/ (now <= expiresAt r
          /\ In x (approvers r)
          /\ (forall a, In a (approvals r) -> approverId a <> x)
          /\ r' = updateState done
                    (with_approvals r
                       (approvals r
                        ++ [ {| approverId := x; action := v;
                                timestamp := stamp; comment := note |} ])))).
Proof.
  unfold processAction. destruct (state r); try discriminate.
  intros H. split; [reflexivity |]. revert H.
  destruct (now >? expiresAt r) eqn:Et.
  - intros H. injection H as <-. left. split; [| reflexivity].
    rewrite Z.gtb_ltb in Et. apply Z.ltb_lt in Et. lia.
  - destruct (JS.includes (approvers r) x) eqn:Ei; simpl; [| discriminate].
    destruct (existsb _ (approvals r)) eqn:Ea; [discriminate |].
    intros H. injection H as <-. right.
    rewrite Z.gtb_ltb in Et. apply Z.ltb_ge in Et.
    split; [exact Et |]. split; [| split; [| reflexivity]].
    + unfold JS.includes in Ei. apply existsb_exists in Ei.
      destruct Ei as [y [Hy Heq]]. apply String.eqb_eq in Heq. now subst.
    + intros a Ha Heq.
      assert (Hex : existsb (fun a => (approverId a =? x)%string) (approvals r) = true)
        by (apply existsb_exists; exists a; split; [exact Ha | now apply String.eqb_eq]).
      congruence.
Qed.

End WorkflowStepFacts.

(** X16.  The states other than [pending] are final: on such a request
    [processAction] and [cancel] throw and [checkExpiration] returns the
    request as it is; and a request that [processAction] or [cancel]
    returns was [pending] before. *)
Theorem terminal_states_are_final :
  forall (r : ApprovalWorkflow.ApprovalRequest) (now stamp done : Z)
         (approver : string) (act : ApprovalWorkflow.Verdict) (note : option string),
    (ApprovalWorkflow.state r <> ApprovalWorkflow.pending ->
     state_of (ApprovalWorkflow.processAction now stamp done r approver act note) = None
     /\ state_of (ApprovalWorkflow.cancel now r) = None
     /\ ApprovalWorkflow.checkExpiration now done r = r)
    /\ (ApprovalWorkflow.state r = ApprovalWorkflow.pending ->
        state_of (ApprovalWorkflow.cancel now r) = Some ApprovalWorkflow.cancelled).
Proof.
  intros r now stamp done approver act note. split.
  - intros H. unfold ApprovalWorkflow.processAction, ApprovalWorkflow.cancel,
      ApprovalWorkflow.checkExpiration.
    destruct (ApprovalWorkflow.state r); try (now destruct H); repeat split.
  - intros H. unfold ApprovalWorkflow.cancel. now rewrite H.
Qed.

Lemma terminal_states_are_final_witness :
  state_of
    (and_then
       (ApprovalWorkflow.cancel 5
          (fresh_request ApprovalWorkflow.single "alice" "bob" "carol" None 60 0))
       (fun r => ApprovalWorkflow.processAction 6 6 6 r "alice"
                   ApprovalWorkflow.approve None))
  = None.
Proof.
  apply (proj1 (terminal_states_are_final
                  (ApprovalWorkflow.complete
                     (fresh_request ApprovalWorkflow.single "alice" "bob" "carol" None 60 0)
                     ApprovalWorkflow.cancelled 5)
                  6 6 6 "alice" ApprovalWorkflow.approve None)).
  discriminate.
Defined.

(** X17.  A call of [processAction] that returns leaves the approvals as
    they were or adds the one action of the caller at the end; it never
    changes the approvers, the type, the threshold, the deadline or the
    identity of the request; and it keeps the record sound: approver ids
    stay pairwise distinct and every recorded approver is authorised. *)
Theorem processAction_keeps_record :
  forall (r r' : ApprovalWorkflow.ApprovalRequest) (now stamp done : Z)
         (approver : string) (act : ApprovalWorkflow.Verdict) (note : option string),
    ApprovalWorkflow.processAction now stamp done r approver act note = JS.Ok r' ->
    (ApprovalWorkflow.approvals r' = ApprovalWorkflow.approvals r
     \/ ApprovalWorkflow.approvals r'
        = (ApprovalWorkflow.approvals r
           ++ [ {| ApprovalWorkflow.approverId := approver;
                   ApprovalWorkflow.action := act;
                   ApprovalWorkflow.timestamp := stamp;
                   ApprovalWorkflow.comment := note |} ])%list)
    /\ ApprovalWorkflow.approvers r' = ApprovalWorkflow.approvers r
    /\ ApprovalWorkflow.type r' = ApprovalWorkflow.type r
    /\ ApprovalWorkflow.requiredApprovals r' = ApprovalWorkflow.requiredApprovals r
    /\ ApprovalWorkflow.expiresAt r' = ApprovalWorkflow.expiresAt r
    /\ ApprovalWorkflow.id r' = ApprovalWorkflow.id r
    /\ (NoDup (map ApprovalWorkflow.approverId (ApprovalWorkflow.approvals r)) ->
        NoDup (map ApprovalWorkflow.approverId (ApprovalWorkflow.approvals r')))
    /\ ((forall a, In a (ApprovalWorkflow.approvals r) ->
                   In (ApprovalWorkflow.approverId a) (ApprovalWorkflow.approvers r)) ->
        forall a, In a (ApprovalWorkflow.approvals r') ->
                  In (ApprovalWorkflow.approverId a) (ApprovalWorkflow.approvers r')).
Proof.
  intros r r' now stamp done approver act note H.
  apply processAction_ok in H.
  destruct H as [_ [[_ ->] | [_ [Hin [Hnew ->]]]]].
  - simpl. repeat split; auto.
  - set (new := {| ApprovalWorkflow.approverId := approver |}) in *.
    destruct (updateState_keeps done
                (ApprovalWorkflow.with_approvals r (ApprovalWorkflow.approvals r ++ [new])))
      as [Ha [Hp [Ht [Hq [He [Hi _]]]]]].
    rewrite Ha, Hp, Ht, Hq, He, Hi. simpl.
    repeat split; auto.
    + intros Hnd. rewrite map_app. simpl. apply NoDup_app; [exact Hnd | | ].
      * repeat constructor. intros [].
      * intros y Hy [<- | []]. apply in_map_iff in Hy.
        destruct Hy as [a [Heq Ha']]. exact (Hnew a Ha' Heq).
    + intros Hall a Ha'. apply in_app_or in Ha'.
      destruct Ha' as [Ha' | [<- | []]]; [now apply Hall | exact Hin].
Qed.

Lemma processAction_keeps_record_witness :
  ApprovalWorkflow.approvers
    (ApprovalWorkflow.updateState 10
       (ApprovalWorkflow.with_approvals
          (fresh_request ApprovalWorkflow.majority "alice" "bob" "carol" (Some 2) 60 0)
          [ {| ApprovalWorkflow.approverId := "bob";
               ApprovalWorkflow.action := ApprovalWorkflow.approve;
               ApprovalWorkflow.timestamp := 10;
               ApprovalWorkflow.comment := None |} ]))
  = ["alice"; "bob"; "carol"].
Proof.
  apply (proj1 (proj2 (processAction_keeps_record
                         (fresh_request ApprovalWorkflow.majority "alice" "bob" "carol"
                            (Some 2) 60 0)
                         _ 10 10 10 "bob" ApprovalWorkflow.approve None eq_refl))).
Defined.

(** X18.  On a pending, unexpired request of type [single] without actions,
    the first action of an authorised approver decides: an approval ends in
    [approved], a denial in [denied]. *)
Theorem single_first_action_decides :
  forall (r : ApprovalWorkflow.ApprovalRequest) (x : string)
         (v : ApprovalWorkflow.Verdict) (now stamp done : Z) (note : option string),
    ApprovalWorkflow.type r = ApprovalWorkflow.single ->
    ApprovalWorkflow.state r = ApprovalWorkflow.pending ->
    ApprovalWorkflow.approvals r = [] ->
    In x (ApprovalWorkflow.approvers r) ->
    now <= ApprovalWorkflow.expiresAt r ->
    state_of (ApprovalWorkflow.processAction now stamp done r x v note)
    = Some match v with
           | ApprovalWorkflow.approve => ApprovalWorkflow.approved
           | ApprovalWorkflow.deny => ApprovalWorkflow.denied
           end.
Proof.
  intros r x v now stamp done note Hty Hst Happ Hx Hnow.
  unfold ApprovalWorkflow.processAction.
  rewrite Hst, (not_past_due _ _ Hnow), (includes_In _ _ Hx), Happ. simpl.
  unfold ApprovalWorkflow.updateState. simpl. rewrite Hty.
  destruct v; reflexivity.
Qed.

Lemma single_first_action_decides_witness :
  state_of
    (ApprovalWorkflow.processAction 10 10 10
       (fresh_request ApprovalWorkflow.single "alice" "bob" "carol" None 60 0)
       "carol" ApprovalWorkflow.deny None)
  = Some ApprovalWorkflow.denied.
Proof.
  apply (single_first_action_decides
           (fresh_request ApprovalWorkflow.single "alice" "bob" "carol" None 60 0)
           "carol" ApprovalWorkflow.deny 10 10 10 None);
    try reflexivity; simpl; try lia; tauto.
Defined.

(** X19.  A [majority] request whose [requiredApprovals] exceeds the number
    of approvers does not stay undecided: the first action of an authorised
    approver, be it an approval, ends in [denied]. *)
Theorem majority_unreachable_threshold_denies :
  forall (r : ApprovalWorkflow.ApprovalRequest) (x : string)
         (v : ApprovalWorkflow.Verdict) (now stamp done : Z) (note : option string),
    ApprovalWorkflow.type r = ApprovalWorkflow.majority ->
    ApprovalWorkflow.state r = ApprovalWorkflow.pending ->
    ApprovalWorkflow.approvals r = [] ->
    In x (ApprovalWorkflow.approvers r) ->
    now <= ApprovalWorkflow.expiresAt r ->
    ApprovalWorkflow.requiredApprovals r
    > Z.of_nat (List.length (ApprovalWorkflow.approvers r)) ->
    state_of (ApprovalWorkflow.processAction now stamp done r x v note)
    = Some ApprovalWorkflow.denied.
Proof.
  intros r x v now stamp done note Hty Hst Happ Hx Hnow Hreq.
  unfold ApprovalWorkflow.processAction.
  rewrite Hst, (not_past_due _ _ Hnow), (includes_In _ _ Hx), Happ.
  cbn [negb existsb app].
  unfold ApprovalWorkflow.updateState.
  cbn [ApprovalWorkflow.with_approvals ApprovalWorkflow.type ApprovalWorkflow.approvals
       ApprovalWorkflow.approvers ApprovalWorkflow.requiredApprovals].
  rewrite Hty.
  assert (Hn : (1 <= List.length (ApprovalWorkflow.approvers r))%nat)
    by (destruct (ApprovalWorkflow.approvers r); [contradiction | simpl; lia]).
  destruct v; cbn [filter ApprovalWorkflow.Verdict_eqb ApprovalWorkflow.action List.length].
  - destruct (Z.of_nat 1 >=? ApprovalWorkflow.requiredApprovals r) eqn:E1.
    + rewrite Z.geb_leb in E1. apply Z.leb_le in E1. lia.
    + destruct (_ <? _) eqn:E2; [reflexivity |]. apply Z.ltb_ge in E2. lia.
  - destruct (Z.of_nat 0 >=? ApprovalWorkflow.requiredApprovals r) eqn:E1.
    + rewrite Z.geb_leb in E1. apply Z.leb_le in E1. lia.
    + destruct (_ <? _) eqn:E2; [reflexivity |]. apply Z.ltb_ge in E2. lia.
Qed.

Lemma majority_unreachable_threshold_denies_witness :
  state_of
    (ApprovalWorkflow.processAction 10 10 10
       (fresh_request ApprovalWorkflow.majority "alice" "bob" "carol" (Some 4) 60 0)
       "alice" ApprovalWorkflow.approve None)
  = Some ApprovalWorkflow.denied.
Proof.
  apply (majority_unreachable_threshold_denies
           (fresh_request ApprovalWorkflow.majority "alice" "bob" "carol" (Some 4) 60 0)
           "alice" ApprovalWorkflow.approve 10 10 10 None);
    try reflexivity; simpl; try lia; tauto.
Defined.

Section WorkflowRunFacts.
Import ApprovalWorkflow.

Lemma all_approve_filter (l : list ApprovalAction) :
  (forall a, In a l -> action a = approve) ->
  filter (fun a => Verdict_eqb (action a) approve) l = l
  /\ filter (fun a => Verdict_eqb (action a) deny) l = [].
Proof.
  induction l as [| a l IH]; intros H; simpl; [auto |].
  rewrite (H a (or_introl eq_refl)). simpl.
  destruct IH as [IH1 IH2]; [intros b Hb; apply H; now right |].
  now rewrite IH1, IH2.
Qed.

(** One approval on a pending request that holds approvals only. *)
Lemma approve_step (r : ApprovalRequest) (x : string) (t : Z) :
  state r = pending ->
  (forall a, In a (approvals r) -> action a = approve) ->
  In x (approvers r) ->
  (forall a, In a (approvals r) -> approverId a <> x) ->
  t <= expiresAt r ->
  processAction t t t r x approve None
  = JS.Ok (updateState t (with_approvals r (approvals r ++ [approval_of x t])))
  /\ filter (fun a => Verdict_eqb (action a) approve) (approvals r ++ [approval_of x t])
     = (approvals r ++ [approval_of x t])%list
  /\ filter (fun a => Verdict_eqb (action a) deny) (approvals r ++ [approval_of x t]) = [].
Proof.
  intros Hst Hall Hx Hnew Ht. split.
  - unfold processAction.
    rewrite Hst, (not_past_due _ _ Ht), (includes_In _ _ Hx), (not_acted_existsb _ _ Hnew).
    reflexivity.
  - apply all_approve_filter. intros a Ha. apply in_app_or in Ha.
    destruct Ha as [Ha | [<- | []]]; [now apply Hall | reflexivity].
Qed.

Lemma unanimous_progress (steps : list (string * Z)) :
  forall r : ApprovalRequest,
    type r = unanimous -> state r = pending ->
    (forall a, In a (approvals r) -> action a = approve) ->
    NoDup (map fst steps) ->
    (forall x, In x (map fst steps) ->
               In x (approvers r) /\ forall a, In a (approvals r) -> approverId a <> x) ->
    (forall s, In s steps -> snd s <= expiresAt r) ->
    (List.length (approvals r) + List.length steps <= List.length (approvers r))%nat ->
    state_of (act_all approve steps r)
    = Some match steps with
           | [] => pending
           | _ => if (List.length (approvals r) + List.length steps
                      =? List.length (approvers r))%nat
                  then approved else pending
           end.
Proof.
  induction steps as [| [x t] rest IH]; intros r Hty Hst Hall Hnd Hauth Htime Hlen;
    [simpl; now rewrite Hst |].
  cbn [act_all].
  destruct (Hauth x (or_introl eq_refl)) as [Hx Hnew].
  destruct (approve_step r x t Hst Hall Hx Hnew (Htime (x, t) (or_introl eq_refl)))
    as [Hstep [Hfa Hfd]].
  rewrite Hstep. cbn [and_then].
  set (r1 := with_approvals r (approvals r ++ [approval_of x t])).
  assert (Hup : updateState t r1
                = if (List.length (approvals r) + 1 =? List.length (approvers r))%nat
                  then complete r1 approved t else r1).
  { unfold updateState. cbn [r1 with_approvals type approvals approvers]. fold r1.
    rewrite Hty, Hfa, Hfd. cbn [List.length Z.of_nat Z.geb Z.compare].
    rewrite length_app. cbn [List.length].
    destruct (Z.of_nat (List.length (approvals r) + 1) =? Z.of_nat (List.length (approvers r)))
      eqn:E.
    - apply Z.eqb_eq in E. apply Nat2Z.inj in E. now rewrite (proj2 (Nat.eqb_eq _ _) E).
    - apply Z.eqb_neq in E.
      destruct (List.length (approvals r) + 1 =? List.length (approvers r))%nat eqn:E';
        [| reflexivity].
      apply Nat.eqb_eq in E'. lia. }
  rewrite Hup. simpl List.length in *.
  inversion Hnd as [| ? ? Hfresh Hrest]; subst.
  destruct (List.length (approvals r) + 1 =? List.length (approvers r))%nat eqn:E.
  - apply Nat.eqb_eq in E.
    assert (rest = []) by (destruct rest; [reflexivity | simpl in Hlen; lia]). subst rest.
    simpl. replace (List.length (approvals r) + 1 =? List.length (approvers r))%nat
      with true by (symmetry; now apply Nat.eqb_eq).
    reflexivity.
  - apply Nat.eqb_neq in E.
    rewrite (IH r1); cbn [r1 with_approvals type state approvals approvers expiresAt].
    + rewrite length_app. cbn [List.length].
      destruct rest as [| s rest']; cbn [List.length].
      * now rewrite (proj2 (Nat.eqb_neq _ _) E).
      * replace (List.length (approvals r) + 1 + S (List.length rest'))%nat
          with (List.length (approvals r) + S (S (List.length rest')))%nat by lia.
        reflexivity.
    + exact Hty.
    + exact Hst.
    + intros a Ha. apply in_app_or in Ha.
      destruct Ha as [Ha | [<- | []]]; [now apply Hall | reflexivity].
    + exact Hrest.
    + intros y Hy. destruct (Hauth y (or_intror Hy)) as [Hy1 Hy2].
      split; [exact Hy1 |]. intros a Ha. apply in_app_or in Ha.
      destruct Ha as [Ha | [<- | []]]; [now apply Hy2 |].
      simpl. intros ->. contradiction.
    + intros s Hs. apply Htime. now right.
    + rewrite length_app. simpl. lia.
Qed.

End WorkflowRunFacts.

(** X20.  On a pending request of type [unanimous] without actions, timely
    approvals by pairwise distinct authorised approvers, in any order, leave
    it [pending] until as many have approved as there are approvers, and the
    approval that completes the set ends in [approved]; a denial by an
    authorised approver who has not acted ends in [denied] at once. *)
Theorem unanimous_outcomes :
  (forall (r : ApprovalWorkflow.ApprovalRequest) (steps : list (string * Z)),
      ApprovalWorkflow.type r = ApprovalWorkflow.unanimous ->
      ApprovalWorkflow.state r = ApprovalWorkflow.pending ->
      ApprovalWorkflow.approvals r = [] ->
      steps <> [] ->
      NoDup (map fst steps) ->
      (forall x, In x (map fst steps) -> In x (ApprovalWorkflow.approvers r)) ->
      (forall s, In s steps -> snd s <= ApprovalWorkflow.expiresAt r) ->
      (List.length steps <= List.length (ApprovalWorkflow.approvers r))%nat ->
      state_of (act_all ApprovalWorkflow.approve steps r)
      = Some (if (List.length steps =? List.length (ApprovalWorkflow.approvers r))%nat
              then ApprovalWorkflow.approved else ApprovalWorkflow.pending))
  /\ (forall (r : ApprovalWorkflow.ApprovalRequest) (x : string)
             (now stamp done : Z) (note : option string),
         ApprovalWorkflow.type r = ApprovalWorkflow.unanimous ->
         ApprovalWorkflow.state r = ApprovalWorkflow.pending ->
         In x (ApprovalWorkflow.approvers r) ->
         ~ has_acted r x ->
         now <= ApprovalWorkflow.expiresAt r ->
         state_of (ApprovalWorkflow.processAction now stamp done r x
                     ApprovalWorkflow.deny note)
         = Some ApprovalWorkflow.denied).
Proof.
  split.
  - intros r steps Hty Hst Happ Hne Hnd Hauth Htime Hlen.
    assert (H : state_of (act_all ApprovalWorkflow.approve steps r)
                = Some match steps with
                       | [] => ApprovalWorkflow.pending
                       | _ => if (List.length (ApprovalWorkflow.approvals r)
                                  + List.length steps
                                  =? List.length (ApprovalWorkflow.approvers r))%nat
                              then ApprovalWorkflow.approved
                              else ApprovalWorkflow.pending
                       end).
    { apply unanimous_progress; rewrite ?Happ; auto;
        try (now intros a []).
      all: intros x Hx; split; [now apply Hauth | intros a []]. }
    rewrite H, Happ. destruct steps; [contradiction | reflexivity].
  - intros r x now stamp done note Hty Hst Hx Hno Hnow.
    unfold ApprovalWorkflow.processAction.
    rewrite Hst, (not_past_due _ _ Hnow), (includes_In _ _ Hx).
    rewrite not_acted_existsb by (intros a Ha Heq; apply Hno; now exists a).
    cbn [negb]. unfold ApprovalWorkflow.updateState.
    cbn [ApprovalWorkflow.with_approvals ApprovalWorkflow.type ApprovalWorkflow.approvals].
    rewrite Hty. rewrite (filter_app (fun a => ApprovalWorkflow.Verdict_eqb
                                                  (ApprovalWorkflow.action a)
                                                  ApprovalWorkflow.deny)).
    cbn [filter ApprovalWorkflow.action ApprovalWorkflow.Verdict_eqb].
    rewrite length_app. cbn [List.length].
    destruct (Z.of_nat _ >=? 1) eqn:E; [reflexivity |].
    rewrite Z.geb_leb in E. apply Z.leb_gt in E. lia.
Qed.

Lemma unanimous_outcomes_witness :
  state_of
    (act_all ApprovalWorkflow.approve [("carol", 10); ("alice", 20); ("bob", 30)]
       (fresh_request ApprovalWorkflow.unanimous "alice" "bob" "carol" None 60 0))
  = Some ApprovalWorkflow.approved.
Proof.
  apply (proj1 unanimous_outcomes
           (fresh_request ApprovalWorkflow.unanimous "alice" "bob" "carol" None 60 0)
           [("carol", 10); ("alice", 20); ("bob", 30)]);
    try reflexivity; try discriminate.
  - repeat constructor; simpl; intuition discriminate.
  - simpl. tauto.
  - simpl. intros s [<- | [<- | [<- | []]]]; simpl; lia.
Defined.

Section SequentialFacts.
Import ApprovalWorkflow.

Lemma nth_error_firstn_lt {A : Type} (l : list A) :
  forall n i, (i < n)%nat -> nth_error (firstn n l) i = nth_error l i.
Proof.
  induction l as [| x l IH]; intros n i Hi.
  - now rewrite firstn_nil.
  - destruct n; [lia |]. destruct i; simpl; [reflexivity | apply IH; lia].
Qed.

Lemma in_order_not_outOfOrder (l : list ApprovalAction) (approvers : list string) :
  map approverId l = firstn (List.length l) approvers ->
  outOfOrder l approvers = false.
Proof.
  intros Hmap. unfold outOfOrder.
  destruct (existsb _ _) eqn:E; [| reflexivity].
  apply existsb_exists in E. destruct E as [i [Hi Ht]].
  apply in_seq in Hi.
  destruct (nth_error l i) as [a |] eqn:Ea.
  - assert (Hp : nth_error approvers i = Some (approverId a)).
    { rewrite <- (nth_error_firstn_lt approvers (List.length l) i) by lia.
      rewrite <- Hmap. now apply map_nth_error. }
    rewrite Hp, String.eqb_refl in Ht. discriminate.
  - apply nth_error_None in Ea. lia.
Qed.

Lemma skipn_cons_nth {A : Type} (l : list A) :
  forall k x rest, skipn k l = x :: rest ->
                   nth_error l k = Some x /\ skipn (S k) l = rest
                   /\ firstn (S k) l = (firstn k l ++ [x])%list.
Proof.
  induction l as [| y l IH]; intros k x rest H.
  - now rewrite skipn_nil in H.
  - destruct k; simpl in *.
    + injection H as -> ->. auto.
    + destruct (IH k x rest H) as [H1 [H2 H3]]. repeat split; auto. now rewrite H3.
Qed.

Lemma sequential_progress (steps : list (string * Z)) :
  forall r : ApprovalRequest,
    type r = sequential -> state r = pending ->
    NoDup (approvers r) ->
    (forall a, In a (approvals r) -> action a = approve) ->
    map approverId (approvals r) = firstn (List.length (approvals r)) (approvers r) ->
    map fst steps
    = firstn (List.length steps) (skipn (List.length (approvals r)) (approvers r)) ->
    (forall s, In s steps -> snd s <= expiresAt r) ->
    (List.length (approvals r) + List.length steps <= List.length (approvers r))%nat ->
    state_of (act_all approve steps r)
    = Some match steps with
           | [] => pending
           | _ => if (List.length (approvals r) + List.length steps
                      =? List.length (approvers r))%nat
                  then approved else pending
           end.
Proof.
  induction steps as [| [x t] rest IH];
    intros r Hty Hst Hnd Hall Hdone Hturn Htime Hlen; [simpl; now rewrite Hst |].
  cbn [act_all].
  set (k := List.length (approvals r)) in *.
  cbn [map fst List.length] in Hturn.
  destruct (skipn k (approvers r)) as [| y later] eqn:Esk; [discriminate |].
  cbn [firstn] in Hturn. injection Hturn as <- Hturn.
  destruct (skipn_cons_nth (approvers r) k x later Esk) as [Hnth [Hsk Hfirst]].
  assert (Hx : In x (approvers r)) by (eapply nth_error_In; eassumption).
  assert (Hnew : forall a, In a (approvals r) -> approverId a <> x).
  { intros a Ha Heq.
    assert (Hin1 : In x (firstn k (approvers r)))
      by (rewrite <- Hdone, <- Heq; now apply in_map).
    assert (Hnd' : NoDup (firstn k (approvers r) ++ x :: later))
      by (rewrite <- Esk, firstn_skipn; exact Hnd).
    apply NoDup_remove_2 in Hnd'. apply Hnd'. apply in_or_app. now left. }
  destruct (approve_step r x t Hst Hall Hx Hnew (Htime (x, t) (or_introl eq_refl)))
    as [Hstep [Hfa Hfd]].
  rewrite Hstep. cbn [and_then].
  set (r1 := with_approvals r (approvals r ++ [approval_of x t])).
  assert (Hids : map approverId (approvals r ++ [approval_of x t])
                 = firstn (List.length (approvals r ++ [approval_of x t])) (approvers r)).
  { rewrite map_app, length_app. cbn [map List.length approverId approval_of].
    fold k. replace (k + 1)%nat with (S k) by lia. now rewrite Hfirst, Hdone. }
  assert (Hup : updateState t r1
                = if (k + 1 =? List.length (approvers r))%nat
                  then complete r1 approved t else r1).
  { unfold updateState. cbn [r1 with_approvals type approvals approvers]. fold r1.
    rewrite Hty, Hfa, Hfd, (in_order_not_outOfOrder _ _ Hids).
    cbn [List.length Z.of_nat Z.geb Z.compare].
    rewrite length_app. cbn [List.length]. fold k.
    destruct (Z.of_nat (k + 1) =? Z.of_nat (List.length (approvers r))) eqn:E.
    - apply Z.eqb_eq in E. apply Nat2Z.inj in E. now rewrite (proj2 (Nat.eqb_eq _ _) E).
    - apply Z.eqb_neq in E.
      destruct (k + 1 =? List.length (approvers r))%nat eqn:E'; [| reflexivity].
      apply Nat.eqb_eq in E'. lia. }
  rewrite Hup. cbn [List.length] in *.
  destruct (k + 1 =? List.length (approvers r))%nat eqn:E.
  - apply Nat.eqb_eq in E.
    assert (rest = []) by (destruct rest; [reflexivity | simpl in Hlen; lia]). subst rest.
    simpl. now rewrite (proj2 (Nat.eqb_eq _ _) E).
  - apply Nat.eqb_neq in E.
    rewrite (IH r1); cbn [r1 with_approvals type state approvals approvers expiresAt].
    + rewrite length_app. cbn [List.length]. fold k.
      destruct rest as [| s rest']; cbn [List.length].
      * now rewrite (proj2 (Nat.eqb_neq _ _) E).
      * replace (k + 1 + S (List.length rest'))%nat
          with (k + S (S (List.length rest')))%nat by lia.
        reflexivity.
    + exact Hty.
    + exact Hst.
    + exact Hnd.
    + intros a Ha. apply in_app_or in Ha.
      destruct Ha as [Ha | [<- | []]]; [now apply Hall | reflexivity].
    + exact Hids.
    + rewrite length_app. cbn [List.length]. fold k.
      replace (k + 1)%nat with (S k) by lia. now rewrite Hsk.
    + intros s Hs. apply Htime. now right.
    + rewrite length_app. cbn [List.length]. fold k. lia.
Qed.

End SequentialFacts.

(** X21.  On a pending request of type [sequential] without actions and
    with pairwise distinct approvers, timely approvals by the first [j]
    approvers in the order of [approvers] leave it [pending] while
    [j < approvers.length] and end in [approved] when the last approver has
    approved. *)
Theorem sequential_in_order_approves :
  forall (r : ApprovalWorkflow.ApprovalRequest) (steps : list (string * Z)),
    ApprovalWorkflow.type r = ApprovalWorkflow.sequential ->
    ApprovalWorkflow.state r = ApprovalWorkflow.pending ->
    ApprovalWorkflow.approvals r = [] ->
    NoDup (ApprovalWorkflow.approvers r) ->
    steps <> [] ->
    map fst steps = firstn (List.length steps) (ApprovalWorkflow.approvers r) ->
    (forall s, In s steps -> snd s <= ApprovalWorkflow.expiresAt r) ->
    (List.length steps <= List.length (ApprovalWorkflow.approvers r))%nat ->
    state_of (act_all ApprovalWorkflow.approve steps r)
    = Some (if (List.length steps =? List.length (ApprovalWorkflow.approvers r))%nat
            then ApprovalWorkflow.approved else ApprovalWorkflow.pending).
Proof.
  intros r steps Hty Hst Happ Hnd Hne Hturn Htime Hlen.
  assert (H : state_of (act_all ApprovalWorkflow.approve steps r)
              = Some match steps with
                     | [] => ApprovalWorkflow.pending
                     | _ => if (List.length (ApprovalWorkflow.approvals r)
                                + List.length steps
                                =? List.length (ApprovalWorkflow.approvers r))%nat
                            then ApprovalWorkflow.approved
                            else ApprovalWorkflow.pending
                     end).
  { apply sequential_progress; rewrite ?Happ; auto. intros a []. }
  rewrite H, Happ. destruct steps; [contradiction | reflexivity].
Qed.

Lemma sequential_in_order_approves_witness :
  state_of
    (act_all ApprovalWorkflow.approve [("alice", 10); ("bob", 20); ("carol", 30)]
       (fresh_request ApprovalWorkflow.sequential "alice" "bob" "carol" None 60 0))
  = Some ApprovalWorkflow.approved.
Proof.
  apply (sequential_in_order_approves
           (fresh_request ApprovalWorkflow.sequential "alice" "bob" "carol" None 60 0)
           [("alice", 10); ("bob", 20); ("carol", 30)]);
    try reflexivity; try discriminate.
  - repeat constructor; simpl; intuition discriminate.
  - simpl. intros s [<- | [<- | [<- | []]]]; simpl; lia.
Defined.

Section PendingApproverFacts.
Import ApprovalWorkflow.

Lemma includes_acted (l : list ApprovalAction) (x : string) :
  JS.includes (map approverId l) x = existsb (fun a => String.eqb (approverId a) x) l.
Proof.
  unfold JS.includes. induction l as [| a l IH]; simpl; [reflexivity |].
  now rewrite IH, (String.eqb_sym x (approverId a)).
Qed.

Lemma includes_true_In (l : list string) (x : string) : JS.includes l x = true -> In x l.
Proof.
  unfold JS.includes. intros H. apply existsb_exists in H.
  destruct H as [y [Hy Heq]]. apply String.eqb_eq in Heq. now subst y.
Qed.

Lemma accepted_iff (now stamp done : Z) (r : ApprovalRequest) (x : string)
      (v : Verdict) (note : option string) :
  state r = pending -> now <= expiresAt r ->
  (JS.includes (approvers r) x = true
   /\ JS.includes (map approverId (approvals r)) x = false)
  <-> exists r', processAction now stamp done r x v note = JS.Ok r'.
Proof.
  intros Hst Hnow. unfold processAction.
  rewrite Hst, (not_past_due _ _ Hnow), includes_acted.
  destruct (JS.includes (approvers r) x); cbn [negb].
  - destruct (existsb _ (approvals r)).
    + split; [intros [_ H]; discriminate | intros [r' H]; discriminate].
    + split; [intros _; eexists; reflexivity | auto].
  - split; [intros [H _]; discriminate | intros [r' H]; discriminate].
Qed.

Lemma firstn_succ_nth {A : Type} (l : list A) :
  forall k x, nth_error l k = Some x -> firstn (S k) l = (firstn k l ++ [x])%list.
Proof.
  induction l as [| y l IH]; intros k x H.
  - destruct k; discriminate.
  - destruct k; simpl in *.
    + now injection H as ->.
    + now rewrite <- (IH k x H).
Qed.

End PendingApproverFacts.

(** X22.  For a pending, unexpired request whose type is not [sequential],
    [getPendingApprovers] lists exactly the users whose action
    [processAction] accepts: it returns a request for [x] if and only if
    [x] is in the list, whatever the verdict. *)
Theorem pending_approvers_are_accepted :
  forall (r : ApprovalWorkflow.ApprovalRequest) (x : string) (now stamp done : Z)
         (v : ApprovalWorkflow.Verdict) (note : option string),
    ApprovalWorkflow.type r <> ApprovalWorkflow.sequential ->
    ApprovalWorkflow.state r = ApprovalWorkflow.pending ->
    now <= ApprovalWorkflow.expiresAt r ->
    (In x (ApprovalWorkflow.getPendingApprovers r)
     <-> exists r', ApprovalWorkflow.processAction now stamp done r x v note = JS.Ok r').
Proof.
  intros r x now stamp done v note Hty Hst Hnow.
  rewrite <- (accepted_iff now stamp done r x v note Hst Hnow).
  unfold ApprovalWorkflow.getPendingApprovers.
  assert (H : In x (filter (fun id => negb (JS.includes
                                             (map ApprovalWorkflow.approverId
                                                (ApprovalWorkflow.approvals r)) id))
                      (ApprovalWorkflow.approvers r))
              <-> JS.includes (ApprovalWorkflow.approvers r) x = true
                  /\ JS.includes (map ApprovalWorkflow.approverId
                                    (ApprovalWorkflow.approvals r)) x = false).
  { rewrite filter_In. split; intros [H1 H2]; split.
    - now apply includes_In.
    - now apply negb_true_iff.
    - now apply includes_true_In.
    - now apply negb_true_iff. }
  destruct (ApprovalWorkflow.type r); try exact H. now destruct Hty.
Qed.

Lemma pending_approvers_are_accepted_witness :
  In "bob" (ApprovalWorkflow.getPendingApprovers
              (fresh_request ApprovalWorkflow.majority "alice" "bob" "carol" (Some 2) 60 0))
  <-> exists r',
      ApprovalWorkflow.processAction 10 10 10
        (fresh_request ApprovalWorkflow.majority "alice" "bob" "carol" (Some 2) 60 0)
        "bob" ApprovalWorkflow.deny None = JS.Ok r'.
Proof.
  apply (pending_approvers_are_accepted
           (fresh_request ApprovalWorkflow.majority "alice" "bob" "carol" (Some 2) 60 0)
           "bob" 10 10 10 ApprovalWorkflow.deny None).
  - discriminate.
  - reflexivity.
  - simpl. lia.
Defined.

(** X23.  In a pending, unexpired [sequential] request that holds approvals
    only, given by the first approvers in the order of [approvers], the user
    [getNextApprover] returns is the only one whose approval does not end
    the request in [denied]: that approval leaves it [pending], or
    [approved] if it was the last one missing, while the approval of any
    other authorised user who has not acted ends in [denied]. *)
Theorem next_approver_has_the_turn :
  forall (r : ApprovalWorkflow.ApprovalRequest) (x y : string) (now stamp done : Z)
         (note : option string),
    ApprovalWorkflow.type r = ApprovalWorkflow.sequential ->
    ApprovalWorkflow.state r = ApprovalWorkflow.pending ->
    (forall a, In a (ApprovalWorkflow.approvals r)
               -> ApprovalWorkflow.action a = ApprovalWorkflow.approve) ->
    map ApprovalWorkflow.approverId (ApprovalWorkflow.approvals r)
    = firstn (List.length (ApprovalWorkflow.approvals r)) (ApprovalWorkflow.approvers r) ->
    ApprovalWorkflow.getNextApprover r = Some x ->
    In y (ApprovalWorkflow.approvers r) ->
    ~ has_acted r y ->
    now <= ApprovalWorkflow.expiresAt r ->
    state_of (ApprovalWorkflow.processAction now stamp done r y
                ApprovalWorkflow.approve note)
    = Some (if String.eqb y x
            then if (S (List.length (ApprovalWorkflow.approvals r))
                     =? List.length (ApprovalWorkflow.approvers r))%nat
                 then ApprovalWorkflow.approved else ApprovalWorkflow.pending
            else ApprovalWorkflow.denied).
Proof.
  intros r x y now stamp done note Hty Hst Hall Hord Hnext Hy Hno Hnow.
  destruct (all_approve_filter _ Hall) as [Hfa _].
  unfold ApprovalWorkflow.getNextApprover in Hnext. rewrite Hty, Hfa in Hnext.
  set (k := List.length (ApprovalWorkflow.approvals r)) in *.
  destruct (List.length (ApprovalWorkflow.approvers r) <=? k)%nat eqn:Ek;
    [discriminate |].
  unfold ApprovalWorkflow.processAction.
  rewrite Hst, (not_past_due _ _ Hnow), (includes_In _ _ Hy).
  rewrite not_acted_existsb by (intros a Ha Heq; apply Hno; now exists a).
  cbn [negb].
  set (new := {| ApprovalWorkflow.approverId := y;
                 ApprovalWorkflow.action := ApprovalWorkflow.approve;
                 ApprovalWorkflow.timestamp := stamp;
                 ApprovalWorkflow.comment := note |}).
  assert (Hall' : forall a, In a (ApprovalWorkflow.approvals r ++ [new])
                            -> ApprovalWorkflow.action a = ApprovalWorkflow.approve).
  { intros a Ha. apply in_app_or in Ha.
    destruct Ha as [Ha | [<- | []]]; [now apply Hall | reflexivity]. }
  destruct (all_approve_filter _ Hall') as [Hfa' Hfd'].
  unfold ApprovalWorkflow.updateState.
  cbn [ApprovalWorkflow.with_approvals ApprovalWorkflow.type ApprovalWorkflow.approvals
       ApprovalWorkflow.approvers].
  rewrite Hty, Hfa', Hfd'. cbn [List.length Z.of_nat Z.geb Z.compare].
  destruct (String.eqb y x) eqn:Exy.
  - apply String.eqb_eq in Exy. subst y.
    rewrite in_order_not_outOfOrder.
    + rewrite length_app. cbn [List.length]. fold k.
      destruct (Z.of_nat (k + 1) =? Z.of_nat (List.length (ApprovalWorkflow.approvers r)))
        eqn:E.
      * apply Z.eqb_eq in E. apply Nat2Z.inj in E.
        replace (S k) with (k + 1)%nat by lia.
        now rewrite (proj2 (Nat.eqb_eq _ _) E).
      * apply Z.eqb_neq in E.
        destruct (S k =? List.length (ApprovalWorkflow.approvers r))%nat eqn:E';
          [| simpl; now rewrite Hst].
        apply Nat.eqb_eq in E'. lia.
    + rewrite map_app, length_app. cbn [map List.length ApprovalWorkflow.approverId new].
      fold k. replace (k + 1)%nat with (S k) by lia.
      now rewrite (firstn_succ_nth _ _ _ Hnext), Hord.
  - assert (Hout : ApprovalWorkflow.outOfOrder (ApprovalWorkflow.approvals r ++ [new])
                     (ApprovalWorkflow.approvers r) = true).
    { unfold ApprovalWorkflow.outOfOrder. apply existsb_exists. exists k. split.
      - apply in_seq. rewrite length_app. cbn [List.length]. fold k. lia.
      - rewrite nth_error_app2 by (fold k; lia). fold k. rewrite Nat.sub_diag.
        cbn [nth_error]. rewrite Hnext. cbn [ApprovalWorkflow.approverId new].
        now rewrite Exy. }
    now rewrite Hout.
Qed.

Lemma next_approver_has_the_turn_witness :
  state_of
    (ApprovalWorkflow.processAction 10 10 10
       (fresh_request ApprovalWorkflow.sequential "alice" "bob" "carol" None 60 0)
       "carol" ApprovalWorkflow.approve None)
  = Some ApprovalWorkflow.denied.
Proof.
  apply (next_approver_has_the_turn
           (fresh_request ApprovalWorkflow.sequential "alice" "bob" "carol" None 60 0)
           "alice" "carol" 10 10 10 None); try reflexivity.
  - intros a [].
  - simpl. tauto.
  - intros [a [[] _]].
  - simpl. lia.
Defined.

Section ApprovalStoreFacts.
Import ApprovalWorkflow.

Lemma store_get_set_same (now done : Z) (key : string) (r : ApprovalRequest) (m : Store) :
  store_get now done key (store_set key r m) = Some (checkExpiration now done r).
Proof.
  induction m as [| [k r'] m IH]; simpl.
  - now rewrite String.eqb_refl.
  - destruct (String.eqb k key) eqn:E; simpl; rewrite E; [reflexivity | exact IH].
Qed.

Lemma store_get_set_other (now done : Z) (key k : string) (r : ApprovalRequest) (m : Store) :
  k <> key ->
  store_get now done k (store_set key r m) = store_get now done k m.
Proof.
  intros Hne. induction m as [| [k' r'] m IH]; simpl.
  - now rewrite (eqb_neq_sym key k) by congruence.
  - destruct (String.eqb k' key) eqn:E; simpl.
    + apply String.eqb_eq in E. subst k'.
      now rewrite (eqb_neq_sym key k) by congruence.
    + now rewrite IH.
Qed.

Lemma store_get_delete_same (now done : Z) (key : string) (m : Store) :
  store_get now done key (store_delete key m) = None.
Proof.
  unfold store_delete. induction m as [| [k r] m IH]; simpl; [reflexivity |].
  destruct (String.eqb k key) eqn:E; simpl; [exact IH | now rewrite E].
Qed.

Lemma store_get_delete_other (now done : Z) (key k : string) (m : Store) :
  k <> key ->
  store_get now done k (store_delete key m) = store_get now done k m.
Proof.
  intros Hne. unfold store_delete. induction m as [| [k' r] m IH]; simpl; [reflexivity |].
  destruct (String.eqb k' key) eqn:E; simpl.
  - apply String.eqb_eq in E. subst k'.
    now rewrite (eqb_neq_sym key k) by congruence.
  - now rewrite IH.
Qed.

Lemma ApprovalState_eqb_eq (a b : ApprovalState) : ApprovalState_eqb a b = true <-> a = b.
Proof. destruct a, b; simpl; split; intros H; congruence. Qed.

Lemma checkAll_final (clock : nat -> Z * Z) (rs : list ApprovalRequest) :
  forall i, (forall r, In r rs -> state r <> pending) -> checkAll clock i rs = rs.
Proof.
  induction rs as [| r rs IH]; intros i H; simpl; [reflexivity |].
  rewrite IH by (intros r' Hr'; apply H; now right).
  f_equal. unfold checkExpiration.
  pose proof (H r (or_introl eq_refl)) as Hr.
  destruct (state r); try reflexivity. now destruct Hr.
Qed.

Lemma checkAll_In (clock : nat -> Z * Z) (rs : list ApprovalRequest) :
  forall i r', In r' (checkAll clock i rs) ->
               exists r j, In r rs /\ r' = checkExpiration (fst (clock j)) (snd (clock j)) r.
Proof.
  induction rs as [| r rs IH]; intros i r' H; simpl in H; [destruct H |].
  destruct H as [<- | H].
  - exists r, i. split; [now left | reflexivity].
  - destruct (IH _ _ H) as [r0 [j [Hin Heq]]]. exists r0, j. split; [now right | exact Heq].
Qed.

Lemma checkExpiration_pending (now done : Z) (r : ApprovalRequest) :
  state r = pending ->
  approvers (checkExpiration now done r) = approvers r
  /\ id (checkExpiration now done r) = id r
  /\ state (checkExpiration now done r) = (if now >? expiresAt r then expired else pending).
Proof.
  intros Hst. unfold checkExpiration. rewrite Hst.
  destruct (now >? expiresAt r); simpl; auto.
Qed.

Lemma checkAll_nth (clock : nat -> Z * Z) (rs : list ApprovalRequest) :
  forall (i j : nat) (r' : ApprovalRequest),
    nth_error (checkAll clock i rs) j = Some r' ->
    exists r, nth_error rs j = Some r
              /\ r' = checkExpiration (fst (clock (i + j)%nat)) (snd (clock (i + j)%nat)) r.
Proof.
  induction rs as [| r rs IH]; intros i j r' H.
  - destruct j; discriminate.
  - destruct j as [| j]; cbn [checkAll nth_error] in *.
    + injection H as <-. exists r. rewrite Nat.add_0_r. auto.
    + destruct (IH (S i) j r' H) as [r0 [Hr0 Heq]]. exists r0.
      replace (i + S j)%nat with (S i + j)%nat by lia. auto.
Qed.

Lemma checkAll_length (clock : nat -> Z * Z) (rs : list ApprovalRequest) :
  forall i, List.length (checkAll clock i rs) = List.length rs.
Proof.
  induction rs as [| r rs IH]; intros i; simpl; [reflexivity | now rewrite IH].
Qed.

End ApprovalStoreFacts.

(** X24.  [ApprovalStore]: after [save(r)], [get(r.id)] returns [r] as
    [checkExpiration] sees it at the time of the call (so with state
    [expired] once a pending [r] is past due) and every other id reads as
    before; after [delete(id)], [get(id)] returns nothing and every other
    id reads as before. *)
Theorem store_round_trip :
  forall (now done : Z) (r : ApprovalWorkflow.ApprovalRequest) (k : string)
         (m : ApprovalWorkflow.Store),
    ApprovalWorkflow.store_get now done (ApprovalWorkflow.id r) (ApprovalWorkflow.save r m)
    = Some (ApprovalWorkflow.checkExpiration now done r)
    /\ ApprovalWorkflow.store_get now done k (ApprovalWorkflow.store_delete k m) = None
    /\ (k <> ApprovalWorkflow.id r ->
        ApprovalWorkflow.store_get now done k (ApprovalWorkflow.save r m)
        = ApprovalWorkflow.store_get now done k m)
    /\ (k <> ApprovalWorkflow.id r ->
        ApprovalWorkflow.store_get now done k
          (ApprovalWorkflow.store_delete (ApprovalWorkflow.id r) m)
        = ApprovalWorkflow.store_get now done k m).
Proof.
  intros now done r k m. unfold ApprovalWorkflow.save. repeat split.
  - apply store_get_set_same.
  - apply store_get_delete_same.
  - apply store_get_set_other.
  - apply store_get_delete_other.
Qed.

Lemma store_round_trip_witness :
  ApprovalWorkflow.store_get 10 10 "approval_0"
    (ApprovalWorkflow.save
       (fresh_request ApprovalWorkflow.single "alice" "bob" "carol" None 60 0) [])
  = ApprovalWorkflow.store_get 10 10 "approval_0" [].
Proof.
  apply (proj1 (proj2 (proj2 (store_round_trip 10 10
           (fresh_request ApprovalWorkflow.single "alice" "bob" "carol" None 60 0)
           "approval_0" [])))).
  discriminate.
Defined.

(** X25.  [ApprovalStore.findByUser] and [findPendingForApprover] select on
    the stored state and apply [checkExpiration] afterwards.  So a listing
    by a state other than [pending] is the stored requests of that user in
    that state, whatever the clock: a request stored as [pending] is not
    listed under [expired] even when it is past due.  And
    [findPendingForApprover] returns one request for each stored request
    that is [pending] and names the approver, in the order of the store:
    the stored request as [checkExpiration] returns it, so with state
    [expired] if it is past due at the time of that call and [pending]
    otherwise. *)
Theorem store_listings_select_stored_state :
  (forall (clock : nat -> Z * Z) (user : string) (s : ApprovalWorkflow.ApprovalState)
          (m : ApprovalWorkflow.Store),
      s <> ApprovalWorkflow.pending ->
      ApprovalWorkflow.findByUser clock user (Some s) m
      = filter (fun r => String.eqb (ApprovalWorkflow.userId r) user
                         && ApprovalWorkflow.ApprovalState_eqb (ApprovalWorkflow.state r) s)
          (map snd m))
  /\ (forall (clock : nat -> Z * Z) (approver : string) (m : ApprovalWorkflow.Store),
         let stored :=
           filter (fun r => ApprovalWorkflow.ApprovalState_eqb (ApprovalWorkflow.state r)
                              ApprovalWorkflow.pending
                            && JS.includes (ApprovalWorkflow.approvers r) approver)
             (map snd m) in
         let found := ApprovalWorkflow.findPendingForApprover clock approver m in
         List.length found = List.length stored
         /\ forall (j : nat) (r' : ApprovalWorkflow.ApprovalRequest),
             nth_error found j = Some r' ->
             exists r,
               nth_error stored j = Some r
               /\ In r (map snd m)
               /\ ApprovalWorkflow.state r = ApprovalWorkflow.pending
               /\ In approver (ApprovalWorkflow.approvers r)
               /\ r' = ApprovalWorkflow.checkExpiration (fst (clock j)) (snd (clock j)) r
               /\ ApprovalWorkflow.approvers r' = ApprovalWorkflow.approvers r
               /\ ApprovalWorkflow.id r' = ApprovalWorkflow.id r
               /\ ApprovalWorkflow.state r'
                  = (if fst (clock j) >? ApprovalWorkflow.expiresAt r
                     then ApprovalWorkflow.expired else ApprovalWorkflow.pending)).
Proof.
  split.
  - intros clock user s m Hs. unfold ApprovalWorkflow.findByUser.
    apply checkAll_final. intros r Hr Hst.
    apply filter_In in Hr. destruct Hr as [_ Hr].
    apply andb_true_iff in Hr. destruct Hr as [_ Hr].
    apply ApprovalState_eqb_eq in Hr. congruence.
  - intros clock approver m stored found. unfold found, stored.
    unfold ApprovalWorkflow.findPendingForApprover. split; [apply checkAll_length |].
    intros j r' Hr'. apply checkAll_nth in Hr'. destruct Hr' as [r [Hr Heq]].
    cbn [Nat.add] in Heq.
    pose proof (nth_error_In _ _ Hr) as Hin.
    apply filter_In in Hin. destruct Hin as [Hin Hb].
    apply andb_true_iff in Hb. destruct Hb as [Hst Hap].
    apply ApprovalState_eqb_eq in Hst. apply includes_true_In in Hap.
    destruct (checkExpiration_pending (fst (clock j)) (snd (clock j)) r Hst)
      as [H1 [H2 H3]].
    exists r. subst r'. repeat split; assumption.
Qed.

Lemma store_listings_select_stored_state_witness :
  let now := fun _ : nat => (1000000000, 1000000000) in
  let r0 := fresh_request ApprovalWorkflow.single "alice" "bob" "carol" None 60 0 in
  ApprovalWorkflow.findByUser now "user1" (Some ApprovalWorkflow.expired)
    (ApprovalWorkflow.save r0 [])
  = []
  /\ ApprovalWorkflow.state (ApprovalWorkflow.checkExpiration 1000000000 1000000000 r0)
     = ApprovalWorkflow.expired.
Proof.
  intros now r0. split.
  - apply (proj1 store_listings_select_stored_state now "user1" ApprovalWorkflow.expired
             (ApprovalWorkflow.save r0 [])).
    discriminate.
  - destruct (proj2 (proj2 store_listings_select_stored_state now "bob"
                       (ApprovalWorkflow.save r0 []))
                0%nat (ApprovalWorkflow.checkExpiration 1000000000 1000000000 r0) eq_refl)
      as [r [Hr [_ [_ [_ [_ [_ [_ Hs]]]]]]]].
    injection Hr as <-. rewrite Hs. reflexivity.
Defined.

(** ** The query engine *)

Section QueryFacts.
Import AuditLogger QueryEngine.

Variable q : AuditQuery.
Variables limit offset : Z.

Lemma page_skip (s c : Z) (ev ms : list AuditEvent) (e : AuditEvent) :
  s < offset -> page limit offset s c ev (e :: ms) = page limit offset (s + 1) c ev ms.
Proof.
  intros H. unfold page.
  replace (Z.to_nat (offset - s)) with (S (Z.to_nat (offset - (s + 1)))) by lia.
  reflexivity.
Qed.

Lemma page_push (s c : Z) (ev ms : list AuditEvent) (e : AuditEvent) :
  offset <= s -> 0 <= c < Z.max 1 limit ->
  page limit offset s c ev (e :: ms) = page limit offset s (c + 1) (ev ++ [e]) ms.
Proof.
  intros Hs Hc. unfold page.
  replace (Z.to_nat (offset - s)) with 0%nat by lia.
  replace (Z.to_nat (Z.max 1 limit - c))
    with (S (Z.to_nat (Z.max 1 limit - (c + 1)))) by lia.
  cbn [skipn firstn]. now rewrite <- app_assoc.
Qed.

Lemma page_full (s c : Z) (ev ms : list AuditEvent) :
  Z.max 1 limit <= c -> page limit offset s c ev ms = ev.
Proof.
  intros H. unfold page.
  replace (Z.to_nat (Z.max 1 limit - c)) with 0%nat by lia.
  cbn [firstn]. apply app_nil_r.
Qed.

Lemma scanFile_page (fileEvents : list AuditEvent) :
  forall (s c : Z) (ev : list AuditEvent),
    0 <= c < Z.max 1 limit ->
    match scanFile q limit offset fileEvents s c ev with
    | Returned r =>
        forall more, r = page limit offset s c ev
                           (filter (fun e => matchesQuery e q) fileEvents ++ more)
    | Running s' c' ev' =>
        0 <= c' < Z.max 1 limit
        /\ forall more, page limit offset s' c' ev' more
                        = page limit offset s c ev
                            (filter (fun e => matchesQuery e q) fileEvents ++ more)
    end.
Proof.
  induction fileEvents as [| e rest IH]; intros s c ev Hc; cbn [scanFile filter].
  - split; [exact Hc | reflexivity].
  - destruct (matchesQuery e q) eqn:Em.
    + destruct (s <? offset) eqn:Es.
      * apply Z.ltb_lt in Es. specialize (IH (s + 1) c ev Hc).
        destruct (scanFile q limit offset rest (s + 1) c ev) as [s' c' ev' | r].
        -- destruct IH as [Hc' IH]. split; [exact Hc' |].
           intros more. cbn [app]. rewrite page_skip by exact Es. apply IH.
        -- intros more. cbn [app]. rewrite page_skip by exact Es. apply IH.
      * apply Z.ltb_ge in Es.
        destruct (c + 1 >=? limit) eqn:El.
        -- rewrite Z.geb_leb in El. apply Z.leb_le in El.
           intros more. cbn [app]. rewrite page_push by assumption.
           symmetry. apply page_full. lia.
        -- rewrite Z.geb_leb in El. apply Z.leb_gt in El.
           assert (Hc' : 0 <= c + 1 < Z.max 1 limit) by lia.
           specialize (IH s (c + 1) (ev ++ [e])%list Hc').
           destruct (scanFile q limit offset rest s (c + 1) (ev ++ [e])) as [s' c' ev' | r].
           ++ destruct IH as [Hc'' IH]. split; [exact Hc'' |].
              intros more. cbn [app]. rewrite page_push by assumption. apply IH.
           ++ intros more. cbn [app]. rewrite page_push by assumption. apply IH.
    + apply IH. exact Hc.
Qed.

Lemma scanFiles_page (files : list (list AuditEvent)) :
  forall (s c : Z) (ev : list AuditEvent),
    0 <= c < Z.max 1 limit ->
    scanFiles q limit offset files s c ev = page limit offset s c ev (matching q files).
Proof.
  unfold matching.
  induction files as [| f files IH]; intros s c ev Hc; cbn [scanFiles List.concat].
  - unfold page. cbn [filter]. rewrite skipn_nil, firstn_nil. now rewrite app_nil_r.
  - pose proof (scanFile_page f s c ev Hc) as Hf. rewrite filter_app.
    destruct (scanFile q limit offset f s c ev) as [s' c' ev' | r].
    + destruct Hf as [Hc' Hf]. rewrite IH by exact Hc'. apply Hf.
    + apply Hf.
Qed.

Lemma count_file (fileEvents : list AuditEvent) :
  forall n : Z,
    fold_left (fun count event => if matchesQuery event q then count + 1 else count)
              fileEvents n
    = n + Z.of_nat (List.length (filter (fun e => matchesQuery e q) fileEvents)).
Proof.
  induction fileEvents as [| e rest IH]; intros n; cbn [fold_left filter].
  - simpl. lia.
  - rewrite IH. destruct (matchesQuery e q); cbn [List.length]; lia.
Qed.

Lemma count_files (files : list (list AuditEvent)) :
  forall n : Z,
    fold_left
      (fun count fileEvents =>
         fold_left (fun count event => if matchesQuery event q then count + 1 else count)
                   fileEvents count)
      files n
    = n + Z.of_nat (List.length (matching q files)).
Proof.
  unfold matching.
  induction files as [| f files IH]; intros n; cbn [fold_left List.concat].
  - simpl. lia.
  - rewrite IH, count_file, filter_app, length_app. lia.
Qed.

End QueryFacts.

Section QueryResultFacts.
Import AuditLogger QueryEngine.

Lemma query_page (files : list (list AuditEvent)) (q : AuditQuery) :
  query files q
  = firstn (Z.to_nat (Z.max 1 (or_num (q_limit q) 1000)))
      (skipn (Z.to_nat (or_num (q_offset q) 0)) (matching q files)).
Proof.
  unfold query. rewrite scanFiles_page by lia. unfold page.
  rewrite !Z.sub_0_r. reflexivity.
Qed.

Lemma In_firstn {A : Type} (n : nat) (l : list A) (x : A) : In x (firstn n l) -> In x l.
Proof.
  revert n. induction l as [| y l IH]; intros n H.
  - now rewrite firstn_nil in H.
  - destruct n; simpl in H; [destruct H |].
    destruct H as [-> | H]; [now left | right; eapply IH; eassumption].
Qed.

Lemma In_skipn {A : Type} (n : nat) (l : list A) (x : A) : In x (skipn n l) -> In x l.
Proof.
  revert n. induction l as [| y l IH]; intros n H.
  - now rewrite skipn_nil in H.
  - destruct n; simpl in H; [exact H | right; eapply IH; eassumption].
Qed.

Lemma rejects_false (f : string) (field : option string) :
  f <> "" -> rejects (Some f) field = false -> field = Some f.
Proof.
  intros Hne. unfold rejects. rewrite (proj2 (String.eqb_neq _ _) Hne).
  destruct field as [v |]; [| discriminate].
  intros H. apply negb_false_iff in H. apply String.eqb_eq in H. now subst v.
Qed.

Lemma matchesQuery_filters (e : AuditEvent) (q : AuditQuery) :
  matchesQuery e q = true ->
  (q_orgId q <> "" -> orgId e = q_orgId q)
  /\ (forall w, q_workspaceId q = Some w -> w <> "" -> workspaceId e = w)
  /\ (forall u, q_userId q = Some u -> u <> "" -> userId e = Some u)
  /\ (forall a, q_agentId q = Some a -> a <> "" -> agentId e = a)
  /\ (forall a, q_action q = Some a -> a <> "" -> action e = a)
  /\ (forall r, q_result q = Some r -> r <> "" -> result e = r)
  /\ (forall t, q_startTime q = Some t -> t <= timestamp e)
  /\ (forall t, q_endTime q = Some t -> timestamp e <= t).
Proof.
  unfold matchesQuery.
  destruct (rejects (Some (q_orgId q)) _) eqn:E1; [discriminate |].
  destruct (rejects (q_workspaceId q) _) eqn:E2; [discriminate |].
  destruct (rejects (q_userId q) _) eqn:E3; [discriminate |].
  destruct (rejects (q_agentId q) _) eqn:E4; [discriminate |].
  destruct (rejects (q_action q) _) eqn:E5; [discriminate |].
  destruct (rejects (q_result q) _) eqn:E6; [discriminate |].
  destruct (match q_startTime q with Some _ => _ | None => _ end) eqn:E7; [discriminate |].
  destruct (match q_endTime q with Some _ => _ | None => _ end) eqn:E8; [discriminate |].
  intros _. repeat split.
  - intros H. pose proof (rejects_false _ _ H E1) as H'. now injection H'.
  - intros w Hw H. rewrite Hw in E2. pose proof (rejects_false _ _ H E2) as H'.
    now injection H'.
  - intros u Hu H. rewrite Hu in E3. exact (rejects_false _ _ H E3).
  - intros a Ha H. rewrite Ha in E4. pose proof (rejects_false _ _ H E4) as H'.
    now injection H'.
  - intros a Ha H. rewrite Ha in E5. pose proof (rejects_false _ _ H E5) as H'.
    now injection H'.
  - intros r Hr H. rewrite Hr in E6. pose proof (rejects_false _ _ H E6) as H'.
    now injection H'.
  - intros t Ht. rewrite Ht in E7. apply Z.ltb_ge in E7. exact E7.
  - intros t Ht. rewrite Ht in E8. rewrite Z.gtb_ltb in E8. apply Z.ltb_ge in E8. exact E8.
Qed.

End QueryResultFacts.

(** X27.  [query] returns a page of the matching events in the order of
    the files and of their lines: with [limit = query.limit || 1000] and
    [offset = query.offset || 0], it drops the first [offset] matching
    events and returns the next [max(1, limit)] of them, or as many as are
    left.  So a limit of 0 stands for 1000 and a negative limit returns
    one event; a negative offset drops none. *)
Theorem query_returns_page :
  forall (files : list (list AuditLogger.AuditEvent)) (q : QueryEngine.AuditQuery),
    QueryEngine.query files q
    = firstn (Z.to_nat (Z.max 1 (QueryEngine.or_num (QueryEngine.q_limit q) 1000)))
        (skipn (Z.to_nat (QueryEngine.or_num (QueryEngine.q_offset q) 0))
           (matching q files)).
Proof. exact query_page. Qed.

(** X28.  [count] is the number of matching events in the files, whatever
    [limit] and [offset] say, and [query] never returns more events than
    [count] counts. *)
Theorem count_counts_matching :
  forall (files : list (list AuditLogger.AuditEvent)) (q : QueryEngine.AuditQuery),
    QueryEngine.count files q = Z.of_nat (List.length (matching q files))
    /\ Z.of_nat (List.length (QueryEngine.query files q)) <= QueryEngine.count files q.
Proof.
  intros files q.
  assert (H : QueryEngine.count files q = Z.of_nat (List.length (matching q files))).
  { unfold QueryEngine.count. rewrite count_files. lia. }
  split; [exact H |].
  rewrite H, query_page, length_firstn, length_skipn. lia.
Qed.

(** X29.  Every event that [query] returns is a line of one of the files
    read and passes every filter of the query that is given and not empty:
    it has the query's [orgId], [workspaceId], [userId], [agentId],
    [action] and [result], and its timestamp is neither before [startTime]
    nor after [endTime]. *)
Theorem query_results_pass_filters :
  forall (files : list (list AuditLogger.AuditEvent)) (q : QueryEngine.AuditQuery)
         (e : AuditLogger.AuditEvent),
    In e (QueryEngine.query files q) ->
    (exists f, In f files /\ In e f)
    /\ (QueryEngine.q_orgId q <> "" -> AuditLogger.orgId e = QueryEngine.q_orgId q)
    /\ (forall w, QueryEngine.q_workspaceId q = Some w -> w <> ""
                  -> AuditLogger.workspaceId e = w)
    /\ (forall u, QueryEngine.q_userId q = Some u -> u <> ""
                  -> AuditLogger.userId e = Some u)
    /\ (forall a, QueryEngine.q_agentId q = Some a -> a <> ""
                  -> AuditLogger.agentId e = a)
    /\ (forall a, QueryEngine.q_action q = Some a -> a <> ""
                  -> AuditLogger.action e = a)
    /\ (forall r, QueryEngine.q_result q = Some r -> r <> ""
                  -> AuditLogger.result e = r)
    /\ (forall t, QueryEngine.q_startTime q = Some t -> t <= AuditLogger.timestamp e)
    /\ (forall t, QueryEngine.q_endTime q = Some t -> AuditLogger.timestamp e <= t).
Proof.
  intros files q e He. rewrite query_page in He.
  apply In_firstn, In_skipn in He. unfold matching in He.
  apply filter_In in He. destruct He as [Hin Hm]. split.
  - apply in_concat in Hin. destruct Hin as [f [Hf He]]. now exists f.
  - now apply matchesQuery_filters.
Qed.

Lemma query_results_pass_filters_witness :
  In (sample_event "e1")
     (QueryEngine.query [[sample_event "e0"; sample_event "e1"]]
        (QueryEngine.mkQuery "org1" None None None None None None None None (Some 1)))
  /\ AuditLogger.orgId (sample_event "e1") = "org1".
Proof.
  assert (H : In (sample_event "e1")
                (QueryEngine.query [[sample_event "e0"; sample_event "e1"]]
                   (QueryEngine.mkQuery "org1" None None None None None None None None
                      (Some 1))))
    by (vm_compute; now left).
  split; [exact H |].
  apply (proj1 (proj2 (query_results_pass_filters _ _ _ H))).
  discriminate.
Defined.

(** ** The shape of a redacted object *)

Section RedactedShapeFacts.
Import PIIRedactor.

Lemma obj_set_fresh (key : string) (v : JValue) (fields : list (string * JValue)) :
  ~ In key (map fst fields) -> obj_set key v fields = (fields ++ [(key, v)])%list.
Proof.
  induction fields as [| [k v'] fields IH]; intros H; simpl; [reflexivity |].
  simpl in H. rewrite (proj2 (String.eqb_neq k key)) by tauto.
  rewrite IH by tauto. reflexivity.
Qed.

Lemma redact_fields_fresh (this : t) (fields : list (string * JValue)) :
  forall acc,
    NoDup (map fst fields) ->
    (forall k, In k (map fst fields) -> ~ In k (map fst acc)) ->
    fold_left (redact_field this) fields acc
    = (acc ++ map (redacted_entry this) (filter ordinary_key fields))%list.
Proof.
  induction fields as [| [k v] fields IH]; intros acc Hnd Hfresh; cbn [fold_left filter].
  - simpl. now rewrite app_nil_r.
  - cbn [map fst] in Hnd. inversion Hnd as [| ? ? Hk Hrest]; subst.
    unfold ordinary_key at 1. cbn [fst].
    assert (Hstep : redact_field this acc (k, v)
                    = assign acc k (snd (redacted_entry this (k, v)))).
    { unfold redact_field, redacted_entry. cbn [fst snd].
      now destruct (isSensitiveKey k). }
    rewrite Hstep. unfold assign.
    destruct (String.eqb k "__proto__") eqn:Ep; cbn [negb].
    + apply IH; [exact Hrest |].
      intros k' Hk'. apply Hfresh. now right.
    + rewrite obj_set_fresh by (apply Hfresh; now left).
      rewrite IH.
      * rewrite <- app_assoc. reflexivity.
      * exact Hrest.
      * intros k' Hk' Hin. rewrite map_app in Hin. apply in_app_or in Hin.
        destruct Hin as [Hin | [Heq | []]].
        -- apply (Hfresh k'); [now right | exact Hin].
        -- cbn [fst] in Heq. subst k'. contradiction.
Qed.

End RedactedShapeFacts.

(** X30.  [redactObject] keeps the shape of an object: the result holds
    the properties of the input in the same order, each sensitive key with
    ['[REDACTED]'] and every other key with the redaction of its value;
    only an own property named ['__proto__'] is lost. *)
Theorem redactObject_keeps_shape :
  forall (this : PIIRedactor.t) (fields : list (string * PIIRedactor.JValue)),
    NoDup (map fst fields) ->
    PIIRedactor.redactObject this (PIIRedactor.JObject fields)
    = PIIRedactor.JObject (map (redacted_entry this) (filter ordinary_key fields)).
Proof.
  intros this fields Hnd. rewrite redactObject_object.
  rewrite redact_fields_fresh; [reflexivity | exact Hnd | intros k _ []].
Qed.

Lemma redactObject_keeps_shape_witness :
  PIIRedactor.redactObject PIIRedactor.defaultRedactor
    (PIIRedactor.JObject
       [("user", PIIRedactor.JBoolean true); ("password", PIIRedactor.JString "x")])
  = PIIRedactor.JObject
      (map (redacted_entry PIIRedactor.defaultRedactor)
         (filter ordinary_key
            [("user", PIIRedactor.JBoolean true); ("password", PIIRedactor.JString "x")])).
Proof.
  apply (redactObject_keeps_shape PIIRedactor.defaultRedactor
           [("user", PIIRedactor.JBoolean true); ("password", PIIRedactor.JString "x")]).
  repeat constructor; simpl; intuition discriminate.
Defined.
